(** * A limit order book with a position ledger: server/orderbook.js and the
      trading handlers of server/index.js

    The development embeds the [OrderBook] class (price levels, matching,
    cancellation, click-to-take, the position ledger) and the market
    lifecycle handlers of the socket server, and proves the properties of
    the specification about them.

    Modelling conventions.
    - A finite JavaScript number is represented by its rational value
      ([Qc], canonical fractions, so that [=] is numeric equality as [===]
      is on finite numbers). The operations come at two levels. At the
      first, [+], [-], [*] and [/] are exact. What is proved there is
      about the order of the queues, the keys of the maps, ids, the
      tape, the position limit and the lifecycle; a snapped price enters
      as the key that [snapToTick] returns, and sums and differences of
      quantities are exact, as they are in the code on integers of
      magnitude below 2^53. The running totals that [onTradeHook] keeps
      are carried at this level only, and all that is stated of them is
      when they are left as they are. At the second level, module [Fl], every arithmetic
      operation of the source is followed by the rounding [fl] of its
      result, as in the code. What depends on rounding, the totals of
      the ledger and the booking of a self-trade, is proved there for
      every rounding that leaves 0 as it is, and evaluated with [b64],
      the rounding of binary64. The first level is the second with the
      identity for [fl]. NaN, the infinities (overflow) and the sign of
      zero are outside both.
    - A [Map] is a finite map ([gmap]); the only uses of key order in the
      source ([Math.max]/[Math.min] over the keys) do not depend on it.
    - [Date.now()] is the argument [now] of an operation.
    - The [onTrade] callback is an effect of [_recordTrade]: every
      operation returns, next to its result and the new book, the list of
      trades it handed to the callback, in order.
    - An operation returns [None] when it would not return normally (a
      loop that runs out of the iteration budget it is given, or a read of
      a missing level); the totality lemmas show this never happens. *)

From Stdlib Require Import QArith Qcanon Qround Qabs.
From stdpp Require Import numbers gmap strings list fin_maps sorting.

Local Open Scope Qc_scope.

(** * The program *)

(** ** Numbers *)

Abbreviation num := Qc (only parsing).

Definition num_of_Z (z : Z) : num := Q2Qc (inject_Z z).

(** [Math.min(a, b)], [Math.max(a, b)] and [Math.abs(a)]. *)
Definition Math_min (a b : num) : num := if bool_decide (b < a) then b else a.
Definition Math_max (a b : num) : num := if bool_decide (a < b) then b else a.
Definition Math_abs (a : num) : num := if bool_decide (a < 0) then - a else a.

(** [Math.round(x)]: the nearest integer, ties towards plus infinity. *)
Definition Math_round (x : num) : num :=
  num_of_Z (Qfloor (x + Q2Qc (1 # 2))).

(** [+x || d] on a number: [d] replaces the falsy value 0. *)
Definition or_default (x d : num) : num :=
  if bool_decide (x = 0) then d else x.

(** ** Records *)

Module Order.
Record t := mk {
  id : Z;
  userId : string;
  side : string;          (* 'buy' | 'sell' *)
  price : num;
  qty : num;
  leaves : num;
  ts : Z
}.

(** The constructor of the class: [leaves] starts at [qty]. *)
Definition new (id : Z) (userId side : string) (price qty : num) (ts : Z) : t :=
  mk id userId side price qty qty ts.

Definition set_leaves (l : num) (o : t) : t :=
  mk (id o) (userId o) (side o) (price o) (qty o) l (ts o).

#[global] Instance order_eq_dec : EqDecision t.
Proof. solve_decision. Defined.
End Order.

Module Pos.
Record t := mk { qty : num; cash : num }.

Definition zero : t := mk 0 0.
Definition add_qty (d : num) (p : t) : t := mk (qty p + d) (cash p).
Definition sub_qty (d : num) (p : t) : t := mk (qty p - d) (cash p).
Definition add_cash (d : num) (p : t) : t := mk (qty p) (cash p + d).
Definition sub_cash (d : num) (p : t) : t := mk (qty p) (cash p - d).

#[global] Instance pos_eq_dec : EqDecision t.
Proof. solve_decision. Defined.
End Pos.

Module Trade.
Record t := mk {
  ts : Z;
  symbol : string;
  price : num;
  qty : num;
  buyer : string;
  seller : string
}.

#[global] Instance trade_eq_dec : EqDecision t.
Proof. solve_decision. Defined.
End Trade.

(** A side map: price -> FIFO queue of orders. *)
Abbreviation levels := (gmap Qc (list Order.t)) (only parsing).
Abbreviation ledger := (gmap string Pos.t) (only parsing).

(** ** Book primitives *)

Definition pushAtPrice (map : levels) (price : num) (order : Order.t) : levels :=
  let map1 := if bool_decide (is_Some (map !! price)) then map else <[price := []]> map in
  <[price := default [] (map1 !! price) ++ [order]]> map1.

Definition keys (map : levels) : list num := (map_to_list map).*1.

(** [Math.max(...ks)] and [Math.min(...ks)] of a non-empty spread. *)
Definition max_of (ks : list num) : option num :=
  foldr (λ k acc, Some (from_option (Math_max k) k acc)) None ks.
Definition min_of (ks : list num) : option num :=
  foldr (λ k acc, Some (from_option (Math_min k) k acc)) None ks.

Definition bestBid (mapBids : levels) : option num :=
  if bool_decide (size mapBids = 0%nat) then None else max_of (keys mapBids).
Definition bestAsk (mapAsks : levels) : option num :=
  if bool_decide (size mapAsks = 0%nat) then None else min_of (keys mapAsks).

Definition snapToTick (px tick : num) : num :=
  let t := Math_max (Q2Qc (1 # 1000000)) (or_default tick (Q2Qc (1 # 100))) in
  Math_round (px / t) * t.

(** ** The order book *)

Record OrderBook := mkBook {
  symbol : string;
  tickSize : num;
  posLimit : num;
  bids : gmap Qc (list Order.t);
  asks : gmap Qc (list Order.t);
  orderIdSeq : Z;
  positions : gmap string Pos.t;
  trades : list Trade.t
}.

#[global] Instance OrderBook_eq_dec : EqDecision OrderBook.
Proof. solve_decision. Defined.

Definition new_OrderBook (symbol : string) (tickSize posLimit : num) : OrderBook :=
  mkBook symbol tickSize posLimit ∅ ∅ 1 ∅ [].

Definition set_bids (m : levels) (b : OrderBook) : OrderBook :=
  mkBook (symbol b) (tickSize b) (posLimit b) m (asks b) (orderIdSeq b) (positions b) (trades b).
Definition set_asks (m : levels) (b : OrderBook) : OrderBook :=
  mkBook (symbol b) (tickSize b) (posLimit b) (bids b) m (orderIdSeq b) (positions b) (trades b).
Definition set_orderIdSeq (n : Z) (b : OrderBook) : OrderBook :=
  mkBook (symbol b) (tickSize b) (posLimit b) (bids b) (asks b) n (positions b) (trades b).
Definition set_positions (ps : ledger) (b : OrderBook) : OrderBook :=
  mkBook (symbol b) (tickSize b) (posLimit b) (bids b) (asks b) (orderIdSeq b) ps (trades b).
Definition set_trades (ts : list Trade.t) (b : OrderBook) : OrderBook :=
  mkBook (symbol b) (tickSize b) (posLimit b) (bids b) (asks b) (orderIdSeq b) (positions b) ts.

Definition is_buy (side : string) : bool := bool_decide (side = "buy").
Definition is_sell (side : string) : bool := bool_decide (side = "sell").

(** [side === 'buy' ? this.asks : this.bids], and the map an order of that
    side rests in. *)
Definition makerMap (side : string) (b : OrderBook) : levels :=
  if is_buy side then asks b else bids b.
Definition set_makerMap (side : string) (m : levels) (b : OrderBook) : OrderBook :=
  if is_buy side then set_asks m b else set_bids m b.
Definition ownMap (side : string) (b : OrderBook) : levels :=
  if is_buy side then bids b else asks b.
Definition set_ownMap (side : string) (m : levels) (b : OrderBook) : OrderBook :=
  if is_buy side then set_bids m b else set_asks m b.

(** [_pos(userId)]: the entry is created on first touch. The caller gets
    a reference to the stored object; [pos_of] reads through it and
    [upd_pos] writes through it. *)
Definition touch (userId : string) (ps : ledger) : ledger :=
  if bool_decide (is_Some (ps !! userId)) then ps else <[userId := Pos.zero]> ps.

Definition pos_of (ps : ledger) (userId : string) : Pos.t :=
  default Pos.zero (ps !! userId).

Definition _pos (userId : string) (b : OrderBook) : Pos.t * OrderBook :=
  let b1 := set_positions (touch userId (positions b)) b in
  (pos_of (positions b1) userId, b1).

(** [this._pos(userId).field op= v]. *)
Definition upd_pos (userId : string) (f : Pos.t → Pos.t) (b : OrderBook) : OrderBook :=
  let '(p, b1) := _pos userId b in
  set_positions (<[userId := f p]> (positions b1)) b1.

Definition getPosPublic (userId : string) (b : OrderBook) : (string * num * num) * OrderBook :=
  let '(p, b1) := _pos userId b in
  ((userId, Pos.qty p, Pos.cash p), b1).

Definition _checkPosLimit (userId side : string) (incQty : num) (b : OrderBook)
  : bool * OrderBook :=
  let '(p, b1) := _pos userId b in
  let newQty := if is_buy side then Pos.qty p + incQty else Pos.qty p - incQty in
  (bool_decide (Math_abs newQty ≤ posLimit b1), b1).

(** [_recordTrade]: the tape keeps the last 1000 trades. The call of
    [onTrade] is recorded by the callers, in the list of emitted trades. *)
Definition _recordTrade (trade : Trade.t) (b : OrderBook) : OrderBook :=
  let ts1 := trades b ++ [trade] in
  set_trades (if bool_decide (1000 < length ts1)%nat then tail ts1 else ts1) b.

(** The ledger and tape part of one fill, shared by [_matchIncoming] and
    [takeAtPrice] (lines 119-128 and 183-192). *)
Definition settle_fill (now : Z) (side userId : string) (maker : Order.t)
    (tradePx tradeQty : num) (b : OrderBook) : Trade.t * OrderBook :=
  let buyer := if is_buy side then userId else Order.userId maker in
  let seller := if is_sell side then userId else Order.userId maker in
  let b1 := upd_pos buyer (Pos.add_qty tradeQty) b in
  let b2 := upd_pos buyer (Pos.sub_cash (tradeQty * tradePx)) b1 in
  let b3 := upd_pos seller (Pos.sub_qty tradeQty) b2 in
  let b4 := upd_pos seller (Pos.add_cash (tradeQty * tradePx)) b3 in
  let trade := Trade.mk now (symbol b4) tradePx tradeQty buyer seller in
  (trade, _recordTrade trade b4).

(** ** Matching *)

(** The inner loop of [_matchIncoming] (lines 107-131): the queue [q] of
    the level at [px] is consumed from its head. The array is the one
    stored in the map, so what is left of it is what the map holds when
    the loop ends; [match_loop] writes it back. *)
Fixpoint match_level (fuel : nat) (now : Z) (px : num) (order : Order.t)
    (q : list Order.t) (b : OrderBook)
  : option (Order.t * list Order.t * OrderBook * list Trade.t) :=
  match q with
  | [] => Some (order, q, b, [])
  | maker :: rest =>
    if bool_decide (0 < Order.leaves order) then
      match fuel with
      | O => None
      | S fuel' =>
        let tradeQty := Math_min (Order.leaves order) (Order.leaves maker) in
        let '(ok, b1) :=
          _checkPosLimit (Order.userId order) (Order.side order) tradeQty b in
        if negb ok then Some (Order.set_leaves 0 order, q, b1, [])
        else
          let order1 := Order.set_leaves (Order.leaves order - tradeQty) order in
          let maker1 := Order.set_leaves (Order.leaves maker - tradeQty) maker in
          let '(trade, b2) :=
            settle_fill now (Order.side order) (Order.userId order) maker px tradeQty b1 in
          let q1 := if bool_decide (Order.leaves maker1 = 0) then rest else maker1 :: rest in
          '(o', q', b', ts) ← match_level fuel' now px order1 q1 b2;
          Some (o', q', b', trade :: ts)
      end
    else Some (order, q, b, [])
  end.

Definition best (side : string) (m : levels) : option num :=
  if is_buy side then bestAsk m else bestBid m.

Definition crosses (side : string) (price px : num) : bool :=
  (is_buy side && bool_decide (px ≤ price)) || (is_sell side && bool_decide (price ≤ px)).

(** What the map holds at [px] after the inner loop (line 132). *)
Definition close_level (px : num) (q : list Order.t) (m : levels) : levels :=
  if bool_decide (q = []) then delete px m else <[px := q]> m.

(** The outer loop of [_matchIncoming] (lines 99-133). *)
Fixpoint match_loop (fuel : nat) (now : Z) (order : Order.t) (b : OrderBook)
  : option (Order.t * OrderBook * list Trade.t) :=
  let side := Order.side order in
  let m := makerMap side b in
  if bool_decide (0 < Order.leaves order) && bool_decide (0 < size m)%nat then
    match fuel with
    | O => None
    | S fuel' =>
      match best side m with
      | None => Some (order, b, [])
      | Some px =>
        if negb (crosses side (Order.price order) px) then Some (order, b, [])
        else
          q ← m !! px;
          '(order1, q1, b1, ts1) ← match_level (S (length q)) now px order q b;
          let b2 := set_makerMap side (close_level px q1 m) b1 in
          '(o', b', ts2) ← match_loop fuel' now order1 b2;
          Some (o', b', ts1 ++ ts2)
      end
    end
  else Some (order, b, []).

Definition _matchIncoming (now : Z) (order : Order.t) (b : OrderBook)
  : option (Order.t * OrderBook * list Trade.t) :=
  match_loop (S (size (makerMap (Order.side order) b))) now order b.

Inductive PlaceResult :=
| Rejected (reason : string)
| Accepted (orderId : Z).

#[global] Instance PlaceResult_eq_dec : EqDecision PlaceResult.
Proof. solve_decision. Defined.

Definition placeLimit (now : Z) (userId side : string) (price qty : num)
    (b : OrderBook) : option (PlaceResult * OrderBook * list Trade.t) :=
  let '(ok, b1) := _checkPosLimit userId side qty b in
  if negb ok then Some (Rejected "pos_limit", b1, [])
  else
    let id := orderIdSeq b1 in
    let b2 := set_orderIdSeq (id + 1) b1 in
    let order := Order.new id userId side (snapToTick price (tickSize b2)) qty now in
    '(order', b3, ts) ← _matchIncoming now order b2;
    let b4 :=
      if bool_decide (0 < Order.leaves order')
      then set_ownMap side (pushAtPrice (ownMap side b3) (Order.price order') order') b3
      else b3 in
    Some (Accepted id, b4, ts).

Definition cancelAtPrice (userId side : string) (price : num) (b : OrderBook)
  : nat * OrderBook :=
  let map := ownMap side b in
  let px := snapToTick price (tickSize b) in
  match map !! px with
  | None => (0%nat, b)
  | Some q =>
    let before := length q in
    let filtered := filter (λ o, Order.userId o ≠ userId) q in
    let removed := (before - length filtered)%nat in
    let map1 :=
      if bool_decide (filtered ≠ []) then <[px := filtered]> map else delete px map in
    (removed, set_ownMap side map1 b)
  end.

(** The loop of [takeAtPrice] (lines 174-195). *)
Fixpoint take_loop (fuel : nat) (now : Z) (userId side : string) (px : num)
    (remaining : num) (q : list Order.t) (b : OrderBook)
  : option (num * list Order.t * OrderBook * list Trade.t) :=
  match q with
  | [] => Some (remaining, q, b, [])
  | maker :: rest =>
    if bool_decide (0 < remaining) then
      match fuel with
      | O => None
      | S fuel' =>
        let tradeQty := Math_min remaining (Order.leaves maker) in
        let '(ok, b1) := _checkPosLimit userId side tradeQty b in
        if negb ok then Some (remaining, q, b1, [])
        else
          let maker1 := Order.set_leaves (Order.leaves maker - tradeQty) maker in
          let remaining1 := remaining - tradeQty in
          let '(trade, b2) := settle_fill now side userId maker px tradeQty b1 in
          let q1 := if bool_decide (Order.leaves maker1 = 0) then rest else maker1 :: rest in
          '(r', q', b', ts) ← take_loop fuel' now userId side px remaining1 q1 b2;
          Some (r', q', b', trade :: ts)
      end
    else Some (remaining, q, b, [])
  end.

(** [takeAtPrice] returns the number 0 or the boolean true. *)
Inductive TakeResult := Take0 | TakeTrue.

#[global] Instance TakeResult_eq_dec : EqDecision TakeResult.
Proof. solve_decision. Defined.

Definition takeAtPrice (now : Z) (userId side : string) (price maxQty : num)
    (b : OrderBook) : option (TakeResult * OrderBook * list Trade.t) :=
  let m := makerMap side b in
  let px := snapToTick price (tickSize b) in
  match m !! px with
  | None => Some (Take0, b, [])
  | Some q =>
    let remaining := Math_max 0 (or_default maxQty 0) in
    if bool_decide (remaining = 0) then Some (Take0, b, [])
    else
      '(_, q1, b1, ts) ← take_loop (S (length q)) now userId side px remaining q b;
      Some (TakeTrue, set_makerMap side (close_level px q1 m) b1, ts)
  end.

(** ** Sequences of calls on one book *)

Inductive Call :=
| CallPlaceLimit (now : Z) (userId side : string) (price qty : num)
| CallTakeAtPrice (now : Z) (userId side : string) (price maxQty : num)
| CallCancelAtPrice (userId side : string) (price : num)
| CallGetPosPublic (userId : string).

Definition call (c : Call) (b : OrderBook) : option OrderBook :=
  match c with
  | CallPlaceLimit now u s p q => '(_, b', _) ← placeLimit now u s p q b; Some b'
  | CallTakeAtPrice now u s p q => '(_, b', _) ← takeAtPrice now u s p q b; Some b'
  | CallCancelAtPrice u s p => Some (cancelAtPrice u s p b).2
  | CallGetPosPublic u => Some (getPosPublic u b).2
  end.

Fixpoint run (cs : list Call) (b : OrderBook) : option OrderBook :=
  match cs with
  | [] => Some b
  | c :: cs' => b' ← call c b; run cs' b'
  end.

(** ** The socket server: games, markets and the command handlers
       (server/index.js)

    Outbound messages are left out, except the [trade] broadcasts of a
    command, which are the trades the book hands to [onTrade]. Fan-out
    reads every viewer's position through [getPosPublic], which creates a
    missing ledger entry; the fan-outs that [onTradeHook] triggers during a
    match touch the same viewers as the one at the end of the handler and
    are covered by it. Strings are ASCII. *)

Module Stats.
Record t := mk { buyVol : num; buyNotional : num; sellVol : num; sellNotional : num }.
Definition zero : t := mk 0 0 0 0.
#[global] Instance stats_eq_dec : EqDecision t.
Proof. solve_decision. Defined.
End Stats.

Module Tape.
Record t := mk { ts : Z; symbol : string; price : num; qty : num }.
#[global] Instance tape_eq_dec : EqDecision t.
Proof. solve_decision. Defined.
End Tape.

Module Market.
Record t := mk {
  open : bool;
  settlement : option num;
  clickSizeDefault : num;
  userStats : gmap string Stats.t;
  tape : list Tape.t;
  book : OrderBook
}.
Definition set_open (o : bool) (m : t) : t :=
  mk o (settlement m) (clickSizeDefault m) (userStats m) (tape m) (book m).
Definition set_settlement (s : option num) (m : t) : t :=
  mk (open m) s (clickSizeDefault m) (userStats m) (tape m) (book m).
Definition set_userStats (us : gmap string Stats.t) (m : t) : t :=
  mk (open m) (settlement m) (clickSizeDefault m) us (tape m) (book m).
Definition set_tape (tp : list Tape.t) (m : t) : t :=
  mk (open m) (settlement m) (clickSizeDefault m) (userStats m) tp (book m).
Definition set_book (b : OrderBook) (m : t) : t :=
  mk (open m) (settlement m) (clickSizeDefault m) (userStats m) (tape m) b.
#[global] Instance market_eq_dec : EqDecision t.
Proof. solve_decision. Defined.
End Market.

Inductive Role := admin | player.

#[global] Instance Role_eq_dec : EqDecision Role.
Proof. solve_decision. Defined.

Module Game.
Record t := mk {
  markets : gmap string Market.t;
  usernames : gmap string string;
  roles : gmap string Role;
  events : list (Z * string);
  room : gset string          (* the sockets in room(code), kept by the transport:
                                 joined on create/join, left on disconnect *)
}.
Definition set_markets (ms : gmap string Market.t) (g : t) : t :=
  mk ms (usernames g) (roles g) (events g) (room g).
Definition set_usernames (us : gmap string string) (g : t) : t :=
  mk (markets g) us (roles g) (events g) (room g).
Definition set_roles (rs : gmap string Role) (g : t) : t :=
  mk (markets g) (usernames g) rs (events g) (room g).
Definition set_events (es : list (Z * string)) (g : t) : t :=
  mk (markets g) (usernames g) (roles g) es (room g).
Definition set_room (r : gset string) (g : t) : t :=
  mk (markets g) (usernames g) (roles g) (events g) r.
#[global] Instance game_eq_dec : EqDecision t.
Proof. solve_decision. Defined.
End Game.

(** [games] is the registry; [codes] holds [socket.data.code] of every
    socket that has one. *)
Record Server := mkServer {
  games : gmap string Game.t;
  codes : gmap string string
}.

#[global] Instance Server_eq_dec : EqDecision Server.
Proof. solve_decision. Defined.

Definition new_Server : Server := mkServer ∅ ∅.

Definition set_games (gs : gmap string Game.t) (s : Server) : Server :=
  mkServer gs (codes s).
Definition set_codes (cs : gmap string string) (s : Server) : Server :=
  mkServer (games s) cs.

Definition MAX_MARKETS : nat := 5.

Record MarketDef := mkDef {
  def_symbol : string;
  def_tickSize : option num;
  def_posLimit : option num
}.

(** [toUpperCase()] and [/^\d{4}$/.test(...)]. *)
Definition upper_ascii (c : Ascii.ascii) : Ascii.ascii :=
  let n := Ascii.nat_of_ascii c in
  if (97 <=? n)%nat && (n <=? 122)%nat then Ascii.ascii_of_nat (n - 32) else c.

Fixpoint toUpperCase (s : string) : string :=
  match s with
  | String.EmptyString => String.EmptyString
  | String.String c s' => String.String (upper_ascii c) (toUpperCase s')
  end.

Definition is_digit (c : Ascii.ascii) : bool :=
  let n := Ascii.nat_of_ascii c in (48 <=? n)%nat && (n <=? 57)%nat.

Definition four_digits (s : string) : bool :=
  (String.length s =? 4)%nat && forallb is_digit (String.list_ascii_of_string s).

(** [x || d] on strings: the empty string is falsy. *)
Definition or_string (x d : string) : string :=
  if bool_decide (x = "") then d else x.

Definition new_market (d : MarketDef) : string * Market.t :=
  let symbol := or_string (String.substring 0 16 (toUpperCase (def_symbol d))) "A" in
  (symbol,
   Market.mk true None 1 ∅ []
     (new_OrderBook symbol
        (default (Q2Qc (1 # 10)) (def_tickSize d))
        (default (num_of_Z 100) (def_posLimit d)))).

(** [g.markets.set(symbol, mk)] for one definition. *)
Definition add_market (ms : gmap string Market.t) (d : MarketDef) : gmap string Market.t :=
  let '(sym, mk) := new_market d in <[sym := mk]> ms.

Definition ensureGameAdminCreate (code : string) (defs : list MarketDef)
    (s : Server) : Game.t * Server :=
  match games s !! code with
  | Some g => (g, s)
  | None =>
    let g := Game.mk (foldl add_market ∅ (take MAX_MARKETS defs)) ∅ ∅ [] ∅ in
    (g, set_games (<[code := g]> (games s)) s)
  end.

(** [onTradeHook]: the tape of the market (last 1000) and the running
    totals of buyer and seller. *)
Definition upd_stats (uid side : string) (qty px : num)
    (us : gmap string Stats.t) : gmap string Stats.t :=
  let st := default Stats.zero (us !! uid) in
  <[uid :=
      if is_buy side
      then Stats.mk (Stats.buyVol st + qty) (Stats.buyNotional st + qty * px)
             (Stats.sellVol st) (Stats.sellNotional st)
      else Stats.mk (Stats.buyVol st) (Stats.buyNotional st)
             (Stats.sellVol st + qty) (Stats.sellNotional st + qty * px)]> us.

Definition onTradeHook (symbol : string) (t : Trade.t) (mk : Market.t) : Market.t :=
  let tp := Market.tape mk ++ [Tape.mk (Trade.ts t) symbol (Trade.price t) (Trade.qty t)] in
  let mk1 := Market.set_tape (if bool_decide (1000 < length tp)%nat then tail tp else tp) mk in
  let us1 := upd_stats (Trade.buyer t) "buy" (Trade.qty t) (Trade.price t)
               (Market.userStats mk1) in
  let us2 := upd_stats (Trade.seller t) "sell" (Trade.qty t) (Trade.price t) us1 in
  Market.set_userStats us2 mk1.

(** What [sendPersonalBundle] and [fanout] do to the state. *)
Definition sendPersonalBundle (sid : string) (g : Game.t) : Game.t :=
  Game.set_markets
    ((λ mk, Market.set_book (getPosPublic sid (Market.book mk)).2 mk) <$> Game.markets g) g.

Definition fanout (g : Game.t) : Game.t :=
  foldr sendPersonalBundle g (elements (Game.room g)).

Inductive Command :=
| admin_create_game (code adminPassword : string) (markets : list MarketDef)
| player_join (code name : string)
| admin_toggle_market (symbol : string) (open : bool)
| admin_toggle_all (open : bool)
| admin_settle (symbol : string) (price : num)
| admin_settle_all (priceMap : list (string * num))
| admin_add_event (text : string)
| place_order (symbol side : string) (price qty : num)
| cancel_at_price (symbol side : string) (price : num)
| click_trade (symbol side : string) (price maxQty : num)
| disconnect.

(** The game a socket addresses, [games.get(socket.data.code)]. *)
Definition game_of (sid : string) (s : Server) : option (string * Game.t) :=
  code ← codes s !! sid; g ← games s !! code; Some (code, g).

Definition put_game (code : string) (g : Game.t) (s : Server) : Server :=
  set_games (<[code := g]> (games s)) s.

Definition is_admin (sid : string) (g : Game.t) : bool :=
  bool_decide (Game.roles g !! sid = Some admin).

Definition settle_market (price : num) (mk : Market.t) : Market.t :=
  let px := snapToTick price (tickSize (Market.book mk)) in
  Market.set_open false (Market.set_settlement (Some px) mk).

(** One entry of the price map of [admin_settle_all]. *)
Definition settle_entry (ms : gmap string Market.t) (e : string * num)
  : gmap string Market.t :=
  match ms !! e.1 with
  | None => ms
  | Some mk => <[e.1 := settle_market e.2 mk]> ms
  end.

(** A book call of a trading handler: the market gets the new book and the
    effects of [onTradeHook] for the trades emitted. *)
Definition after_book (symbol : string) (b' : OrderBook) (ts : list Trade.t)
    (mk : Market.t) : Market.t :=
  foldl (λ mk t, onTradeHook symbol t mk) (Market.set_book b' mk) ts.

(** One inbound command of socket [sid], handled at time [now];
    [ADMIN_PASSWORD] is the configured secret. The result carries the
    trades broadcast while the command was handled. *)
Definition step (ADMIN_PASSWORD : string) (now : Z) (sid : string) (c : Command)
    (s : Server) : option (Server * list Trade.t) :=
  match c with
  | admin_create_game code adminPassword defs =>
    if bool_decide (adminPassword ≠ ADMIN_PASSWORD) then Some (s, [])
    else if negb (four_digits code) then Some (s, [])
    else
      let '(g, s1) := ensureGameAdminCreate code defs s in
      let g1 := Game.set_roles (<[sid := admin]> (Game.roles g)) g in
      let g2 := Game.set_usernames (<[sid := "Admin"]> (Game.usernames g1)) g1 in
      let g3 := Game.set_room ({[sid]} ∪ Game.room g2) g2 in
      let s2 := set_codes (<[sid := code]> (codes s1)) s1 in
      Some (put_game code (sendPersonalBundle sid g3) s2, [])
  | player_join code name =>
    match games s !! code with
    | None => Some (s, [])
    | Some g =>
      let display :=
        or_string (String.substring 0 24 name)
          (String.append "Player-" (String.substring 0 4 sid)) in
      let g1 := Game.set_roles (<[sid := player]> (Game.roles g)) g in
      let g2 := Game.set_usernames (<[sid := display]> (Game.usernames g1)) g1 in
      let g3 := Game.set_room ({[sid]} ∪ Game.room g2) g2 in
      let s1 := set_codes (<[sid := code]> (codes s)) s in
      Some (put_game code (sendPersonalBundle sid g3) s1, [])
    end
  | admin_toggle_market symbol open =>
    match game_of sid s with
    | None => Some (s, [])
    | Some (code, g) =>
      if negb (is_admin sid g) then Some (s, [])
      else match Game.markets g !! symbol with
           | None => Some (s, [])
           | Some mk =>
             let g1 := Game.set_markets
                         (<[symbol := Market.set_open open mk]> (Game.markets g)) g in
             Some (put_game code (fanout g1) s, [])
           end
    end
  | admin_toggle_all open =>
    match game_of sid s with
    | None => Some (s, [])
    | Some (code, g) =>
      if negb (is_admin sid g) then Some (s, [])
      else
        let g1 := Game.set_markets (Market.set_open open <$> Game.markets g) g in
        Some (put_game code (fanout g1) s, [])
    end
  | admin_settle symbol price =>
    match game_of sid s with
    | None => Some (s, [])
    | Some (code, g) =>
      if negb (is_admin sid g) then Some (s, [])
      else match Game.markets g !! symbol with
           | None => Some (s, [])
           | Some mk =>
             let g1 := Game.set_markets
                         (<[symbol := settle_market price mk]> (Game.markets g)) g in
             Some (put_game code (fanout g1) s, [])
           end
    end
  | admin_settle_all priceMap =>
    match game_of sid s with
    | None => Some (s, [])
    | Some (code, g) =>
      if negb (is_admin sid g) then Some (s, [])
      else
        let ms := foldl settle_entry (Game.markets g) priceMap in
        Some (put_game code (fanout (Game.set_markets ms g)) s, [])
    end
  | admin_add_event text =>
    match game_of sid s with
    | None => Some (s, [])
    | Some (code, g) =>
      if negb (is_admin sid g) then Some (s, [])
      else
        let es := Game.events g ++ [(now, String.substring 0 500 text)] in
        let es1 := if bool_decide (500 < length es)%nat then tail es else es in
        Some (put_game code (Game.set_events es1 g) s, [])
    end
  | place_order symbol side price qty =>
    match game_of sid s with
    | None => Some (s, [])
    | Some (code, g) =>
      match Game.markets g !! symbol with
      | None => Some (s, [])
      | Some mk =>
        if negb (Market.open mk) then Some (s, [])
        else if negb (is_buy side || is_sell side) then Some (s, [])
        else if negb (bool_decide (0 < price) && bool_decide (0 < qty)) then Some (s, [])
        else
          '(res, b', ts) ← placeLimit now sid side price qty (Market.book mk);
          let g1 := Game.set_markets
                      (<[symbol := after_book symbol b' ts mk]> (Game.markets g)) g in
          match res with
          | Rejected _ => Some (put_game code g1 s, ts)
          | Accepted _ => Some (put_game code (fanout g1) s, ts)
          end
      end
    end
  | cancel_at_price symbol side price =>
    match game_of sid s with
    | None => Some (s, [])
    | Some (code, g) =>
      match Game.markets g !! symbol with
      | None => Some (s, [])
      | Some mk =>
        let b' := (cancelAtPrice sid side price (Market.book mk)).2 in
        let g1 := Game.set_markets
                    (<[symbol := Market.set_book b' mk]> (Game.markets g)) g in
        Some (put_game code (fanout g1) s, [])
      end
    end
  | click_trade symbol side price maxQty =>
    match game_of sid s with
    | None => Some (s, [])
    | Some (code, g) =>
      match Game.markets g !! symbol with
      | None => Some (s, [])
      | Some mk =>
        if negb (Market.open mk) then Some (s, [])
        else
          '(_, b', ts) ← takeAtPrice now sid side price
                           (Math_max 1 (or_default maxQty 1)) (Market.book mk);
          let g1 := Game.set_markets
                      (<[symbol := after_book symbol b' ts mk]> (Game.markets g)) g in
          Some (put_game code (fanout g1) s, ts)
      end
    end
  | disconnect =>
    let gs :=
      match game_of sid s with
      | None => games s
      | Some (code, g) =>
        <[code := Game.set_roles (delete sid (Game.roles g))
                    (Game.set_usernames (delete sid (Game.usernames g)) g)]> (games s)
      end in
    Some (mkServer ((λ g, Game.set_room (Game.room g ∖ {[sid]}) g) <$> gs)
            (delete sid (codes s)), [])
  end.

(** A run of inbound commands, each with its time and socket. *)
Fixpoint run_server (ADMIN_PASSWORD : string) (cs : list (Z * string * Command))
    (s : Server) : option (Server * list Trade.t) :=
  match cs with
  | [] => Some (s, [])
  | (now, sid, c) :: cs' =>
    '(s1, ts1) ← step ADMIN_PASSWORD now sid c s;
    '(s2, ts2) ← run_server ADMIN_PASSWORD cs' s1;
    Some (s2, ts1 ++ ts2)
  end.

(** ** Mark prices

    [mid()] of the book (lines 57-63). *)
Definition mid (b : OrderBook) : option num :=
  match bestBid (bids b), bestAsk (asks b) with
  | Some bb, Some ba => Some ((bb + ba) / num_of_Z 2)
  | Some bb, None => Some bb
  | None, Some ba => Some ba
  | None, None => None
  end.

(** ** Snapshots

    [snapshotFor] (lines 65-76). The keys of a side map are distinct
    numbers, so sorting them with the comparator [b - a] (or [a - b]) gives
    the one arrangement in descending (ascending) order; [merge_sort]
    computes it. *)
Module Level.
Record t := mk { price : num; size : num; my : num }.
End Level.

Definition before (desc : bool) (a b : num) : Prop := if desc then b ≤ a else a ≤ b.

#[global] Instance before_dec desc : RelDecision (before desc).
Proof. intros a b. unfold before. destruct desc; apply _. Defined.

Definition level_of (userId : string) (map : levels) (p : num) : Level.t :=
  let orders := default [] (map !! p) in
  Level.mk p
    (foldl (λ s o, s + Order.leaves o) 0 orders)
    (foldl (λ s o, s + (if bool_decide (Order.userId o = userId)
                        then Order.leaves o else 0)) 0 orders).

Definition sideSnap (userId : string) (depth : nat) (map : levels) (desc : bool)
  : list Level.t :=
  let prices := take depth (merge_sort (before desc) (keys map)) in
  level_of userId map <$> prices.

Definition snapshotFor (userId : string) (depth : nat) (b : OrderBook)
  : string * list Level.t * list Level.t :=
  (symbol b, sideSnap userId depth (bids b) true, sideSnap userId depth (asks b) false).

(** * The operations in the arithmetic of the code

    The numbers of the code are binary64 doubles. Each of [+], [-], [*]
    and [/] yields the double nearest to the exact result; [Math.round],
    [Math.min], [Math.max], [Math.abs] and the comparisons are exact. A
    finite double is represented by its rational value and an arithmetic
    operation of the source by the exact operation followed by the
    rounding [fl]. Module [Fl] gives the operations of the book in this
    arithmetic, line by line as above; numeric literals of the source are
    rounded like any other number. [b64] is the rounding of binary64 on
    the finite range (53 significant bits, ties to the even mantissa,
    gradual underflow; overflow to an infinity is not represented). *)

(** The nearest integer, ties to the even one. *)
Definition round_half_even (x : Q) : Z :=
  let f := Qfloor x in
  match Qcompare (x - inject_Z f)%Q (1 # 2)%Q with
  | Lt => f
  | Gt => (f + 1)%Z
  | Eq => if Z.even f then f else (f + 1)%Z
  end.

(** [floor (log2 x)] of a positive rational. *)
Definition ilog2 (x : Q) : Z :=
  let e := (Z.log2 (Qnum x) - Z.log2 (Zpos (Qden x)))%Z in
  if Qle_bool (Qpower 2 e) x then e else (e - 1)%Z.

Definition b64 (x : num) : num :=
  if bool_decide (x = 0) then 0
  else
    let a := Qabs x in
    let ulp := Qpower 2 (Z.max (ilog2 a) (-1022) - 52) in
    let m := Q2Qc (inject_Z (round_half_even (a / ulp)) * ulp) in
    if bool_decide (x < 0) then - m else m.

Module Fl.
Section rounded.
Context (fl : num → num).

(** Lines 28-31. *)
Definition snapToTick (px tick : num) : num :=
  let t := Math_max (fl (Q2Qc (1 # 1000000))) (or_default tick (fl (Q2Qc (1 # 100)))) in
  fl (Math_round (fl (px / t)) * t).

(** Lines 83-87. *)
Definition _checkPosLimit (userId side : string) (incQty : num) (b : OrderBook)
  : bool * OrderBook :=
  let '(p, b1) := _pos userId b in
  let newQty :=
    if is_buy side then fl (Pos.qty p + incQty) else fl (Pos.qty p - incQty) in
  (bool_decide (Math_abs newQty ≤ posLimit b1), b1).

(** The quantity compared with the limit in line 86. *)
Definition projected (b : OrderBook) (u s : string) (q : num) : num :=
  let p := pos_of (positions b) u in
  if is_buy s then fl (Pos.qty p + q) else fl (Pos.qty p - q).

(** [x.qty += d], [x.qty -= d], [x.cash += d] and [x.cash -= d]. *)
Definition add_qty (d : num) (p : Pos.t) : Pos.t := Pos.mk (fl (Pos.qty p + d)) (Pos.cash p).
Definition sub_qty (d : num) (p : Pos.t) : Pos.t := Pos.mk (fl (Pos.qty p - d)) (Pos.cash p).
Definition add_cash (d : num) (p : Pos.t) : Pos.t := Pos.mk (Pos.qty p) (fl (Pos.cash p + d)).
Definition sub_cash (d : num) (p : Pos.t) : Pos.t := Pos.mk (Pos.qty p) (fl (Pos.cash p - d)).

(** Lines 119-128 and 183-192. *)
Definition settle_fill (now : Z) (side userId : string) (maker : Order.t)
    (tradePx tradeQty : num) (b : OrderBook) : Trade.t * OrderBook :=
  let buyer := if is_buy side then userId else Order.userId maker in
  let seller := if is_sell side then userId else Order.userId maker in
  let b1 := upd_pos buyer (add_qty tradeQty) b in
  let b2 := upd_pos buyer (sub_cash (fl (tradeQty * tradePx))) b1 in
  let b3 := upd_pos seller (sub_qty tradeQty) b2 in
  let b4 := upd_pos seller (add_cash (fl (tradeQty * tradePx))) b3 in
  let trade := Trade.mk now (symbol b4) tradePx tradeQty buyer seller in
  (trade, _recordTrade trade b4).

(** Lines 107-131. *)
Fixpoint match_level (fuel : nat) (now : Z) (px : num) (order : Order.t)
    (q : list Order.t) (b : OrderBook)
  : option (Order.t * list Order.t * OrderBook * list Trade.t) :=
  match q with
  | [] => Some (order, q, b, [])
  | maker :: rest =>
    if bool_decide (0 < Order.leaves order) then
      match fuel with
      | O => None
      | S fuel' =>
        let tradeQty := Math_min (Order.leaves order) (Order.leaves maker) in
        let '(ok, b1) :=
          _checkPosLimit (Order.userId order) (Order.side order) tradeQty b in
        if negb ok then Some (Order.set_leaves 0 order, q, b1, [])
        else
          let order1 := Order.set_leaves (fl (Order.leaves order - tradeQty)) order in
          let maker1 := Order.set_leaves (fl (Order.leaves maker - tradeQty)) maker in
          let '(trade, b2) :=
            settle_fill now (Order.side order) (Order.userId order) maker px tradeQty b1 in
          let q1 := if bool_decide (Order.leaves maker1 = 0) then rest else maker1 :: rest in
          '(o', q', b', ts) ← match_level fuel' now px order1 q1 b2;
          Some (o', q', b', trade :: ts)
      end
    else Some (order, q, b, [])
  end.

(** Lines 99-133. *)
Fixpoint match_loop (fuel : nat) (now : Z) (order : Order.t) (b : OrderBook)
  : option (Order.t * OrderBook * list Trade.t) :=
  let side := Order.side order in
  let m := makerMap side b in
  if bool_decide (0 < Order.leaves order) && bool_decide (0 < size m)%nat then
    match fuel with
    | O => None
    | S fuel' =>
      match best side m with
      | None => Some (order, b, [])
      | Some px =>
        if negb (crosses side (Order.price order) px) then Some (order, b, [])
        else
          q ← m !! px;
          '(order1, q1, b1, ts1) ← match_level (S (length q)) now px order q b;
          let b2 := set_makerMap side (close_level px q1 m) b1 in
          '(o', b', ts2) ← match_loop fuel' now order1 b2;
          Some (o', b', ts1 ++ ts2)
      end
    end
  else Some (order, b, []).

Definition _matchIncoming (now : Z) (order : Order.t) (b : OrderBook)
  : option (Order.t * OrderBook * list Trade.t) :=
  match_loop (S (size (makerMap (Order.side order) b))) now order b.

(** Lines 136-152. *)
Definition placeLimit (now : Z) (userId side : string) (price qty : num)
    (b : OrderBook) : option (PlaceResult * OrderBook * list Trade.t) :=
  let '(ok, b1) := _checkPosLimit userId side qty b in
  if negb ok then Some (Rejected "pos_limit", b1, [])
  else
    let id := orderIdSeq b1 in
    let b2 := set_orderIdSeq (id + 1) b1 in
    let order := Order.new id userId side (snapToTick price (tickSize b2)) qty now in
    '(order', b3, ts) ← _matchIncoming now order b2;
    let b4 :=
      if bool_decide (0 < Order.leaves order')
      then set_ownMap side (pushAtPrice (ownMap side b3) (Order.price order') order') b3
      else b3 in
    Some (Accepted id, b4, ts).

(** Lines 154-164. *)
Definition cancelAtPrice (userId side : string) (price : num) (b : OrderBook)
  : nat * OrderBook :=
  let map := ownMap side b in
  let px := snapToTick price (tickSize b) in
  match map !! px with
  | None => (0%nat, b)
  | Some q =>
    let before := length q in
    let filtered := filter (λ o, Order.userId o ≠ userId) q in
    let removed := (before - length filtered)%nat in
    let map1 :=
      if bool_decide (filtered ≠ []) then <[px := filtered]> map else delete px map in
    (removed, set_ownMap side map1 b)
  end.

(** Lines 174-195. *)
Fixpoint take_loop (fuel : nat) (now : Z) (userId side : string) (px : num)
    (remaining : num) (q : list Order.t) (b : OrderBook)
  : option (num * list Order.t * OrderBook * list Trade.t) :=
  match q with
  | [] => Some (remaining, q, b, [])
  | maker :: rest =>
    if bool_decide (0 < remaining) then
      match fuel with
      | O => None
      | S fuel' =>
        let tradeQty := Math_min remaining (Order.leaves maker) in
        let '(ok, b1) := _checkPosLimit userId side tradeQty b in
        if negb ok then Some (remaining, q, b1, [])
        else
          let maker1 := Order.set_leaves (fl (Order.leaves maker - tradeQty)) maker in
          let remaining1 := fl (remaining - tradeQty) in
          let '(trade, b2) := settle_fill now side userId maker px tradeQty b1 in
          let q1 := if bool_decide (Order.leaves maker1 = 0) then rest else maker1 :: rest in
          '(r', q', b', ts) ← take_loop fuel' now userId side px remaining1 q1 b2;
          Some (r', q', b', trade :: ts)
      end
    else Some (remaining, q, b, [])
  end.

(** Lines 166-198. *)
Definition takeAtPrice (now : Z) (userId side : string) (price maxQty : num)
    (b : OrderBook) : option (TakeResult * OrderBook * list Trade.t) :=
  let m := makerMap side b in
  let px := snapToTick price (tickSize b) in
  match m !! px with
  | None => Some (Take0, b, [])
  | Some q =>
    let remaining := Math_max 0 (or_default maxQty 0) in
    if bool_decide (remaining = 0) then Some (Take0, b, [])
    else
      '(_, q1, b1, ts) ← take_loop (S (length q)) now userId side px remaining q b;
      Some (TakeTrue, set_makerMap side (close_level px q1 m) b1, ts)
  end.

(** A call, with the trades it hands to [onTrade], and a sequence of
    calls, with all of them in order. *)
Definition call (c : Call) (b : OrderBook) : option (OrderBook * list Trade.t) :=
  match c with
  | CallPlaceLimit now u s p q => '(_, b', ts) ← placeLimit now u s p q b; Some (b', ts)
  | CallTakeAtPrice now u s p q => '(_, b', ts) ← takeAtPrice now u s p q b; Some (b', ts)
  | CallCancelAtPrice u s p => Some ((cancelAtPrice u s p b).2, [])
  | CallGetPosPublic u => Some ((getPosPublic u b).2, [])
  end.

Fixpoint run (cs : list Call) (b : OrderBook) : option (OrderBook * list Trade.t) :=
  match cs with
  | [] => Some (b, [])
  | c :: cs' =>
    '(b1, ts1) ← call c b;
    '(b2, ts2) ← run cs' b1;
    Some (b2, ts1 ++ ts2)
  end.

(** What the fill recorded as [t] does to the position of [u] (lines
    123-126): the buyer's two updates, then the seller's. *)
Definition book_fill (u : string) (p : Pos.t) (t : Trade.t) : Pos.t :=
  let c := fl (Trade.qty t * Trade.price t) in
  let p1 := if decide (Trade.buyer t = u) then sub_cash c (add_qty (Trade.qty t) p) else p in
  if decide (Trade.seller t = u) then add_cash c (sub_qty (Trade.qty t) p1) else p1.
End rounded.
End Fl.

(** * Predicates and scenarios of the properties *)

(** ** The ledger totals *)

Definition sum_of (f : Pos.t → num) (ps : ledger) : num :=
  map_fold (λ _ p acc, f p + acc) 0 ps.

Definition sum_qty (b : OrderBook) : num := sum_of Pos.qty (positions b).
Definition sum_cash (b : OrderBook) : num := sum_of Pos.cash (positions b).

(** Closed facts are decided by evaluation. *)
Ltac by_eval := apply (bool_decide_unpack _); vm_compute; exact I.

(** ** What a fill leaves alone *)

(** The ledger and the tape are the only parts of the book that the
    position check and a fill write to. *)
Definition same_frame (b b' : OrderBook) : Prop :=
  symbol b' = symbol b ∧ tickSize b' = tickSize b ∧ posLimit b' = posLimit b ∧
  bids b' = bids b ∧ asks b' = asks b ∧ orderIdSeq b' = orderIdSeq b.

(** The order that leaves the inner loop is the one that entered it, up
    to [leaves]. *)
Definition same_order (o o' : Order.t) : Prop :=
  o' = Order.set_leaves (Order.leaves o') o.

(** ** No empty level *)

Definition no_empty_level (m : levels) : Prop :=
  ∀ px q, m !! px = Some q → q ≠ [].

Definition no_empty_levels (b : OrderBook) : Prop :=
  no_empty_level (bids b) ∧ no_empty_level (asks b).

(** ** Rejected placements *)

(** The position a placement of [q] on side [s] would lead to, "in theory". *)
Definition projected (b : OrderBook) (u s : string) (q : num) : num :=
  let p := pos_of (positions b) u in
  if is_buy s then Pos.qty p + q else Pos.qty p - q.

(** A book with limit 5 and a first-time caller asking for 10. *)
Definition book_limit5 : OrderBook :=
  new_OrderBook "A" (Q2Qc (1 # 10)) (num_of_Z 5).

(** ** The mid-match truncation variant of the specification *)

(** posLimit 10; U2 is long 3 (bought from U1); the asks hold 20 @ 10.0,
    as two resting orders of 10 (a single order of 20 is itself beyond the
    limit of its seller). *)
Definition variant_calls : list Call :=
  [ CallPlaceLimit 1 "U1" "sell" (num_of_Z 10) (num_of_Z 3);
    CallPlaceLimit 2 "U2" "buy" (num_of_Z 10) (num_of_Z 3);
    CallPlaceLimit 3 "U3" "sell" (num_of_Z 10) (num_of_Z 10);
    CallPlaceLimit 4 "U4" "sell" (num_of_Z 10) (num_of_Z 10) ].

Definition book_variant : OrderBook :=
  mkBook "A" (Q2Qc (1 # 10)) (num_of_Z 10)
    ∅
    {[ num_of_Z 10 :=
         [ Order.mk 3 "U3" "sell" (num_of_Z 10) (num_of_Z 10) (num_of_Z 10) 3;
           Order.mk 4 "U4" "sell" (num_of_Z 10) (num_of_Z 10) (num_of_Z 10) 4 ] ]}
    5
    (<["U1" := Pos.mk (num_of_Z (-3)) (num_of_Z 30)]>
       (<["U2" := Pos.mk (num_of_Z 3) (num_of_Z (-30))]>
          (<["U3" := Pos.zero]> (<["U4" := Pos.zero]> ∅))))
    [ Trade.mk 2 "A" (num_of_Z 10) (num_of_Z 3) "U2" "U1" ].

(** ** Trade prices in placeLimit *)

(** Every order of a level carries the price the level is keyed by. *)
Definition levels_keyed (m : levels) : Prop :=
  ∀ k q o, m !! k = Some q → o ∈ q → Order.price o = k.

Definition book_keyed (b : OrderBook) : Prop :=
  levels_keyed (bids b) ∧ levels_keyed (asks b).

(** [t] is a fill of the taker [u] of side [s] against the resting order
    [maker]. *)
Definition fill_of (s u : string) (maker : Order.t) (t : Trade.t) : Prop :=
  Trade.buyer t = (if is_buy s then u else Order.userId maker) ∧
  Trade.seller t = (if is_sell s then u else Order.userId maker).

(** [t] is a fill against an order resting in [m0] at the price of [t]. *)
Definition fill_in (s u : string) (m0 : levels) (t : Trade.t) : Prop :=
  ∃ lvl maker, m0 !! Trade.price t = Some lvl ∧ maker ∈ lvl ∧ fill_of s u maker t.

(** One fill of a taker [u] of side [s], as the opposite map sees it: the
    trade [t] is priced at the best opposite price of [m], the map as it
    is when the fill happens; its maker is the first order of the level
    at that price and carries that price; and [m'] is [m] with that maker
    consumed: the order stays at the head with other leaves or, with none
    left, is dropped, and the level goes with its last order. *)
Definition fill_at_best (s u : string) (m : levels) (t : Trade.t) (m' : levels) : Prop :=
  best s m = Some (Trade.price t) ∧
  ∃ maker rest maker1,
    m !! Trade.price t = Some (maker :: rest) ∧
    Order.price maker = Trade.price t ∧
    fill_of s u maker t ∧
    same_order maker maker1 ∧
    m' = close_level (Trade.price t)
           (if bool_decide (Order.leaves maker1 = 0) then rest else maker1 :: rest) m.

(** The trades of a matching run, fill by fill, from the opposite map the
    run found to the one it leaves. *)
Inductive fills_at_best (s u : string) : levels → list Trade.t → levels → Prop :=
| fab_done m : fills_at_best s u m [] m
| fab_fill m t m1 ts m' :
    fill_at_best s u m t m1 →
    fills_at_best s u m1 ts m' →
    fills_at_best s u m (t :: ts) m'.

(** U1 rests a sell of 5 @ 10.0 and then buys 5 @ 10.0. *)
Definition book_self : OrderBook :=
  mkBook "A" (Q2Qc (1 # 10)) (num_of_Z 100)
    ∅
    {[ num_of_Z 10 :=
         [ Order.mk 1 "U1" "sell" (num_of_Z 10) (num_of_Z 5) (num_of_Z 5) 1 ] ]}
    2
    {[ "U1" := Pos.zero ]}
    [].

(** ** Market lifecycle and click-trades *)

(** The invariant of the specification: a settled market is closed. *)
Definition settled_closed (s : Server) : Prop :=
  ∀ code g symbol mk,
    games s !! code = Some g → Game.markets g !! symbol = Some mk →
    Market.settlement mk ≠ None → Market.open mk = false.

(** The commands by which an admin opens markets. *)
Definition opens (c : Command) : bool :=
  match c with
  | admin_toggle_market _ true | admin_toggle_all true => true
  | _ => false
  end.

(** The quantity executed by a list of trades. *)
Definition traded (ts : list Trade.t) : num :=
  foldr (λ t acc, Trade.qty t + acc) 0 ts.

(** Scenario: an admin creates game 1234 with one market A, then settles
    A at 10.0 and opens it again. *)
Definition settle_then_open : list (Z * string * Command) :=
  [ (1%Z, "adm", admin_create_game "1234" "secret" [mkDef "a" None None]);
    (2%Z, "adm", admin_settle "A" (num_of_Z 10));
    (3%Z, "adm", admin_toggle_market "A" true) ].

Definition market_A (s : Server) : option Market.t :=
  g ← games s !! "1234"; Game.markets g !! "A".

(** The invariant, market by market and game by game. *)
Definition market_ok (mk : Market.t) : Prop :=
  Market.settlement mk ≠ None → Market.open mk = false.

Definition game_ok (g : Game.t) : Prop :=
  map_Forall (λ _, market_ok) (Game.markets g).

(** Two markets with the same lifecycle fields. *)
Definition same_life (mk mk' : Market.t) : Prop :=
  Market.open mk' = Market.open mk ∧ Market.settlement mk' = Market.settlement mk.

(** The server after each of the first two commands of
    [settle_then_open]: the game is created, then market A is settled at
    10.0, which closes it. *)
Definition server_created : Server :=
  default new_Server
    (fst <$> step "secret" 1 "adm"
               (admin_create_game "1234" "secret" [mkDef "a" None None]) new_Server).

Definition server_settled : Server :=
  default new_Server
    (fst <$> step "secret" 2 "adm" (admin_settle "A" (num_of_Z 10)) server_created).

(** Scenario: in game 1234, p1 rests a sell of 3 @ 10.0 in market A and
    p2 clicks to buy at 10.0 with maxQty 2.5. *)
Definition resting_three : list (Z * string * Command) :=
  [ (1%Z, "adm", admin_create_game "1234" "secret" [mkDef "a" None None]);
    (2%Z, "p1", player_join "1234" "ann");
    (3%Z, "p2", player_join "1234" "bob");
    (4%Z, "p1", place_order "A" "sell" (num_of_Z 10) (num_of_Z 3)) ].

Definition server_resting : Server :=
  default new_Server (fst <$> run_server "secret" resting_three new_Server).

Definition click_half : Command :=
  click_trade "A" "buy" (num_of_Z 10) (Q2Qc (5 # 2)).

Definition server_clicked : Server :=
  default new_Server (fst <$> step "secret" 5 "p2" click_half server_resting).

Definition trade_half : Trade.t :=
  Trade.mk 5 "A" (num_of_Z 10) (Q2Qc (5 # 2)) "p2" "p1".

(** Views used by the scenarios: price and quantity of each trade, and
    for each level of a side map its price and what its orders have left. *)
Definition fills (ts : list Trade.t) : list (num * num) :=
  (λ t, (Trade.price t, Trade.qty t)) <$> ts.

Definition depth (m : levels) : list (num * list num) :=
  (λ kq : Qc * list Order.t, (kq.1, Order.leaves <$> kq.2)) <$> map_to_list m.

(** ** Further properties of the book *)

(** The tick [snapToTick] works with: [Math.max(0.000001, +tick || 0.01)]. *)
Definition tick_of (tick : num) : num :=
  Math_max (Q2Qc (1 # 1000000)) (or_default tick (Q2Qc (1 # 100))).

(** A resting order: something is left of it, not more than it asked for,
    and its id was handed out by the counter, now at [seq]. *)
Definition resting_ok (seq : Z) (o : Order.t) : Prop :=
  0 < Order.leaves o ∧ Order.leaves o ≤ Order.qty o ∧ (Order.id o < seq)%Z.

(** The levels of a side map: keys on the tick grid, orders as above. *)
Definition levels_ok (tick : num) (seq : Z) (m : levels) : Prop :=
  ∀ k q, m !! k = Some q → snapToTick k tick = k ∧ Forall (resting_ok seq) q.

Definition book_ok (b : OrderBook) : Prop :=
  levels_ok (tickSize b) (orderIdSeq b) (bids b) ∧
  levels_ok (tickSize b) (orderIdSeq b) (asks b) ∧
  (length (trades b) ≤ 1000)%nat.

(** The book is not crossed: every bid price is below every ask price. *)
Definition uncrossed (b : OrderBook) : Prop :=
  ∀ kb ka, is_Some (bids b !! kb) → is_Some (asks b !! ka) → kb < ka.

(** A call as the dispatcher lets it through: an order is placed on side
    'buy' or 'sell' only. *)
Definition sided (c : Call) : bool :=
  match c with
  | CallPlaceLimit _ _ s _ _ => is_buy s || is_sell s
  | _ => true
  end.

(** The keys of [m'] are keys of [m]. *)
Definition keys_within (m' m : levels) : Prop :=
  ∀ k, is_Some (m' !! k) → is_Some (m !! k).

(** An order without what is left of it: what identifies it in a queue. *)
Definition ident (o : Order.t) : Order.t := Order.set_leaves 0 o.

(** The user on the resting side of a trade of a taker of side [s]. *)
Definition maker_of (s : string) (t : Trade.t) : string :=
  if is_buy s then Trade.seller t else Trade.buyer t.

(** The queue at a price, empty when the level is absent. *)
Definition queue_at (m : levels) (k : num) : list Order.t := default [] (m !! k).

(** The last [n] elements of a list. *)
Definition lastn {A} (n : nat) (l : list A) : list A := drop (length l - n) l.

(** The signed quantity a user holds. *)
Definition held (b : OrderBook) (u : string) : num := Pos.qty (pos_of (positions b) u).

(** What the orders of a queue have left, and the total over a side map. *)
Definition sum_leaves (q : list Order.t) : num :=
  foldr (λ o acc, Order.leaves o + acc) 0 q.

Definition resting (m : levels) : num :=
  map_fold (λ _ q acc, sum_leaves q + acc) 0 m.

(** Every order in the map has something left. *)
Definition live (m : levels) : Prop :=
  ∀ k q, m !! k = Some q → Forall (λ o, 0 < Order.leaves o) q.

(** ** Markets of the server *)

(** [P] holds of every market of every game, each under its key. *)
Definition every_market (P : string → Market.t → Prop) (s : Server) : Prop :=
  ∀ code g sym mk,
    games s !! code = Some g → Game.markets g !! sym = Some mk → P sym mk.

Definition markets_all (P : string → Market.t → Prop) (g : Game.t) : Prop :=
  map_Forall P (Game.markets g).

Definition games_all (P : string → Market.t → Prop) (s : Server) : Prop :=
  map_Forall (λ _, markets_all P) (games s).

(** The book of the market is what a sequence of calls of the book's
    methods, with placements on side 'buy' or 'sell' only, makes of the
    empty book of that symbol. *)
Definition reached (sym : string) (mk : Market.t) : Prop :=
  ∃ tick limit cs,
    forallb sided cs = true ∧
    run cs (new_OrderBook sym tick limit) = Some (Market.book mk).

(** The entry that [onTradeHook] pushes on the tape of market [sym] for a
    trade of its book. *)
Definition to_tape (sym : string) (t : Trade.t) : Tape.t :=
  Tape.mk (Trade.ts t) sym (Trade.price t) (Trade.qty t).

(** The tape of the market is the trade log of its book. *)
Definition tape_mirrors (sym : string) (mk : Market.t) : Prop :=
  (length (trades (Market.book mk)) ≤ 1000)%nat ∧
  Market.tape mk = to_tape sym <$> trades (Market.book mk).

(** The cash a user is booked. *)
Definition paid (b : OrderBook) (u : string) : num := Pos.cash (pos_of (positions b) u).

(** A bid of 2 @ 9.0 below an ask of 3 @ 10.0. *)
Definition two_sided_calls : list Call :=
  [ CallPlaceLimit 1 "U1" "sell" (num_of_Z 10) (num_of_Z 3);
    CallPlaceLimit 2 "U2" "buy" (num_of_Z 9) (num_of_Z 2) ].

Definition book_two_sided : OrderBook :=
  mkBook "A" (Q2Qc (1 # 10)) (num_of_Z 100)
    {[ num_of_Z 9 := [ Order.mk 2 "U2" "buy" (num_of_Z 9) (num_of_Z 2) (num_of_Z 2) 2 ] ]}
    {[ num_of_Z 10 := [ Order.mk 1 "U1" "sell" (num_of_Z 10) (num_of_Z 3) (num_of_Z 3) 1 ] ]}
    3
    {[ "U1" := Pos.zero; "U2" := Pos.zero ]}
    [].

(** The key of a market is the symbol of its book, as [ensureGameAdminCreate]
    makes it: upper case, 1 to 16 characters. *)
Definition well_keyed (sym : string) (mk : Market.t) : Prop :=
  symbol (Market.book mk) = sym ∧ sym ≠ "" ∧
  (String.length sym ≤ 16)%nat ∧ toUpperCase sym = sym.

(** ** Games of the server *)

(** A display name as [player_join] and [admin_create_game] store it. *)
Definition name_ok (name : string) : Prop :=
  name ≠ "" ∧ (String.length name ≤ 24)%nat.

(** The shape of a game under its code. *)
Definition game_shape (code : string) (g : Game.t) : Prop :=
  four_digits code = true ∧
  (size (Game.markets g) ≤ MAX_MARKETS)%nat ∧
  (length (Game.events g) ≤ 500)%nat ∧
  Forall (λ e : Z * string, (String.length e.2 ≤ 500)%nat) (Game.events g) ∧
  map_Forall (λ _, name_ok) (Game.usernames g) ∧
  dom (Game.roles g) = dom (Game.usernames g).

(** Two games that differ in the contents of their markets only. *)
Definition same_shape (g g' : Game.t) : Prop :=
  size (Game.markets g') = size (Game.markets g) ∧
  Game.events g' = Game.events g ∧
  Game.usernames g' = Game.usernames g ∧
  Game.roles g' = Game.roles g.

(** ** What a command does to a market *)

(** The position view of [sendPersonalBundle] for one socket, and for a
    list of sockets (last first). *)
Definition view (u : string) (mk : Market.t) : Market.t :=
  Market.set_book (getPosPublic u (Market.book mk)).2 mk.

Definition views (us : list string) (mk : Market.t) : Market.t := foldr view mk us.

(** The commands that write the lifecycle fields, and the commands that
    trade in market [sym]. *)
Definition lifecycle (c : Command) : bool :=
  match c with
  | admin_toggle_market _ _ | admin_toggle_all _ | admin_settle _ _
  | admin_settle_all _ => true
  | _ => false
  end.

Definition trades_in (sym : string) (c : Command) : bool :=
  match c with
  | place_order symbol _ _ _ | click_trade symbol _ _ _ => bool_decide (symbol = sym)
  | _ => false
  end.

(** Nothing was traded or placed between [mk] and [mk']: same trade log,
    tape, totals, order counter and positions; on each side every queue of
    [mk'] is a sublist of the queue [mk] has at that price. *)
Definition quiet (mk mk' : Market.t) : Prop :=
  let b := Market.book mk in
  let b' := Market.book mk' in
  trades b' = trades b ∧ orderIdSeq b' = orderIdSeq b ∧
  Market.tape mk' = Market.tape mk ∧ Market.userStats mk' = Market.userStats mk ∧
  (∀ u, pos_of (positions b') u = pos_of (positions b) u) ∧
  (∀ k, sublist (queue_at (bids b') k) (queue_at (bids b) k)) ∧
  (∀ k, sublist (queue_at (asks b') k) (queue_at (asks b) k)).

(** What a line of a snapshot of side map [m] for user [u] shows: the total
    of a level of [m] and the part of it that is the user's. *)
Definition level_shows (u : string) (m : levels) (lv : Level.t) : Prop :=
  let q := queue_at m (Level.price lv) in
  is_Some (m !! Level.price lv) ∧
  Level.size lv = sum_leaves q ∧
  Level.my lv = sum_leaves (filter (λ o, Order.userId o = u) q) ∧
  0 < Level.size lv ∧ 0 ≤ Level.my lv ∧ Level.my lv ≤ Level.size lv.

(** The orders of a queue are in the order of their ids, which is the
    order in which they were accepted. *)
Definition by_arrival (q : list Order.t) : Prop :=
  StronglySorted Z.lt (Order.id <$> q).

Definition arrival_levels (m : levels) : Prop := ∀ k, by_arrival (queue_at m k).

Definition book_by_arrival (b : OrderBook) : Prop :=
  arrival_levels (bids b) ∧ arrival_levels (asks b).

(** ** The ledger in the arithmetic of the code *)

(** The position of [u] after the fills recorded as [ts], starting from
    [p], as the code books them: every update rounds the running total. *)
Definition booked (fl : num → num) (u : string) (p : Pos.t) (ts : list Trade.t) : Pos.t :=
  foldl (Fl.book_fill fl u) p ts.

(** What the same fills add up to for [u] when the running totals are not
    rounded: the quantities bought minus the quantities sold, and the
    amounts received minus the amounts paid, an amount being the rounded
    product [fl (qty * price)] that both parties of a fill are booked. *)
Definition owed (fl : num → num) (u : string) (ts : list Trade.t) : Pos.t :=
  foldr (λ t p,
    let c := fl (Trade.qty t * Trade.price t) in
    Pos.mk
      ((if decide (Trade.buyer t = u) then Trade.qty t else 0)
       - (if decide (Trade.seller t = u) then Trade.qty t else 0) + Pos.qty p)
      ((if decide (Trade.seller t = u) then c else 0)
       - (if decide (Trade.buyer t = u) then c else 0) + Pos.cash p))
    Pos.zero ts.

(** From [b] to [b'] the ledger has booked the fills [ts], and no more:
    every position is the booked one, no entry is lost, and the parties
    of the fills have entries. *)
Definition ledger_after (fl : num → num) (b : OrderBook) (ts : list Trade.t)
    (b' : OrderBook) : Prop :=
  (∀ u, pos_of (positions b') u = booked fl u (pos_of (positions b) u) ts) ∧
  (∀ u, is_Some (positions b !! u) → is_Some (positions b' !! u)) ∧
  Forall (λ t, is_Some (positions b' !! Trade.buyer t) ∧
               is_Some (positions b' !! Trade.seller t)) ts.

(** The sum over the users of a ledger of a number per user. *)
Definition sum_keys (g : string → num) (ps : ledger) : num :=
  map_fold (λ u _ acc, g u + acc) 0 ps.

(** The double nearest to a decimal literal. *)
Definition dbl (x : Q) : num := b64 (Q2Qc x).

(** Tick 0.1. A and B each rest a sell of 1, at 0.1 and at 0.2; U buys
    both. U pays 0.1 and then 0.2 and is booked -0.30000000000000004. *)
Definition rounding_calls : list Call :=
  [ CallPlaceLimit 1 "A" "sell" (dbl (1 # 10)) (num_of_Z 1);
    CallPlaceLimit 2 "U" "buy" (dbl (1 # 10)) (num_of_Z 1);
    CallPlaceLimit 3 "B" "sell" (dbl (2 # 10)) (num_of_Z 1);
    CallPlaceLimit 4 "U" "buy" (dbl (2 # 10)) (num_of_Z 1) ].

(** Prices that are whole numbers: the same trades at 10 and at 20. *)
Definition whole_calls : list Call :=
  [ CallPlaceLimit 1 "A" "sell" (num_of_Z 10) (num_of_Z 1);
    CallPlaceLimit 2 "U" "buy" (num_of_Z 10) (num_of_Z 1);
    CallPlaceLimit 3 "B" "sell" (num_of_Z 20) (num_of_Z 1);
    CallPlaceLimit 4 "U" "buy" (num_of_Z 20) (num_of_Z 1) ].

(** Tick 0.1, limit 100. U1 has sold 1 @ 0.1 to U2, so holds -1 and 0.1 in
    cash, and rests a sell of 1 @ 0.4. *)
Definition self_calls : list Call :=
  [ CallPlaceLimit 1 "U2" "buy" (dbl (1 # 10)) (num_of_Z 1);
    CallPlaceLimit 2 "U1" "sell" (dbl (1 # 10)) (num_of_Z 1);
    CallPlaceLimit 3 "U1" "sell" (dbl (4 # 10)) (num_of_Z 1) ].

Definition book_self_rounded : OrderBook :=
  mkBook "A" (dbl (1 # 10)) (num_of_Z 100)
    ∅
    {[ dbl (4 # 10) :=
         [ Order.mk 3 "U1" "sell" (dbl (4 # 10)) (num_of_Z 1) (num_of_Z 1) 3 ] ]}
    4
    (<["U2" := Pos.mk (num_of_Z 1) (- dbl (1 # 10))]>
       (<["U1" := Pos.mk (num_of_Z (-1)) (dbl (1 # 10))]> ∅))
    [ Trade.mk 2 "A" (dbl (1 # 10)) (num_of_Z 1) "U2" "U1" ].

(** * Properties of the book and of the server *)

(** ** The ledger *)

Section ledger.
Implicit Types (ps : gmap string Pos.t) (u : string) (p : Pos.t) (f : Pos.t → Qc).

Lemma sum_of_empty f : sum_of f ∅ = 0.
Proof. unfold sum_of. by rewrite map_fold_empty. Qed.

Lemma sum_of_insert_fresh f ps u p :
  ps !! u = None → sum_of f (<[u := p]> ps) = f p + sum_of f ps.
Proof.
  intros Hu. unfold sum_of.
  rewrite map_fold_insert_L; [done | | done].
  intros. ring.
Qed.

Lemma sum_of_delete f ps u p :
  ps !! u = Some p → sum_of f ps = f p + sum_of f (delete u ps).
Proof.
  intros Hu. unfold sum_of.
  rewrite (map_fold_delete_L _ _ u p ps); [done | | done].
  intros. ring.
Qed.

Lemma sum_of_insert f ps u p :
  f Pos.zero = 0 →
  sum_of f (<[u := p]> ps) = sum_of f ps - f (pos_of ps u) + f p.
Proof.
  intros Hz. unfold pos_of. destruct (ps !! u) as [old|] eqn:Hu; simpl.
  - rewrite <-insert_delete_eq.
    rewrite sum_of_insert_fresh by apply lookup_delete_eq.
    rewrite (sum_of_delete f ps u old) by done. ring.
  - rewrite sum_of_insert_fresh by done. rewrite Hz. ring.
Qed.

Lemma pos_of_touch ps u v : pos_of (touch u ps) v = pos_of ps v.
Proof.
  unfold touch, pos_of. case_bool_decide as Hs; [done|].
  destruct (decide (u = v)) as [->|Hne].
  - rewrite lookup_insert_eq. apply eq_None_not_Some in Hs. by rewrite Hs.
  - by rewrite lookup_insert_ne.
Qed.

Lemma sum_of_touch f ps u : f Pos.zero = 0 → sum_of f (touch u ps) = sum_of f ps.
Proof.
  intros Hz. unfold touch. case_bool_decide as Hs; [done|].
  apply eq_None_not_Some in Hs.
  rewrite sum_of_insert_fresh by done. rewrite Hz. ring.
Qed.

Lemma touch_is_Some ps u : is_Some (touch u ps !! u).
Proof.
  unfold touch. case_bool_decide as Hs; [done|].
  rewrite lookup_insert_eq. by eexists.
Qed.

Lemma touch_idemp ps u : touch u (touch u ps) = touch u ps.
Proof.
  unfold touch at 1. rewrite bool_decide_eq_true_2; [done | apply touch_is_Some].
Qed.

Lemma touch_present ps u : is_Some (ps !! u) → touch u ps = ps.
Proof. intros Hs. unfold touch. by rewrite bool_decide_eq_true_2. Qed.

Lemma touch_lookup_ne ps u v : u ≠ v → touch u ps !! v = ps !! v.
Proof.
  intros Hne. unfold touch. case_bool_decide; [done|]. by rewrite lookup_insert_ne.
Qed.
End ledger.

Section book_ledger.
Implicit Types (b : OrderBook) (u : string).

Lemma positions_upd_pos u g b :
  positions (upd_pos u g b) = <[u := g (pos_of (positions b) u)]> (touch u (positions b)).
Proof. unfold upd_pos, _pos. simpl. by rewrite pos_of_touch. Qed.

Lemma sum_of_upd_pos f u g b :
  f Pos.zero = 0 →
  sum_of f (positions (upd_pos u g b))
  = sum_of f (positions b) - f (pos_of (positions b) u) + f (g (pos_of (positions b) u)).
Proof.
  intros Hz. rewrite positions_upd_pos, sum_of_insert by done.
  by rewrite sum_of_touch, pos_of_touch.
Qed.

Lemma pos_of_upd_pos u g b v :
  pos_of (positions (upd_pos u g b)) v
  = if decide (u = v) then g (pos_of (positions b) u) else pos_of (positions b) v.
Proof.
  rewrite positions_upd_pos. unfold pos_of at 1.
  rewrite lookup_insert. case_decide; [done|].
  fold (pos_of (touch u (positions b)) v). apply pos_of_touch.
Qed.

Lemma positions_recordTrade t b : positions (_recordTrade t b) = positions b.
Proof. done. Qed.

Lemma sum_qty_checkPosLimit u s q b : sum_qty (_checkPosLimit u s q b).2 = sum_qty b.
Proof. unfold sum_qty, _checkPosLimit, _pos. simpl. by apply sum_of_touch. Qed.

Lemma sum_cash_checkPosLimit u s q b : sum_cash (_checkPosLimit u s q b).2 = sum_cash b.
Proof. unfold sum_cash, _checkPosLimit, _pos. simpl. by apply sum_of_touch. Qed.

(** One fill moves [tradeQty] units and [tradeQty * tradePx] of cash from
    one ledger entry to another (or to the same one): the totals stay. *)
Lemma sum_qty_settle_fill now s u maker px tq b :
  sum_qty (settle_fill now s u maker px tq b).2 = sum_qty b.
Proof.
  unfold sum_qty, settle_fill. cbv zeta. cbn [snd].
  rewrite positions_recordTrade, !sum_of_upd_pos by done.
  rewrite !pos_of_upd_pos. repeat case_decide; simpl; ring.
Qed.

Lemma sum_cash_settle_fill now s u maker px tq b :
  sum_cash (settle_fill now s u maker px tq b).2 = sum_cash b.
Proof.
  unfold sum_cash, settle_fill. cbv zeta. cbn [snd].
  rewrite positions_recordTrade, !sum_of_upd_pos by done.
  rewrite !pos_of_upd_pos. repeat case_decide; simpl; ring.
Qed.
End book_ledger.

(** ** Facts about numbers *)

Lemma Math_min_cases (a b : Qc) : Math_min a b = a ∨ Math_min a b = b.
Proof. unfold Math_min. case_bool_decide; auto. Qed.

Lemma Math_min_le_l (a b : Qc) : Math_min a b ≤ a.
Proof.
  unfold Math_min. case_bool_decide; [by apply Qclt_le_weak | apply Qcle_refl].
Qed.

Lemma Math_min_le_r (a b : Qc) : Math_min a b ≤ b.
Proof.
  unfold Math_min. case_bool_decide; [apply Qcle_refl | by apply Qcnot_lt_le].
Qed.

Lemma Qc_lt_irrefl (a : Qc) : ¬ a < a.
Proof. intros H. by apply Qclt_not_eq in H. Qed.

Lemma Qc_sub_diag (a : Qc) : a - a = 0.
Proof. ring. Qed.

Lemma Qc_sub_nonneg (a c : Qc) : c ≤ a → 0 ≤ a - c.
Proof. intros H. apply Qcle_minus_iff in H. exact H. Qed.

(** After a fill of [Math_min l m] against a maker with [m] left, either the
    maker is exhausted or the taker is. *)
Lemma fill_exhausts (l m : Qc) :
  m - Math_min l m ≠ 0 → l - Math_min l m = 0.
Proof.
  intros Hm. destruct (Math_min_cases l m) as [E | E]; rewrite E in *.
  - apply Qc_sub_diag.
  - destruct Hm. apply Qc_sub_diag.
Qed.

(** ** The loops, by cases *)

#[global] Arguments _checkPosLimit : simpl never.
#[global] Arguments settle_fill : simpl never.
#[global] Arguments snapToTick : simpl never.

Section match_level_cases.
Context (now : Z) (px : Qc).
Context (R : Order.t → list Order.t → OrderBook →
             Order.t → list Order.t → OrderBook → list Trade.t → Prop).

Hypothesis R_exit : ∀ o q b,
  q = [] ∨ ¬ 0 < Order.leaves o → R o q b o q b [].
Hypothesis R_breach : ∀ o maker rest b b1,
  0 < Order.leaves o →
  _checkPosLimit (Order.userId o) (Order.side o)
    (Math_min (Order.leaves o) (Order.leaves maker)) b = (false, b1) →
  R o (maker :: rest) b (Order.set_leaves 0 o) (maker :: rest) b1 [].
Hypothesis R_fill : ∀ o maker rest b b1 trade b2 o' q' b' ts,
  let tradeQty := Math_min (Order.leaves o) (Order.leaves maker) in
  let maker1 := Order.set_leaves (Order.leaves maker - tradeQty) maker in
  0 < Order.leaves o →
  _checkPosLimit (Order.userId o) (Order.side o) tradeQty b = (true, b1) →
  settle_fill now (Order.side o) (Order.userId o) maker px tradeQty b1 = (trade, b2) →
  R (Order.set_leaves (Order.leaves o - tradeQty) o)
    (if bool_decide (Order.leaves maker1 = 0) then rest else maker1 :: rest)
    b2 o' q' b' ts →
  R o (maker :: rest) b o' q' b' (trade :: ts).

Lemma match_level_cases fuel o q b o' q' b' ts :
  match_level fuel now px o q b = Some (o', q', b', ts) → R o q b o' q' b' ts.
Proof.
  revert o q b o' q' b' ts.
  induction fuel as [|fuel IH]; intros o q b o' q' b' ts Hrun.
  - destruct q as [|maker rest]; cbn in Hrun.
    + simplify_eq. apply R_exit. by left.
    + case_bool_decide; [done|]. simplify_eq. apply R_exit. by right.
  - destruct q as [|maker rest]; cbn in Hrun.
    + simplify_eq. apply R_exit. by left.
    + case_bool_decide as Hl; [|simplify_eq; apply R_exit; by right].
      destruct (_checkPosLimit _ _ _ b) as [[] b1] eqn:Hchk; cbn in Hrun;
        [|simplify_eq; by apply R_breach].
      destruct (settle_fill _ _ _ _ _ _ b1) as [trade b2] eqn:Hfill.
      destruct (match_level fuel _ _ _ _ b2) as [[[[o1 q1] b3] ts1]|] eqn:Hrec;
        cbn in Hrun; [|done].
      simplify_eq. eapply R_fill; eauto.
Qed.
End match_level_cases.

Section take_loop_cases.
Context (now : Z) (userId side : string) (px : Qc).
Context (R : Qc → list Order.t → OrderBook →
             Qc → list Order.t → OrderBook → list Trade.t → Prop).

Hypothesis R_exit : ∀ r q b, q = [] ∨ ¬ 0 < r → R r q b r q b [].
Hypothesis R_breach : ∀ r maker rest b b1,
  0 < r →
  _checkPosLimit userId side (Math_min r (Order.leaves maker)) b = (false, b1) →
  R r (maker :: rest) b r (maker :: rest) b1 [].
Hypothesis R_fill : ∀ r maker rest b b1 trade b2 r' q' b' ts,
  let tradeQty := Math_min r (Order.leaves maker) in
  let maker1 := Order.set_leaves (Order.leaves maker - tradeQty) maker in
  0 < r →
  _checkPosLimit userId side tradeQty b = (true, b1) →
  settle_fill now side userId maker px tradeQty b1 = (trade, b2) →
  R (r - tradeQty)
    (if bool_decide (Order.leaves maker1 = 0) then rest else maker1 :: rest)
    b2 r' q' b' ts →
  R r (maker :: rest) b r' q' b' (trade :: ts).

Lemma take_loop_cases fuel r q b r' q' b' ts :
  take_loop fuel now userId side px r q b = Some (r', q', b', ts) →
  R r q b r' q' b' ts.
Proof.
  revert r q b r' q' b' ts.
  induction fuel as [|fuel IH]; intros r q b r' q' b' ts Hrun.
  - destruct q as [|maker rest]; cbn in Hrun.
    + simplify_eq. apply R_exit. by left.
    + case_bool_decide; [done|]. simplify_eq. apply R_exit. by right.
  - destruct q as [|maker rest]; cbn in Hrun.
    + simplify_eq. apply R_exit. by left.
    + case_bool_decide as Hl; [|simplify_eq; apply R_exit; by right].
      destruct (_checkPosLimit _ _ _ b) as [[] b1] eqn:Hchk; cbn in Hrun;
        [|simplify_eq; by apply R_breach].
      destruct (settle_fill _ _ _ _ _ _ b1) as [trade b2] eqn:Hfill.
      destruct (take_loop fuel _ _ _ _ _ _ b2) as [[[[r1 q1] b3] ts1]|] eqn:Hrec;
        cbn in Hrun; [|done].
      simplify_eq. eapply R_fill; eauto.
Qed.
End take_loop_cases.

(** ** The loops return *)

Lemma match_level_total fuel now px o q b :
  (length q < fuel)%nat ∨ ¬ 0 < Order.leaves o →
  is_Some (match_level fuel now px o q b).
Proof.
  revert o q b. induction fuel as [|fuel IH]; intros o q b Hfuel.
  - destruct q as [|maker rest]; cbn; [by eexists|].
    case_bool_decide; [|by eexists].
    destruct Hfuel as [Hlen|Hl]; [cbn in Hlen; lia | done].
  - destruct q as [|maker rest]; cbn; [by eexists|].
    case_bool_decide as Hl; [|by eexists].
    destruct (_checkPosLimit _ _ _ b) as [[] b1]; cbn; [|by eexists].
    destruct (settle_fill _ _ _ _ _ _ b1) as [trade b2].
    match goal with |- is_Some (match_level fuel now px ?o1 ?q1 b2 ≫= _) =>
      destruct (IH o1 q1 b2) as [[[[o' q'] b'] ts] ->]; [|by eexists] end.
    case_bool_decide as Hm.
    + left. destruct Hfuel as [Hlen|]; [cbn in Hlen; lia | done].
    + right. cbn in *. rewrite (fill_exhausts _ _ Hm). apply Qc_lt_irrefl.
Qed.

Lemma take_loop_total fuel now u s px r q b :
  (length q < fuel)%nat ∨ ¬ 0 < r →
  is_Some (take_loop fuel now u s px r q b).
Proof.
  revert r q b. induction fuel as [|fuel IH]; intros r q b Hfuel.
  - destruct q as [|maker rest]; cbn; [by eexists|].
    case_bool_decide; [|by eexists].
    destruct Hfuel as [Hlen|Hl]; [cbn in Hlen; lia | done].
  - destruct q as [|maker rest]; cbn; [by eexists|].
    case_bool_decide as Hl; [|by eexists].
    destruct (_checkPosLimit _ _ _ b) as [[] b1]; cbn; [|by eexists].
    destruct (settle_fill _ _ _ _ _ _ b1) as [trade b2].
    match goal with |- is_Some (take_loop fuel now u s px ?r1 ?q1 b2 ≫= _) =>
      destruct (IH r1 q1 b2) as [[[[r' q'] b'] ts] ->]; [|by eexists] end.
    case_bool_decide as Hm.
    + left. destruct Hfuel as [Hlen|]; [cbn in Hlen; lia | done].
    + right. cbn in *. rewrite (fill_exhausts _ _ Hm). apply Qc_lt_irrefl.
Qed.

#[global] Arguments match_level : simpl never.
#[global] Arguments take_loop : simpl never.

(** ** What a fill leaves alone *)

Lemma same_frame_refl b : same_frame b b.
Proof. by repeat split. Qed.

Lemma same_frame_trans b1 b2 b3 : same_frame b1 b2 → same_frame b2 b3 → same_frame b1 b3.
Proof.
  intros (?&?&?&?&?&?) (?&?&?&?&?&?). repeat split; congruence.
Qed.

Lemma same_frame_makerMap s b b' : same_frame b b' → makerMap s b' = makerMap s b.
Proof. intros (?&?&?&?&?&?). unfold makerMap. by destruct (is_buy s). Qed.

Lemma same_frame_ownMap s b b' : same_frame b b' → ownMap s b' = ownMap s b.
Proof. intros (?&?&?&?&?&?). unfold ownMap. by destruct (is_buy s). Qed.

Lemma checkPosLimit_frame u s q b : same_frame b (_checkPosLimit u s q b).2.
Proof. by repeat split. Qed.

Lemma checkPosLimit_trades u s q b : trades (_checkPosLimit u s q b).2 = trades b.
Proof. done. Qed.

Lemma checkPosLimit_positions u s q b :
  positions (_checkPosLimit u s q b).2 = touch u (positions b).
Proof. done. Qed.

Lemma settle_fill_frame now s u maker px tq b :
  same_frame b (settle_fill now s u maker px tq b).2.
Proof. by repeat split. Qed.

Lemma settle_fill_trade now s u maker px tq b :
  (settle_fill now s u maker px tq b).1
  = Trade.mk now (symbol b) px tq
      (if is_buy s then u else Order.userId maker)
      (if is_sell s then u else Order.userId maker).
Proof. done. Qed.

Lemma match_level_frame fuel now px o q b o' q' b' ts :
  match_level fuel now px o q b = Some (o', q', b', ts) → same_frame b b'.
Proof.
  apply (match_level_cases now px (λ _ _ b _ _ b' _, same_frame b b')); clear.
  - intros. apply same_frame_refl.
  - intros o maker rest b b1 _ Hchk.
    pose proof (checkPosLimit_frame (Order.userId o) (Order.side o)
      (Math_min (Order.leaves o) (Order.leaves maker)) b) as H.
    by rewrite Hchk in H.
  - intros o maker rest b b1 trade b2 o' q' b' ts tq maker1 _ Hchk Hfill Hrec.
    pose proof (checkPosLimit_frame (Order.userId o) (Order.side o) tq b) as H1.
    pose proof (settle_fill_frame now (Order.side o) (Order.userId o) maker px tq b1) as H2.
    rewrite Hchk in H1. rewrite Hfill in H2.
    eauto using same_frame_trans.
Qed.

Lemma take_loop_frame fuel now u s px r q b r' q' b' ts :
  take_loop fuel now u s px r q b = Some (r', q', b', ts) → same_frame b b'.
Proof.
  apply (take_loop_cases now u s px (λ _ _ b _ _ b' _, same_frame b b')); clear.
  - intros. apply same_frame_refl.
  - intros r maker rest b b1 _ Hchk.
    pose proof (checkPosLimit_frame u s (Math_min r (Order.leaves maker)) b) as H.
    by rewrite Hchk in H.
  - intros r maker rest b b1 trade b2 r' q' b' ts tq maker1 _ Hchk Hfill Hrec.
    pose proof (checkPosLimit_frame u s tq b) as H1.
    pose proof (settle_fill_frame now s u maker px tq b1) as H2.
    rewrite Hchk in H1. rewrite Hfill in H2.
    eauto using same_frame_trans.
Qed.

Lemma same_order_refl o : same_order o o.
Proof. by destruct o. Qed.

Lemma same_order_set_leaves l o o' :
  same_order (Order.set_leaves l o) o' → same_order o o'.
Proof. unfold same_order. intros ->. by destruct o. Qed.

Lemma same_order_side o o' : same_order o o' → Order.side o' = Order.side o.
Proof. by intros ->. Qed.

Lemma same_order_userId o o' : same_order o o' → Order.userId o' = Order.userId o.
Proof. by intros ->. Qed.

Lemma same_order_price o o' : same_order o o' → Order.price o' = Order.price o.
Proof. by intros ->. Qed.

Lemma match_level_order fuel now px o q b o' q' b' ts :
  match_level fuel now px o q b = Some (o', q', b', ts) → same_order o o'.
Proof.
  apply (match_level_cases now px (λ o _ _ o' _ _ _, same_order o o')); clear.
  - intros. apply same_order_refl.
  - intros. by destruct o.
  - intros. by eapply same_order_set_leaves.
Qed.

(** The loops stop for a reason. *)
Lemma match_level_exit fuel now px o q b o' q' b' ts :
  match_level fuel now px o q b = Some (o', q', b', ts) →
  q' = [] ∨ ¬ 0 < Order.leaves o'.
Proof.
  apply (match_level_cases now px
    (λ _ _ _ o' q' _ _, q' = [] ∨ ¬ 0 < Order.leaves o')); clear.
  - auto.
  - intros. right. cbn. apply Qc_lt_irrefl.
  - auto.
Qed.

(** All trades of one run of the inner loop are at the price of the level. *)
Lemma match_level_prices fuel now px o q b o' q' b' ts :
  match_level fuel now px o q b = Some (o', q', b', ts) →
  Forall (λ t, Trade.price t = px) ts.
Proof.
  apply (match_level_cases now px
    (λ _ _ _ _ _ _ ts, Forall (λ t, Trade.price t = px) ts)); clear.
  - intros. constructor.
  - intros. constructor.
  - intros o maker rest b b1 trade b2 o' q' b' ts tq maker1 _ _ Hfill Hrec.
    constructor; [|done].
    pose proof (settle_fill_trade now (Order.side o) (Order.userId o) maker px tq b1) as H.
    rewrite Hfill in H. cbn in H. by rewrite H.
Qed.

Lemma take_loop_prices fuel now u s px r q b r' q' b' ts :
  take_loop fuel now u s px r q b = Some (r', q', b', ts) →
  Forall (λ t, Trade.price t = px) ts.
Proof.
  apply (take_loop_cases now u s px
    (λ _ _ _ _ _ _ ts, Forall (λ t, Trade.price t = px) ts)); clear.
  - intros. constructor.
  - intros. constructor.
  - intros r maker rest b b1 trade b2 r' q' b' ts tq maker1 _ _ Hfill Hrec.
    constructor; [|done].
    pose proof (settle_fill_trade now s u maker px tq b1) as H.
    rewrite Hfill in H. cbn in H. by rewrite H.
Qed.

(** The ledger totals across the loops. *)
Lemma match_level_sums fuel now px o q b o' q' b' ts :
  match_level fuel now px o q b = Some (o', q', b', ts) →
  sum_qty b' = sum_qty b ∧ sum_cash b' = sum_cash b.
Proof.
  apply (match_level_cases now px
    (λ _ _ b _ _ b' _, sum_qty b' = sum_qty b ∧ sum_cash b' = sum_cash b)); clear.
  - done.
  - intros o maker rest b b1 _ Hchk.
    rewrite <-(sum_qty_checkPosLimit (Order.userId o) (Order.side o)
      (Math_min (Order.leaves o) (Order.leaves maker)) b).
    rewrite <-(sum_cash_checkPosLimit (Order.userId o) (Order.side o)
      (Math_min (Order.leaves o) (Order.leaves maker)) b).
    by rewrite Hchk.
  - intros o maker rest b b1 trade b2 o' q' b' ts tq maker1 _ Hchk Hfill [-> ->].
    rewrite <-(sum_qty_checkPosLimit (Order.userId o) (Order.side o) tq b).
    rewrite <-(sum_cash_checkPosLimit (Order.userId o) (Order.side o) tq b).
    rewrite Hchk. cbn [snd].
    rewrite <-(sum_qty_settle_fill now (Order.side o) (Order.userId o) maker px tq b1).
    rewrite <-(sum_cash_settle_fill now (Order.side o) (Order.userId o) maker px tq b1).
    by rewrite Hfill.
Qed.

Lemma take_loop_sums fuel now u s px r q b r' q' b' ts :
  take_loop fuel now u s px r q b = Some (r', q', b', ts) →
  sum_qty b' = sum_qty b ∧ sum_cash b' = sum_cash b.
Proof.
  apply (take_loop_cases now u s px
    (λ _ _ b _ _ b' _, sum_qty b' = sum_qty b ∧ sum_cash b' = sum_cash b)); clear.
  - done.
  - intros r maker rest b b1 _ Hchk.
    rewrite <-(sum_qty_checkPosLimit u s (Math_min r (Order.leaves maker)) b).
    rewrite <-(sum_cash_checkPosLimit u s (Math_min r (Order.leaves maker)) b).
    by rewrite Hchk.
  - intros r maker rest b b1 trade b2 r' q' b' ts tq maker1 _ Hchk Hfill [-> ->].
    rewrite <-(sum_qty_checkPosLimit u s tq b).
    rewrite <-(sum_cash_checkPosLimit u s tq b).
    rewrite Hchk. cbn [snd].
    rewrite <-(sum_qty_settle_fill now s u maker px tq b1).
    rewrite <-(sum_cash_settle_fill now s u maker px tq b1).
    by rewrite Hfill.
Qed.

(** ** Best prices *)

Lemma max_of_elem ks k : max_of ks = Some k → k ∈ ks.
Proof.
  revert k. induction ks as [|k0 ks IH]; intros k; cbn; [done|].
  fold (max_of ks). destruct (max_of ks) as [a|]; cbn; intros [= <-].
  - unfold Math_max. case_bool_decide; [right; by apply IH | left].
  - left.
Qed.

Lemma min_of_elem ks k : min_of ks = Some k → k ∈ ks.
Proof.
  revert k. induction ks as [|k0 ks IH]; intros k; cbn; [done|].
  fold (min_of ks). destruct (min_of ks) as [a|]; cbn; intros [= <-].
  - unfold Math_min. case_bool_decide; [right; by apply IH | left].
  - left.
Qed.

Lemma max_of_upper ks k : max_of ks = Some k → ∀ k', k' ∈ ks → k' ≤ k.
Proof.
  revert k. induction ks as [|k0 ks IH]; intros k; cbn; [done|].
  fold (max_of ks). destruct (max_of ks) as [a|] eqn:Ha; cbn; intros [= <-] k' Hk'.
  - unfold Math_max. apply elem_of_cons in Hk' as [-> | Hk'].
    + case_bool_decide; [by apply Qclt_le_weak | apply Qcle_refl].
    + specialize (IH a eq_refl k' Hk').
      case_bool_decide as Hlt; [done|].
      apply Qcnot_lt_le in Hlt. by eapply Qcle_trans.
  - destruct ks; [|done]. apply list_elem_of_singleton in Hk' as ->. apply Qcle_refl.
Qed.

Lemma min_of_lower ks k : min_of ks = Some k → ∀ k', k' ∈ ks → k ≤ k'.
Proof.
  revert k. induction ks as [|k0 ks IH]; intros k; cbn; [done|].
  fold (min_of ks). destruct (min_of ks) as [a|] eqn:Ha; cbn; intros [= <-] k' Hk'.
  - unfold Math_min. apply elem_of_cons in Hk' as [-> | Hk'].
    + case_bool_decide; [by apply Qclt_le_weak | apply Qcle_refl].
    + specialize (IH a eq_refl k' Hk').
      case_bool_decide as Hlt; [done|].
      apply Qcnot_lt_le in Hlt. by eapply Qcle_trans.
  - destruct ks; [|done]. apply list_elem_of_singleton in Hk' as ->. apply Qcle_refl.
Qed.

Lemma elem_of_keys (m : gmap Qc (list Order.t)) k : k ∈ keys m ↔ is_Some (m !! k).
Proof.
  unfold keys. rewrite list_elem_of_fmap. split.
  - intros [[k' q] [-> Hin]]. apply elem_of_map_to_list in Hin. by eexists.
  - intros [q Hq]. exists (k, q). split; [done|]. by apply elem_of_map_to_list.
Qed.

Lemma best_Some_lookup side (m : gmap Qc (list Order.t)) px :
  best side m = Some px → is_Some (m !! px).
Proof.
  unfold best, bestAsk, bestBid. intros H. apply elem_of_keys.
  destruct (is_buy side); case_bool_decide; try done.
  - by apply min_of_elem.
  - by apply max_of_elem.
Qed.

Lemma best_None side (m : gmap Qc (list Order.t)) : best side m = None → m = ∅.
Proof.
  unfold best, bestAsk, bestBid. intros H.
  assert (size m = 0%nat ∨ keys m = []) as [Hz | Hk].
  { destruct (is_buy side); case_bool_decide; auto; right.
    - destruct (keys m); [done | by cbn in H].
    - destruct (keys m); [done | by cbn in H]. }
  - by apply map_size_empty_iff.
  - unfold keys in Hk. apply fmap_nil_inv in Hk. by apply map_to_list_empty_iff.
Qed.

(** The best ask is the lowest key and the best bid the highest. *)
Lemma bestAsk_lowest (m : gmap Qc (list Order.t)) px k :
  bestAsk m = Some px → is_Some (m !! k) → px ≤ k.
Proof.
  unfold bestAsk. case_bool_decide; [done|]. intros Hmin Hk.
  eapply min_of_lower; [done|]. by apply elem_of_keys.
Qed.

Lemma bestBid_highest (m : gmap Qc (list Order.t)) px k :
  bestBid m = Some px → is_Some (m !! k) → k ≤ px.
Proof.
  unfold bestBid. case_bool_decide; [done|]. intros Hmax Hk.
  eapply max_of_upper; [done|]. by apply elem_of_keys.
Qed.

(** ** The outer loop, by cases *)

Section match_loop_cases.
Context (now : Z).
Context (R : Order.t → OrderBook → Order.t → OrderBook → list Trade.t → Prop).

Hypothesis R_stop : ∀ o b, R o b o b [].
Hypothesis R_level : ∀ o b px q o1 q1 b1 ts1 o' b' ts2,
  let side := Order.side o in
  let m := makerMap side b in
  0 < Order.leaves o →
  best side m = Some px →
  crosses side (Order.price o) px = true →
  m !! px = Some q →
  match_level (S (length q)) now px o q b = Some (o1, q1, b1, ts1) →
  R o1 (set_makerMap side (close_level px q1 m) b1) o' b' ts2 →
  R o b o' b' (ts1 ++ ts2).

Lemma match_loop_cases fuel o b o' b' ts :
  match_loop fuel now o b = Some (o', b', ts) → R o b o' b' ts.
Proof.
  revert o b o' b' ts.
  induction fuel as [|fuel IH]; intros o b o' b' ts Hrun; cbn in Hrun.
  - destruct (bool_decide (0 < Order.leaves o) && _); [done|].
    simplify_eq. apply R_stop.
  - destruct (bool_decide (0 < Order.leaves o)) eqn:Hl; cbn in Hrun;
      [|simplify_eq; apply R_stop].
    apply bool_decide_eq_true in Hl.
    case_bool_decide; cbn in Hrun; [|simplify_eq; apply R_stop].
    destruct (best _ _) as [px|] eqn:Hbest; [|simplify_eq; apply R_stop].
    destruct (crosses _ _ _) eqn:Hcross; cbn in Hrun; [|simplify_eq; apply R_stop].
    destruct (makerMap _ _ !! px) as [q|] eqn:Hq; cbn in Hrun; [|done].
    destruct (match_level _ _ _ _ _ _) as [[[[o1 q1] b1] ts1]|] eqn:Hlvl;
      cbn in Hrun; [|done].
    destruct (match_loop fuel _ _ _) as [[[o2 b2] ts2]|] eqn:Hrec; cbn in Hrun; [|done].
    simplify_eq. eapply R_level; eauto.
Qed.
End match_loop_cases.

(** ** Side maps *)

Lemma makerMap_set_makerMap s m b : makerMap s (set_makerMap s m b) = m.
Proof. unfold makerMap, set_makerMap. by destruct (is_buy s). Qed.

Lemma ownMap_set_makerMap s m b : ownMap s (set_makerMap s m b) = ownMap s b.
Proof. unfold ownMap, set_makerMap. by destruct (is_buy s). Qed.

Lemma ownMap_set_ownMap s m b : ownMap s (set_ownMap s m b) = m.
Proof. unfold ownMap, set_ownMap. by destruct (is_buy s). Qed.

Lemma makerMap_set_ownMap s m b : makerMap s (set_ownMap s m b) = makerMap s b.
Proof. unfold makerMap, set_ownMap. by destruct (is_buy s). Qed.

Lemma positions_set_makerMap s m b : positions (set_makerMap s m b) = positions b.
Proof. unfold set_makerMap. by destruct (is_buy s). Qed.

Lemma positions_set_ownMap s m b : positions (set_ownMap s m b) = positions b.
Proof. unfold set_ownMap. by destruct (is_buy s). Qed.

Lemma trades_set_makerMap s m b : trades (set_makerMap s m b) = trades b.
Proof. unfold set_makerMap. by destruct (is_buy s). Qed.

Lemma trades_set_ownMap s m b : trades (set_ownMap s m b) = trades b.
Proof. unfold set_ownMap. by destruct (is_buy s). Qed.

Lemma close_level_lookup_ne px q (m : gmap Qc (list Order.t)) k :
  k ≠ px → close_level px q m !! k = m !! k.
Proof.
  intros Hne. unfold close_level.
  case_bool_decide; [by rewrite lookup_delete_ne | by rewrite lookup_insert_ne].
Qed.

Lemma close_level_lookup_eq px q (m : gmap Qc (list Order.t)) :
  close_level px q m !! px = if bool_decide (q = []) then None else Some q.
Proof.
  unfold close_level.
  case_bool_decide; [by rewrite lookup_delete_eq | by rewrite lookup_insert_eq].
Qed.

(** ** The operations return *)

Lemma match_loop_total fuel now o b :
  (size (makerMap (Order.side o) b) < fuel)%nat ∨ ¬ 0 < Order.leaves o →
  is_Some (match_loop fuel now o b).
Proof.
  revert o b. induction fuel as [|fuel IH]; intros o b Hfuel; cbn.
  - destruct (bool_decide (0 < Order.leaves o)) eqn:Hl; cbn; [|by eexists].
    apply bool_decide_eq_true in Hl.
    case_bool_decide; cbn; [|by eexists].
    destruct Hfuel; [lia | done].
  - destruct (bool_decide (0 < Order.leaves o)) eqn:Hl; cbn; [|by eexists].
    apply bool_decide_eq_true in Hl.
    case_bool_decide; cbn; [|by eexists].
    destruct (best _ _) as [px|] eqn:Hbest; [|by eexists].
    destruct (crosses _ _ _); cbn; [|by eexists].
    destruct (best_Some_lookup _ _ _ Hbest) as [q Hq]. rewrite Hq. cbn.
    destruct (match_level_total (S (length q)) now px o q b) as [[[[o1 q1] b1] ts1] Hlvl];
      [left; lia|].
    rewrite Hlvl. cbn.
    pose proof (same_order_side _ _ (match_level_order _ _ _ _ _ _ _ _ _ _ Hlvl)) as Hs.
    match goal with |- is_Some (match_loop fuel now o1 ?b2 ≫= _) =>
      destruct (IH o1 b2) as [[[o2 b3] ts2] ->]; [|by eexists] end.
    rewrite Hs, makerMap_set_makerMap.
    destruct (match_level_exit _ _ _ _ _ _ _ _ _ _ Hlvl) as [-> | Hl1]; [left | by right].
    unfold close_level. rewrite bool_decide_eq_true_2 by done.
    rewrite map_size_delete_Some by by eexists.
    destruct Hfuel; [lia | done].
Qed.

#[global] Arguments match_loop : simpl never.
#[global] Arguments _matchIncoming : simpl never.

Lemma matchIncoming_total now o b : is_Some (_matchIncoming now o b).
Proof. apply match_loop_total. left. lia. Qed.

Lemma placeLimit_total now u s p q b : is_Some (placeLimit now u s p q b).
Proof.
  unfold placeLimit.
  destruct (_checkPosLimit u s q b) as [[] b1]; cbn; [|by eexists].
  match goal with |- is_Some (_matchIncoming now ?o ?b2 ≫= _) =>
    destruct (matchIncoming_total now o b2) as [[[o' b3] ts] ->] end.
  by eexists.
Qed.

Lemma takeAtPrice_total now u s p mq b : is_Some (takeAtPrice now u s p mq b).
Proof.
  unfold takeAtPrice.
  destruct (makerMap s b !! _) as [q|]; [|by eexists].
  case_bool_decide; [by eexists|].
  match goal with |- is_Some (take_loop ?f now u s ?px ?r q b ≫= _) =>
    destruct (take_loop_total f now u s px r q b) as [[[[r' q'] b'] ts] ->];
      [left; lia|] end.
  by eexists.
Qed.

Lemma call_total c b : is_Some (call c b).
Proof.
  destruct c as [now u s p q | now u s p q | u s p | u]; cbn.
  - destruct (placeLimit_total now u s p q b) as [[[r b'] ts] ->]. by eexists.
  - destruct (takeAtPrice_total now u s p q b) as [[[r b'] ts] ->]. by eexists.
  - by eexists.
  - by eexists.
Qed.

Lemma run_total cs b : is_Some (run cs b).
Proof.
  revert b. induction cs as [|c cs IH]; intros b; cbn; [by eexists|].
  destruct (call_total c b) as [b' ->]. cbn. apply IH.
Qed.

(** ** The ledger totals are kept by every operation *)

Lemma sum_qty_set_makerMap s m b : sum_qty (set_makerMap s m b) = sum_qty b.
Proof. unfold sum_qty. by rewrite positions_set_makerMap. Qed.

Lemma sum_cash_set_makerMap s m b : sum_cash (set_makerMap s m b) = sum_cash b.
Proof. unfold sum_cash. by rewrite positions_set_makerMap. Qed.

Lemma sum_qty_set_ownMap s m b : sum_qty (set_ownMap s m b) = sum_qty b.
Proof. unfold sum_qty. by rewrite positions_set_ownMap. Qed.

Lemma sum_cash_set_ownMap s m b : sum_cash (set_ownMap s m b) = sum_cash b.
Proof. unfold sum_cash. by rewrite positions_set_ownMap. Qed.

Lemma sum_qty_set_orderIdSeq n b : sum_qty (set_orderIdSeq n b) = sum_qty b.
Proof. done. Qed.

Lemma sum_cash_set_orderIdSeq n b : sum_cash (set_orderIdSeq n b) = sum_cash b.
Proof. done. Qed.

Lemma match_loop_sums fuel now o b o' b' ts :
  match_loop fuel now o b = Some (o', b', ts) →
  sum_qty b' = sum_qty b ∧ sum_cash b' = sum_cash b.
Proof.
  apply (match_loop_cases now
    (λ _ b _ b' _, sum_qty b' = sum_qty b ∧ sum_cash b' = sum_cash b)); clear.
  - done.
  - intros o b px q o1 q1 b1 ts1 o' b' ts2 side m _ _ _ _ Hlvl [-> ->].
    rewrite sum_qty_set_makerMap, sum_cash_set_makerMap.
    by eapply match_level_sums.
Qed.

Lemma placeLimit_sums now u s p q b r b' ts :
  placeLimit now u s p q b = Some (r, b', ts) →
  sum_qty b' = sum_qty b ∧ sum_cash b' = sum_cash b.
Proof.
  unfold placeLimit.
  pose proof (sum_qty_checkPosLimit u s q b) as Hq.
  pose proof (sum_cash_checkPosLimit u s q b) as Hc.
  destruct (_checkPosLimit u s q b) as [[] b1]; cbn in *; [|by intros [= <- <- <-]].
  destruct (_matchIncoming _ _ _) as [[[o' b3] ts3]|] eqn:Hm; cbn; [|done].
  apply match_loop_sums in Hm as [Hq3 Hc3].
  rewrite sum_qty_set_orderIdSeq in Hq3. rewrite sum_cash_set_orderIdSeq in Hc3.
  intros [= <- <- <-].
  case_bool_decide; rewrite ?sum_qty_set_ownMap, ?sum_cash_set_ownMap; split; congruence.
Qed.

Lemma takeAtPrice_sums now u s p mq b r b' ts :
  takeAtPrice now u s p mq b = Some (r, b', ts) →
  sum_qty b' = sum_qty b ∧ sum_cash b' = sum_cash b.
Proof.
  unfold takeAtPrice.
  destruct (makerMap s b !! _) as [q|]; [|by intros [= <- <- <-]].
  case_bool_decide; [by intros [= <- <- <-]|].
  destruct (take_loop _ _ _ _ _ _ _ _) as [[[[r1 q1] b1] ts1]|] eqn:Hl; cbn; [|done].
  intros [= <- <- <-].
  rewrite sum_qty_set_makerMap, sum_cash_set_makerMap.
  by eapply take_loop_sums.
Qed.

Lemma cancelAtPrice_positions u s p b : positions (cancelAtPrice u s p b).2 = positions b.
Proof.
  unfold cancelAtPrice. destruct (ownMap s b !! _); [|done].
  cbn. by rewrite positions_set_ownMap.
Qed.

Lemma call_sums c b b' :
  call c b = Some b' → sum_qty b' = sum_qty b ∧ sum_cash b' = sum_cash b.
Proof.
  destruct c as [now u s p q | now u s p q | u s p | u]; cbn.
  - destruct (placeLimit _ _ _ _ _ _) as [[[r b1] ts]|] eqn:H; cbn; [|done].
    intros [= <-]. by eapply placeLimit_sums.
  - destruct (takeAtPrice _ _ _ _ _ _) as [[[r b1] ts]|] eqn:H; cbn; [|done].
    intros [= <-]. by eapply takeAtPrice_sums.
  - intros [= <-]. unfold sum_qty, sum_cash. by rewrite cancelAtPrice_positions.
  - intros [= <-]. unfold sum_qty, sum_cash. cbn. by rewrite !sum_of_touch.
Qed.

Lemma run_sums cs b b' :
  run cs b = Some b' → sum_qty b' = sum_qty b ∧ sum_cash b' = sum_cash b.
Proof.
  revert b. induction cs as [|c cs IH]; intros b; cbn; [by intros [= <-]|].
  destruct (call c b) as [b1|] eqn:Hc; cbn; [|done].
  intros Hr. apply IH in Hr as [-> ->]. by eapply call_sums.
Qed.

(** With exact numbers, as the operations above have them, nothing is
    rounded: in a book that starts empty, after every sequence of calls
    the quantities of all positions sum to 0 and so do their cash
    amounts. The arithmetic of the code is taken up in the last part. *)
Lemma sums_to_zero_exact (sym : string) (tick limit : Qc) (cs : list Call) :
  ∃ b, run cs (new_OrderBook sym tick limit) = Some b ∧
       sum_qty b = 0 ∧ sum_cash b = 0.
Proof.
  destruct (run_total cs (new_OrderBook sym tick limit)) as [b Hrun].
  exists b. split; [done|].
  apply run_sums in Hrun as [-> ->].
  unfold sum_qty, sum_cash. cbn. by rewrite !sum_of_empty.
Qed.

(** ** No empty level *)

Lemma no_empty_level_empty : no_empty_level ∅.
Proof. intros px q. by rewrite lookup_empty. Qed.

Lemma no_empty_level_insert (m : gmap Qc (list Order.t)) px q :
  q ≠ [] → no_empty_level m → no_empty_level (<[px := q]> m).
Proof.
  intros Hq Hm k q'. rewrite lookup_insert. case_decide; [by intros [= <-] | apply Hm].
Qed.

Lemma no_empty_level_delete (m : gmap Qc (list Order.t)) px :
  no_empty_level m → no_empty_level (delete px m).
Proof.
  intros Hm k q'. rewrite lookup_delete. case_decide; [done | apply Hm].
Qed.

Lemma no_empty_level_close px q (m : gmap Qc (list Order.t)) :
  no_empty_level m → no_empty_level (close_level px q m).
Proof.
  intros Hm. unfold close_level. case_bool_decide.
  - by apply no_empty_level_delete.
  - by apply no_empty_level_insert.
Qed.

Lemma no_empty_level_push (m : gmap Qc (list Order.t)) px o :
  no_empty_level m → no_empty_level (pushAtPrice m px o).
Proof.
  intros Hm k q'. unfold pushAtPrice. rewrite lookup_insert. case_decide as Hk.
  - intros [= <-]. by destruct (default [] _).
  - case_bool_decide; [apply Hm|]. rewrite lookup_insert_ne by done. apply Hm.
Qed.

Lemma no_empty_levels_frame b b' :
  same_frame b b' → no_empty_levels b → no_empty_levels b'.
Proof. intros (_&_&_&Hb&Ha&_) [??]. unfold no_empty_levels. by rewrite Hb, Ha. Qed.

Lemma no_empty_levels_makerMap s b : no_empty_levels b → no_empty_level (makerMap s b).
Proof. intros [??]. unfold makerMap. by destruct (is_buy s). Qed.

Lemma no_empty_levels_ownMap s b : no_empty_levels b → no_empty_level (ownMap s b).
Proof. intros [??]. unfold ownMap. by destruct (is_buy s). Qed.

Lemma no_empty_levels_set_makerMap s m b :
  no_empty_level m → no_empty_levels b → no_empty_levels (set_makerMap s m b).
Proof. intros ? [??]. unfold set_makerMap. by destruct (is_buy s). Qed.

Lemma no_empty_levels_set_ownMap s m b :
  no_empty_level m → no_empty_levels b → no_empty_levels (set_ownMap s m b).
Proof. intros ? [??]. unfold set_ownMap. by destruct (is_buy s). Qed.

Lemma match_loop_no_empty fuel now o b o' b' ts :
  match_loop fuel now o b = Some (o', b', ts) →
  no_empty_levels b → no_empty_levels b'.
Proof.
  apply (match_loop_cases now (λ _ b _ b' _, no_empty_levels b → no_empty_levels b')); clear.
  - done.
  - intros o b px q o1 q1 b1 ts1 o' b' ts2 side m _ _ _ _ Hlvl IH Hb.
    apply IH, no_empty_levels_set_makerMap.
    + by apply no_empty_level_close, no_empty_levels_makerMap.
    + eapply no_empty_levels_frame; [|done]. by eapply match_level_frame.
Qed.

Lemma placeLimit_no_empty now u s p q b r b' ts :
  placeLimit now u s p q b = Some (r, b', ts) →
  no_empty_levels b → no_empty_levels b'.
Proof.
  unfold placeLimit. intros Hrun Hb.
  pose proof (checkPosLimit_frame u s q b) as Hf.
  destruct (_checkPosLimit u s q b) as [[] b1]; cbn in *;
    [|simplify_eq; by eapply no_empty_levels_frame].
  destruct (_matchIncoming _ _ _) as [[[o' b3] ts3]|] eqn:Hm; cbn in Hrun; [|done].
  apply match_loop_no_empty in Hm;
    [|destruct (no_empty_levels_frame b b1 Hf Hb); by split].
  simplify_eq. case_bool_decide; [|done].
  apply no_empty_levels_set_ownMap; [|done].
  by apply no_empty_level_push, no_empty_levels_ownMap.
Qed.

Lemma takeAtPrice_no_empty now u s p mq b r b' ts :
  takeAtPrice now u s p mq b = Some (r, b', ts) →
  no_empty_levels b → no_empty_levels b'.
Proof.
  unfold takeAtPrice. intros Hrun Hb.
  destruct (makerMap s b !! _) as [q|]; [|by simplify_eq].
  case_bool_decide; [by simplify_eq|].
  destruct (take_loop _ _ _ _ _ _ _ _) as [[[[r1 q1] b1] ts1]|] eqn:Hl; cbn in Hrun; [|done].
  simplify_eq. apply no_empty_levels_set_makerMap.
  - by apply no_empty_level_close, no_empty_levels_makerMap.
  - eapply no_empty_levels_frame; [|done]. by eapply take_loop_frame.
Qed.

Lemma cancelAtPrice_no_empty u s p b :
  no_empty_levels b → no_empty_levels (cancelAtPrice u s p b).2.
Proof.
  intros Hb. unfold cancelAtPrice.
  destruct (ownMap s b !! _) as [q|]; [|done]. cbn.
  apply no_empty_levels_set_ownMap; [|done].
  case_bool_decide.
  - by apply no_empty_level_insert, no_empty_levels_ownMap.
  - by apply no_empty_level_delete, no_empty_levels_ownMap.
Qed.

Lemma call_no_empty c b b' : call c b = Some b' → no_empty_levels b → no_empty_levels b'.
Proof.
  destruct c as [now u s p q | now u s p q | u s p | u]; cbn.
  - destruct (placeLimit _ _ _ _ _ _) as [[[r b1] ts]|] eqn:H; cbn; [|done].
    intros [= <-]. by eapply placeLimit_no_empty.
  - destruct (takeAtPrice _ _ _ _ _ _) as [[[r b1] ts]|] eqn:H; cbn; [|done].
    intros [= <-]. by eapply takeAtPrice_no_empty.
  - intros [= <-]. by apply cancelAtPrice_no_empty.
  - by intros [= <-].
Qed.

Lemma run_no_empty cs b b' : run cs b = Some b' → no_empty_levels b → no_empty_levels b'.
Proof.
  revert b. induction cs as [|c cs IH]; intros b; cbn; [by intros [= <-]|].
  destruct (call c b) as [b1|] eqn:Hc; cbn; [|done].
  intros Hr Hb. eapply IH; [done|]. by eapply call_no_empty.
Qed.

(** C9. After every operation (placeLimit, takeAtPrice, cancelAtPrice) on a
    book that started empty, neither side map holds an empty level: every
    price key maps to a non-empty queue, the key of a level being deleted
    when its last order leaves. *)
Theorem C9_no_empty_level (sym : string) (tick limit : Qc) (cs : list Call) :
  ∃ b, run cs (new_OrderBook sym tick limit) = Some b ∧
       (∀ px q, bids b !! px = Some q → q ≠ []) ∧
       (∀ px q, asks b !! px = Some q → q ≠ []).
Proof.
  destruct (run_total cs (new_OrderBook sym tick limit)) as [b Hrun].
  exists b. split; [done|].
  apply (run_no_empty _ _ _ Hrun). split; apply no_empty_level_empty.
Qed.

(** ** takeAtPrice works on one level *)

Lemma set_makerMap_lookups s m b k :
  (∀ k', k' ≠ k → m !! k' = makerMap s b !! k') →
  ∀ k', k' ≠ k →
    bids (set_makerMap s m b) !! k' = bids b !! k' ∧
    asks (set_makerMap s m b) !! k' = asks b !! k'.
Proof.
  unfold set_makerMap, makerMap. intros Hm k' Hne.
  destruct (is_buy s); cbn; split; auto.
Qed.


(** ** Cancellation *)

Lemma set_ownMap_id s b : set_ownMap s (ownMap s b) b = b.
Proof. unfold set_ownMap, ownMap. destruct b. by destruct (is_buy s). Qed.

Lemma set_ownMap_twice s m m' b : set_ownMap s m (set_ownMap s m' b) = set_ownMap s m b.
Proof. unfold set_ownMap. by destruct (is_buy s). Qed.

Lemma tickSize_set_ownMap s m b : tickSize (set_ownMap s m b) = tickSize b.
Proof. unfold set_ownMap. by destruct (is_buy s). Qed.

Lemma length_filter_split (u : string) (q : list Order.t) :
  (length q - length (filter (λ o, Order.userId o ≠ u) q))%nat
  = length (filter (λ o, Order.userId o = u) q).
Proof.
  assert (length q = length (filter (λ o, Order.userId o ≠ u) q)
                     + length (filter (λ o, Order.userId o = u) q))%nat as ->; [|lia].
  induction q as [|o q IH]; [done|].
  rewrite !filter_cons. destruct (decide (Order.userId o = u)).
  - rewrite decide_False by naive_solver. cbn. lia.
  - rewrite decide_True by done. cbn. lia.
Qed.

Lemma filter_twice (u : string) (q : list Order.t) :
  filter (λ o, Order.userId o ≠ u) (filter (λ o, Order.userId o ≠ u) q)
  = filter (λ o, Order.userId o ≠ u) q.
Proof.
  induction q as [|o q IH]; [done|].
  rewrite filter_cons. case_decide; [|done].
  rewrite filter_cons, decide_True by done. by rewrite IH.
Qed.

(** A second cancellation at the same price finds nothing to remove. *)
Lemma cancelAtPrice_again u s p b :
  cancelAtPrice u s p (cancelAtPrice u s p b).2 = (0%nat, (cancelAtPrice u s p b).2).
Proof.
  unfold cancelAtPrice at 2 3.
  destruct (ownMap s b !! snapToTick p (tickSize b)) as [q|] eqn:Hq; cbn.
  - unfold cancelAtPrice. rewrite tickSize_set_ownMap, ownMap_set_ownMap.
    case_bool_decide as Hf.
    + rewrite lookup_insert_eq, filter_twice, Nat.sub_diag.
      rewrite bool_decide_eq_true_2 by done.
      by rewrite insert_insert_eq, set_ownMap_twice.
    + by rewrite lookup_delete_eq.
  - unfold cancelAtPrice. by rewrite Hq.
Qed.


(** ** Rejected placements *)

Lemma checkPosLimit_eq u s q b :
  _checkPosLimit u s q b
  = (bool_decide (Math_abs (projected b u s q) ≤ posLimit b),
     set_positions (touch u (positions b)) b).
Proof.
  unfold _checkPosLimit, _pos, projected. cbn. by rewrite pos_of_touch.
Qed.

Lemma placeLimit_accepted_id now u s p q b id b' ts :
  placeLimit now u s p q b = Some (Accepted id, b', ts) → id = orderIdSeq b.
Proof.
  unfold placeLimit. rewrite checkPosLimit_eq.
  case_bool_decide; cbn; [|done].
  destruct (_matchIncoming _ _ _) as [[[o' b3] ts3]|]; cbn; [|done].
  by intros [= <- _ _].
Qed.

Lemma set_positions_id b : set_positions (positions b) b = b.
Proof. by destruct b. Qed.

Lemma placeLimit_rejected now u s p q b :
  posLimit b < Math_abs (projected b u s q) →
  placeLimit now u s p q b
  = Some (Rejected "pos_limit", set_positions (touch u (positions b)) b, []).
Proof.
  intros Hover. unfold placeLimit. rewrite checkPosLimit_eq.
  rewrite bool_decide_eq_false_2; [done|]. by apply Qclt_not_le.
Qed.




(** ** The mid-match truncation variant of the specification *)

Lemma book_variant_reached :
  run variant_calls (new_OrderBook "A" (Q2Qc (1 # 10)) (num_of_Z 10)) = Some book_variant.
Proof. by_eval. Qed.

(** C2 (amended). In the variant (posLimit 10, taker at +3, buy 10 @ 10.0)
    the pre-check fails, since |3 + 10| = 13 > 10: placeLimit returns the
    rejection pos_limit, fills nothing, rests nothing and leaves the book,
    the taker's position of +3 included, as it was. *)
Theorem C2_variant_is_rejected (now : Z) (u : string) (p : Qc) (b : OrderBook) :
  posLimit b = num_of_Z 10 →
  Pos.qty (pos_of (positions b) u) = num_of_Z 3 →
  placeLimit now u "buy" p (num_of_Z 10) b = Some (Rejected "pos_limit", b, []).
Proof.
  intros Hlim Hpos.
  rewrite placeLimit_rejected.
  - rewrite touch_present, set_positions_id; [done|].
    unfold pos_of in Hpos. destruct (positions b !! u); [by eexists|].
    exfalso. revert Hpos. by_eval.
  - unfold projected. rewrite Hlim, Hpos. by vm_compute.
Qed.

Lemma C2_variant_is_rejected_witness :
  placeLimit 5 "U2" "buy" (num_of_Z 10) (num_of_Z 10) book_variant
  = Some (Rejected "pos_limit", book_variant, []).
Proof.
  apply (C2_variant_is_rejected 5 "U2" (num_of_Z 10) book_variant).
  - by vm_compute.
  - by_eval.
Defined.

(** In the variant nothing is filled: no trade is emitted, the taker stays
    at +3 instead of landing at +10, and the 20 units stay on the asks. *)
Lemma C2_counterexample :
  ∃ b', placeLimit 5 "U2" "buy" (num_of_Z 10) (num_of_Z 10) book_variant
        = Some (Rejected "pos_limit", b', []) ∧
        Pos.qty (pos_of (positions book_variant) "U2") = num_of_Z 3 ∧
        Pos.qty (pos_of (positions b') "U2") = num_of_Z 3 ∧
        Pos.qty (pos_of (positions b') "U2") ≠ num_of_Z 10 ∧
        asks b' = asks book_variant.
Proof.
  exists book_variant. repeat split; by_eval.
Qed.

(** ** Trade prices in placeLimit *)

Lemma match_level_makers fuel now px o q b o' q' b' ts :
  match_level fuel now px o q b = Some (o', q', b', ts) →
  Forall (λ t, ∃ maker, maker ∈ q ∧ fill_of (Order.side o) (Order.userId o) maker t) ts.
Proof.
  apply (match_level_cases now px (λ o q _ _ _ _ ts,
    Forall (λ t, ∃ maker, maker ∈ q ∧
                 fill_of (Order.side o) (Order.userId o) maker t) ts)); clear.
  - intros. constructor.
  - intros. constructor.
  - intros o maker rest b b1 trade b2 o' q' b' ts tq maker1 _ _ Hfill Hrec.
    constructor.
    + exists maker. split; [left|].
      pose proof (settle_fill_trade now (Order.side o) (Order.userId o) maker px tq b1) as H.
      rewrite Hfill in H. cbn in H. by rewrite H.
    + rewrite Forall_forall in *. intros t Ht.
      destruct (Hrec t Ht) as (mk & Hin & Hfo). cbn in Hfo.
      revert Hin. case_bool_decide; intros Hin.
      * exists mk. split; [by right | done].
      * apply elem_of_cons in Hin as [-> | Hin].
        -- exists maker. split; [left | done].
        -- exists mk. split; [by right | done].
Qed.

Lemma match_loop_fills fuel now o b o' b' ts :
  match_loop fuel now o b = Some (o', b', ts) →
  (¬ 0 < Order.leaves o → ts = []) ∧
  ∀ m0, makerMap (Order.side o) b ⊆ m0 →
    Forall (λ t, crosses (Order.side o) (Order.price o) (Trade.price t) = true ∧
                 fill_in (Order.side o) (Order.userId o) m0 t) ts.
Proof.
  apply (match_loop_cases now (λ o b _ _ ts,
    (¬ 0 < Order.leaves o → ts = []) ∧
    ∀ m0, makerMap (Order.side o) b ⊆ m0 →
      Forall (λ t, crosses (Order.side o) (Order.price o) (Trade.price t) = true ∧
                   fill_in (Order.side o) (Order.userId o) m0 t) ts)); clear.
  - intros o b. split; [done|]. intros. constructor.
  - intros o b px q o1 q1 b1 ts1 o' b' ts2 side m Hl Hbest Hcross Hq Hlvl (Hnil & Hin).
    pose proof (match_level_order _ _ _ _ _ _ _ _ _ _ Hlvl) as Ho.
    rewrite (same_order_side _ _ Ho), (same_order_userId _ _ Ho),
      (same_order_price _ _ Ho), makerMap_set_makerMap in *.
    fold side in Hin. fold m.
    pose proof (match_level_prices _ _ _ _ _ _ _ _ _ _ Hlvl) as Hpx.
    split; [done|].
    intros m0 Hsub. apply Forall_app. split.
    + pose proof (match_level_makers _ _ _ _ _ _ _ _ _ _ Hlvl) as Hmk.
      rewrite Forall_forall in *. intros t Ht.
      destruct (Hmk t Ht) as (mk & Hmkin & Hfo). rewrite (Hpx t Ht).
      split; [done|]. exists q, mk. rewrite (Hpx t Ht).
      split; [by eapply lookup_weaken | done].
    + destruct (match_level_exit _ _ _ _ _ _ _ _ _ _ Hlvl) as [-> | Hl1].
      * apply Hin. etrans; [|exact Hsub]. unfold close_level.
        rewrite bool_decide_eq_true_2 by done. apply delete_subseteq.
      * rewrite Hnil by done. constructor.
Qed.

(** The invariant [book_keyed]. *)
Lemma levels_keyed_empty : levels_keyed ∅.
Proof. intros k q o. by rewrite lookup_empty. Qed.

Lemma levels_keyed_insert (m : gmap Qc (list Order.t)) px q :
  Forall (λ o, Order.price o = px) q → levels_keyed m → levels_keyed (<[px := q]> m).
Proof.
  intros Hq Hm k q' o. rewrite lookup_insert. case_decide as Hk.
  - intros [= <-] Ho. subst k. rewrite Forall_forall in Hq. by apply Hq.
  - apply Hm.
Qed.

Lemma levels_keyed_delete (m : gmap Qc (list Order.t)) px :
  levels_keyed m → levels_keyed (delete px m).
Proof.
  intros Hm k q' o. rewrite lookup_delete. case_decide; [done | apply Hm].
Qed.

Lemma levels_keyed_level (m : gmap Qc (list Order.t)) px q :
  levels_keyed m → m !! px = Some q → Forall (λ o, Order.price o = px) q.
Proof. intros Hm Hq. apply Forall_forall. intros o Ho. by eapply Hm. Qed.

Lemma levels_keyed_push (m : gmap Qc (list Order.t)) o :
  levels_keyed m → levels_keyed (pushAtPrice m (Order.price o) o).
Proof.
  intros Hm. unfold pushAtPrice. case_bool_decide as Hs.
  - destruct Hs as [q Hq]. rewrite Hq. cbn.
    apply levels_keyed_insert; [|done].
    apply Forall_app. split; [by eapply levels_keyed_level | by constructor].
  - rewrite lookup_insert_eq, insert_insert_eq. cbn.
    apply levels_keyed_insert; [by constructor | done].
Qed.

Lemma match_level_keyed fuel now px o q b o' q' b' ts :
  match_level fuel now px o q b = Some (o', q', b', ts) →
  Forall (λ m, Order.price m = px) q → Forall (λ m, Order.price m = px) q'.
Proof.
  apply (match_level_cases now px (λ _ q _ _ q' _ _,
    Forall (λ m, Order.price m = px) q → Forall (λ m, Order.price m = px) q')); clear.
  - done.
  - done.
  - intros o maker rest b b1 trade b2 o' q' b' ts tq maker1 _ _ _ IH Hq.
    apply Forall_cons in Hq as [Hm Hrest]. apply IH.
    case_bool_decide; [done|]. by constructor.
Qed.

Lemma take_loop_keyed fuel now u s px r q b r' q' b' ts :
  take_loop fuel now u s px r q b = Some (r', q', b', ts) →
  Forall (λ m, Order.price m = px) q → Forall (λ m, Order.price m = px) q'.
Proof.
  apply (take_loop_cases now u s px (λ _ q _ _ q' _ _,
    Forall (λ m, Order.price m = px) q → Forall (λ m, Order.price m = px) q')); clear.
  - done.
  - done.
  - intros r maker rest b b1 trade b2 r' q' b' ts tq maker1 _ _ _ IH Hq.
    apply Forall_cons in Hq as [Hm Hrest]. apply IH.
    case_bool_decide; [done|]. by constructor.
Qed.

Lemma levels_keyed_close px q (m : gmap Qc (list Order.t)) :
  Forall (λ o, Order.price o = px) q → levels_keyed m → levels_keyed (close_level px q m).
Proof.
  intros Hq Hm. unfold close_level. case_bool_decide.
  - by apply levels_keyed_delete.
  - by apply levels_keyed_insert.
Qed.

Lemma book_keyed_frame b b' : same_frame b b' → book_keyed b → book_keyed b'.
Proof. intros (_&_&_&Hb&Ha&_) [??]. unfold book_keyed. by rewrite Hb, Ha. Qed.

Lemma book_keyed_makerMap s b : book_keyed b → levels_keyed (makerMap s b).
Proof. intros [??]. unfold makerMap. by destruct (is_buy s). Qed.

Lemma book_keyed_ownMap s b : book_keyed b → levels_keyed (ownMap s b).
Proof. intros [??]. unfold ownMap. by destruct (is_buy s). Qed.

Lemma book_keyed_set_makerMap s m b :
  levels_keyed m → book_keyed b → book_keyed (set_makerMap s m b).
Proof. intros ? [??]. unfold set_makerMap. by destruct (is_buy s). Qed.

Lemma book_keyed_set_ownMap s m b :
  levels_keyed m → book_keyed b → book_keyed (set_ownMap s m b).
Proof. intros ? [??]. unfold set_ownMap. by destruct (is_buy s). Qed.

Lemma match_loop_keyed fuel now o b o' b' ts :
  match_loop fuel now o b = Some (o', b', ts) → book_keyed b → book_keyed b'.
Proof.
  apply (match_loop_cases now (λ _ b _ b' _, book_keyed b → book_keyed b')); clear.
  - done.
  - intros o b px q o1 q1 b1 ts1 o' b' ts2 side m _ _ _ Hq Hlvl IH Hb.
    apply IH, book_keyed_set_makerMap.
    + apply levels_keyed_close; [|by apply book_keyed_makerMap].
      eapply match_level_keyed; [done|].
      eapply levels_keyed_level; [|done]. by apply book_keyed_makerMap.
    + eapply book_keyed_frame; [|done]. by eapply match_level_frame.
Qed.

Lemma placeLimit_keyed now u s p q b r b' ts :
  placeLimit now u s p q b = Some (r, b', ts) → book_keyed b → book_keyed b'.
Proof.
  unfold placeLimit. intros Hrun Hb.
  pose proof (checkPosLimit_frame u s q b) as Hf.
  destruct (_checkPosLimit u s q b) as [[] b1]; cbn in *;
    [|simplify_eq; by eapply book_keyed_frame].
  destruct (_matchIncoming _ _ _) as [[[o' b3] ts3]|] eqn:Hm; cbn in Hrun; [|done].
  apply match_loop_keyed in Hm;
    [|destruct (book_keyed_frame b b1 Hf Hb); by split].
  simplify_eq. case_bool_decide; [|done].
  apply book_keyed_set_ownMap; [|done].
  by apply levels_keyed_push, book_keyed_ownMap.
Qed.

Lemma takeAtPrice_keyed now u s p mq b r b' ts :
  takeAtPrice now u s p mq b = Some (r, b', ts) → book_keyed b → book_keyed b'.
Proof.
  unfold takeAtPrice. intros Hrun Hb.
  destruct (makerMap s b !! _) as [q|] eqn:Hq; [|by simplify_eq].
  case_bool_decide; [by simplify_eq|].
  destruct (take_loop _ _ _ _ _ _ _ _) as [[[[r1 q1] b1] ts1]|] eqn:Hl; cbn in Hrun; [|done].
  simplify_eq. apply book_keyed_set_makerMap.
  - apply levels_keyed_close; [|by apply book_keyed_makerMap].
    eapply take_loop_keyed; [done|].
    eapply levels_keyed_level; [|done]. by apply book_keyed_makerMap.
  - eapply book_keyed_frame; [|done]. by eapply take_loop_frame.
Qed.

Lemma cancelAtPrice_keyed u s p b : book_keyed b → book_keyed (cancelAtPrice u s p b).2.
Proof.
  intros Hb. unfold cancelAtPrice.
  destruct (ownMap s b !! _) as [q|] eqn:Hq; [|done]. cbn.
  apply book_keyed_set_ownMap; [|done].
  case_bool_decide.
  - apply levels_keyed_insert; [|by apply book_keyed_ownMap].
    apply Forall_forall. intros o [_ Ho]%list_elem_of_filter.
    by eapply (book_keyed_ownMap s b Hb).
  - by apply levels_keyed_delete, book_keyed_ownMap.
Qed.

Lemma call_keyed c b b' : call c b = Some b' → book_keyed b → book_keyed b'.
Proof.
  destruct c as [now u s p q | now u s p q | u s p | u]; cbn.
  - destruct (placeLimit _ _ _ _ _ _) as [[[r b1] ts]|] eqn:H; cbn; [|done].
    intros [= <-]. by eapply placeLimit_keyed.
  - destruct (takeAtPrice _ _ _ _ _ _) as [[[r b1] ts]|] eqn:H; cbn; [|done].
    intros [= <-]. by eapply takeAtPrice_keyed.
  - intros [= <-]. by apply cancelAtPrice_keyed.
  - by intros [= <-].
Qed.

Lemma run_keyed cs b b' : run cs b = Some b' → book_keyed b → book_keyed b'.
Proof.
  revert b. induction cs as [|c cs IH]; intros b; cbn; [by intros [= <-]|].
  destruct (call c b) as [b1|] eqn:Hc; cbn; [|done].
  intros Hr Hb. eapply IH; [done|]. by eapply call_keyed.
Qed.

Lemma placeLimit_fills now u s p q b r b' ts :
  placeLimit now u s p q b = Some (r, b', ts) →
  Forall (λ t, crosses s (snapToTick p (tickSize b)) (Trade.price t) = true ∧
               fill_in s u (makerMap s b) t) ts.
Proof.
  unfold placeLimit. rewrite checkPosLimit_eq.
  case_bool_decide; cbn.
  - destruct (_matchIncoming _ _ _) as [[[o' b3] ts3]|] eqn:Hm; cbn; [|done].
    intros [= _ _ <-].
    apply match_loop_fills in Hm as (_ & Hin). cbn in Hin.
    replace (makerMap s (set_orderIdSeq _ _)) with (makerMap s b) in *
      by (unfold makerMap; by destruct (is_buy s)).
    by apply Hin.
  - intros [= _ _ <-]. constructor.
Qed.

(** The best price is a matter of the keys of the map only. *)
Lemma best_same_keys side (m m' : gmap Qc (list Order.t)) px :
  best side m = Some px →
  (∀ k, is_Some (m' !! k) ↔ is_Some (m !! k)) →
  best side m' = Some px.
Proof.
  intros Hbest Hkeys.
  pose proof (best_Some_lookup _ _ _ Hbest) as Hpx.
  destruct (best side m') as [px'|] eqn:Hbest'.
  - pose proof (best_Some_lookup _ _ _ Hbest') as Hpx'.
    f_equal. unfold best in *. destruct (is_buy side).
    + apply Qcle_antisym.
      * eapply bestAsk_lowest; [done|]. by apply Hkeys.
      * eapply bestAsk_lowest; [done|]. by apply Hkeys.
    + apply Qcle_antisym.
      * eapply bestBid_highest; [done|]. by apply Hkeys.
      * eapply bestBid_highest; [done|]. by apply Hkeys.
  - apply best_None in Hbest'. subst m'.
    apply Hkeys in Hpx. rewrite lookup_empty in Hpx. by destruct Hpx.
Qed.

Lemma best_insert side (m : gmap Qc (list Order.t)) px q :
  best side m = Some px → best side (<[px := q]> m) = Some px.
Proof.
  intros Hbest. eapply best_same_keys; [done|].
  intros k. rewrite lookup_insert. case_decide; [|done].
  subst k. split; [|by eauto]. intros _. by eapply best_Some_lookup.
Qed.

Lemma close_level_close px q1 q2 (m : gmap Qc (list Order.t)) :
  close_level px q2 (close_level px q1 m) = close_level px q2 m.
Proof.
  unfold close_level. repeat case_bool_decide.
  - apply delete_delete_eq.
  - apply delete_insert_eq.
  - apply insert_delete_eq.
  - apply insert_insert_eq.
Qed.

Lemma close_level_id px q (m : gmap Qc (list Order.t)) :
  m !! px = Some q → q ≠ [] → close_level px q m = m.
Proof.
  intros Hq Hne. unfold close_level. rewrite bool_decide_eq_false_2 by done.
  by apply insert_id.
Qed.

Lemma fills_at_best_app s u m ts1 m1 ts2 m2 :
  fills_at_best s u m ts1 m1 → fills_at_best s u m1 ts2 m2 →
  fills_at_best s u m (ts1 ++ ts2) m2.
Proof.
  induction 1 as [|m t m1 ts m' Hfill _ IH]; [done|].
  intros H2. cbn. econstructor; [done|]. by apply IH.
Qed.

(** The fills of one visit of the level at [px], the best price of [m]:
    [close_level px q m] is the map as the inner loop sees it. *)
Lemma match_level_at_best fuel now px o q b o' q' b' ts :
  match_level fuel now px o q b = Some (o', q', b', ts) →
  Forall (λ mk, Order.price mk = px) q →
  ∀ m, best (Order.side o) m = Some px →
    fills_at_best (Order.side o) (Order.userId o)
      (close_level px q m) ts (close_level px q' m).
Proof.
  apply (match_level_cases now px (λ o q _ _ q' _ ts,
    Forall (λ mk, Order.price mk = px) q →
    ∀ m, best (Order.side o) m = Some px →
      fills_at_best (Order.side o) (Order.userId o)
        (close_level px q m) ts (close_level px q' m))); clear.
  - intros. constructor.
  - intros. constructor.
  - intros o maker rest b b1 trade b2 o' q' b' ts tq maker1 _ _ Hfill IH Hq m Hbest.
    apply Forall_cons in Hq as [Hmaker Hrest].
    pose proof (settle_fill_trade now (Order.side o) (Order.userId o) maker px tq b1) as Ht.
    rewrite Hfill in Ht. cbn in Ht.
    econstructor; [|apply IH; [by case_bool_decide; [|constructor] | exact Hbest]].
    assert (Trade.price trade = px) as Hpx by by rewrite Ht.
    split.
    + rewrite Hpx. unfold close_level. rewrite bool_decide_eq_false_2 by done.
      by apply best_insert.
    + exists maker, rest, maker1. rewrite Hpx.
      split; [by rewrite close_level_lookup_eq, bool_decide_eq_false_2|].
      split; [done|].
      split; [by rewrite Ht|]. split; [done|].
      by rewrite close_level_close.
Qed.

Lemma match_loop_at_best fuel now o b o' b' ts :
  match_loop fuel now o b = Some (o', b', ts) →
  no_empty_level (makerMap (Order.side o) b) →
  levels_keyed (makerMap (Order.side o) b) →
  fills_at_best (Order.side o) (Order.userId o)
    (makerMap (Order.side o) b) ts (makerMap (Order.side o) b').
Proof.
  apply (match_loop_cases now (λ o b _ b' ts,
    no_empty_level (makerMap (Order.side o) b) →
    levels_keyed (makerMap (Order.side o) b) →
    fills_at_best (Order.side o) (Order.userId o)
      (makerMap (Order.side o) b) ts (makerMap (Order.side o) b'))); clear.
  - intros. constructor.
  - intros o b px q o1 q1 b1 ts1 o' b' ts2 side m _ Hbest _ Hq Hlvl IH Hne Hkeyed.
    pose proof (match_level_order _ _ _ _ _ _ _ _ _ _ Hlvl) as Ho.
    rewrite (same_order_side _ _ Ho), (same_order_userId _ _ Ho),
      makerMap_set_makerMap in IH.
    fold side m in Hne, Hkeyed |- *. fold side in IH.
    pose proof (levels_keyed_level m px q Hkeyed Hq) as Hprices.
    eapply fills_at_best_app.
    2:{ apply IH; [by apply no_empty_level_close|].
        apply levels_keyed_close; [|done]. by eapply match_level_keyed. }
    pose proof (match_level_at_best _ _ _ _ _ _ _ _ _ _ Hlvl Hprices m Hbest) as H.
    by rewrite (close_level_id px q m Hq (Hne px q Hq)) in H.
Qed.

Lemma placeLimit_at_best now u s p q b r b' ts :
  placeLimit now u s p q b = Some (r, b', ts) →
  no_empty_level (makerMap s b) →
  levels_keyed (makerMap s b) →
  fills_at_best s u (makerMap s b) ts (makerMap s b').
Proof.
  unfold placeLimit. rewrite checkPosLimit_eq.
  assert (∀ ps, makerMap s (set_positions ps b) = makerMap s b) as Hps
    by (intros; unfold makerMap; by destruct (is_buy s)).
  case_bool_decide; cbn.
  - destruct (_matchIncoming _ _ _) as [[[o' b3] ts3]|] eqn:Hm; cbn; [|done].
    intros [= _ <- <-] Hne Hkeyed.
    apply match_loop_at_best in Hm; cbn in Hm.
    + replace (makerMap s (set_orderIdSeq _ _)) with (makerMap s b) in Hm
        by (unfold makerMap; by destruct (is_buy s)).
      case_bool_decide; [by rewrite makerMap_set_ownMap | done].
    + replace (makerMap s (set_orderIdSeq _ _)) with (makerMap s b)
        by (unfold makerMap; by destruct (is_buy s)). done.
    + replace (makerMap s (set_orderIdSeq _ _)) with (makerMap s b)
        by (unfold makerMap; by destruct (is_buy s)). done.
  - intros [= _ <- <-] _ _. rewrite Hps. constructor.
Qed.


(** An aggressor bidding 11.0 against asks resting at 10.0 trades at 10.0. *)
Example trade_at_maker_price :
  (b1 ← run [CallPlaceLimit 1 "U1" "sell" (num_of_Z 10) (num_of_Z 2)]
          (new_OrderBook "A" (Q2Qc (1 # 10)) (num_of_Z 100));
   '(r, _, ts) ← placeLimit 2 "U2" "buy" (num_of_Z 11) (num_of_Z 2) b1;
   Some (r, ts))
  = Some (Accepted 2, [Trade.mk 2 "A" (num_of_Z 10) (num_of_Z 2) "U2" "U1"]).
Proof. by_eval. Qed.

(** With asks resting at 10.0 and at 11.0, a trade at 11.0 is no fill of a
    buy: the best opposite price at that moment is 10.0. *)
Example trade_off_best_excluded (m' : gmap Qc (list Order.t)) :
  ¬ fills_at_best "buy" "U2"
      {[ num_of_Z 10 := [Order.new 1 "U1" "sell" (num_of_Z 10) (num_of_Z 1) 1];
         num_of_Z 11 := [Order.new 2 "U3" "sell" (num_of_Z 11) (num_of_Z 1) 2] ]}
      [Trade.mk 3 "A" (num_of_Z 11) (num_of_Z 1) "U2" "U3"] m'.
Proof.
  intros H. inversion H as [|m t m1 ts m2 [Hbest _] _]; subst.
  revert Hbest. by vm_compute.
Qed.

(** ** Self-matching *)

Lemma match_level_cons fuel now px o maker rest b :
  match_level (S fuel) now px o (maker :: rest) b
  = if bool_decide (0 < Order.leaves o) then
      let tradeQty := Math_min (Order.leaves o) (Order.leaves maker) in
      let '(ok, b1) := _checkPosLimit (Order.userId o) (Order.side o) tradeQty b in
      if negb ok then Some (Order.set_leaves 0 o, maker :: rest, b1, [])
      else
        let order1 := Order.set_leaves (Order.leaves o - tradeQty) o in
        let maker1 := Order.set_leaves (Order.leaves maker - tradeQty) maker in
        let '(trade, b2) :=
          settle_fill now (Order.side o) (Order.userId o) maker px tradeQty b1 in
        let q1 := if bool_decide (Order.leaves maker1 = 0) then rest else maker1 :: rest in
        '(o', q', b', ts) ← match_level fuel now px order1 q1 b2;
        Some (o', q', b', trade :: ts)
    else Some (o, maker :: rest, b, []).
Proof. reflexivity. Qed.

Lemma match_level_done fuel now px o q b :
  ¬ 0 < Order.leaves o → match_level fuel now px o q b = Some (o, q, b, []).
Proof.
  intros Hl. destruct q as [|maker rest]; [by destruct fuel|].
  destruct fuel; [|by rewrite match_level_cons, bool_decide_eq_false_2].
  change (match_level 0 now px o (maker :: rest) b)
    with (if bool_decide (0 < Order.leaves o)
          then None else Some (o, maker :: rest, b, @nil Trade.t)).
  by rewrite bool_decide_eq_false_2.
Qed.

Lemma match_loop_S fuel now o b :
  match_loop (S fuel) now o b
  = let side := Order.side o in
    let m := makerMap side b in
    if bool_decide (0 < Order.leaves o) && bool_decide (0 < size m)%nat then
      match best side m with
      | None => Some (o, b, [])
      | Some px =>
        if negb (crosses side (Order.price o) px) then Some (o, b, [])
        else
          q ← m !! px;
          '(order1, q1, b1, ts1) ← match_level (S (length q)) now px o q b;
          let b2 := set_makerMap side (close_level px q1 m) b1 in
          '(o', b', ts2) ← match_loop fuel now order1 b2;
          Some (o', b', ts1 ++ ts2)
      end
    else Some (o, b, []).
Proof. reflexivity. Qed.

Lemma match_loop_done fuel now o b :
  ¬ 0 < Order.leaves o → match_loop fuel now o b = Some (o, b, []).
Proof.
  intros Hl. destruct fuel.
  - change (match_loop 0 now o b)
      with (if bool_decide (0 < Order.leaves o)
               && bool_decide (0 < size (makerMap (Order.side o) b))%nat
            then None else Some (o, b, @nil Trade.t)).
    by rewrite bool_decide_eq_false_2.
  - rewrite match_loop_S. cbn zeta. by rewrite bool_decide_eq_false_2.
Qed.

Lemma Math_min_l (a c : Qc) : a ≤ c → Math_min a c = a.
Proof.
  intros H. unfold Math_min. rewrite bool_decide_eq_false_2; [done|].
  by apply Qcle_not_lt.
Qed.

(** A fill in which the taker is also the maker leaves the position of
    that user as it was. *)
Lemma settle_fill_self now s u maker px tq b :
  Order.userId maker = u →
  pos_of (positions (settle_fill now s u maker px tq b).2) u = pos_of (positions b) u ∧
  (settle_fill now s u maker px tq b).1 = Trade.mk now (symbol b) px tq u u.
Proof.
  intros Hu. rewrite settle_fill_trade, Hu. split; [|by do 2 destruct (_ : bool)].
  unfold settle_fill. cbv zeta. cbn [snd]. rewrite positions_recordTrade, Hu.
  replace (if is_buy s then u else u) with u by by destruct (is_buy s).
  replace (if is_sell s then u else u) with u by by destruct (is_sell s).
  rewrite !pos_of_upd_pos. rewrite !decide_True by done.
  destruct (pos_of (positions b) u) as [pq pc]. unfold Pos.add_cash, Pos.sub_qty,
    Pos.sub_cash, Pos.add_qty. cbn. f_equal; ring.
Qed.

Lemma last_recordTrade t b : last (trades (_recordTrade t b)) = Some t.
Proof.
  unfold _recordTrade. cbn. case_bool_decide as Hlen; [|apply last_snoc].
  destruct (trades b) as [|t0 ts]; cbn in *.
  - lia.
  - apply last_snoc.
Qed.

Lemma projected_touch b u s q v :
  projected (set_positions (touch v (positions b)) b) u s q = projected b u s q.
Proof. unfold projected. cbn. by rewrite pos_of_touch. Qed.

Lemma last_settle_fill now s u maker px tq b :
  last (trades (settle_fill now s u maker px tq b).2)
  = Some (settle_fill now s u maker px tq b).1.
Proof. unfold settle_fill. cbv zeta. cbn [fst snd]. apply last_recordTrade. Qed.

(** With exact numbers: when the head of the best opposite level belongs
    to the user who places a crossing order (of a quantity the head can
    fill, within the position limit), the order is accepted and fills
    against it; the one trade emitted names that user as buyer and as
    seller, is the last entry of the tape, and the two bookings of the
    user cancel. The arithmetic of the code is taken up in the last part. *)
Lemma self_match_exact (now : Z) (u s : string) (p q : Qc) (b : OrderBook)
    (px : Qc) (maker : Order.t) (rest : list Order.t) :
  best s (makerMap s b) = Some px →
  makerMap s b !! px = Some (maker :: rest) →
  Order.userId maker = u →
  crosses s (snapToTick p (tickSize b)) px = true →
  0 < q → q ≤ Order.leaves maker →
  Math_abs (projected b u s q) ≤ posLimit b →
  ∃ b',
    placeLimit now u s p q b
    = Some (Accepted (orderIdSeq b), b', [Trade.mk now (symbol b) px q u u]) ∧
    pos_of (positions b') u = pos_of (positions b) u ∧
    last (trades b') = Some (Trade.mk now (symbol b) px q u u).
Proof.
  intros Hbest Hlvl Hu Hcross Hq Hle Hlim.
  unfold placeLimit. rewrite checkPosLimit_eq, bool_decide_eq_true_2 by done.
  cbn [negb]. cbv zeta.
  set (b1 := set_positions (touch u (positions b)) b).
  set (b2 := set_orderIdSeq (orderIdSeq b1 + 1) b1).
  set (o := Order.new (orderIdSeq b1) u s (snapToTick p (tickSize b2)) q now).
  assert (makerMap s b2 = makerMap s b) as Hm by (unfold makerMap; by destruct (is_buy s)).
  unfold _matchIncoming. rewrite match_loop_S. cbv zeta.
  change (Order.side o) with s. change (Order.leaves o) with q.
  change (Order.price o) with (snapToTick p (tickSize b)).
  rewrite Hm, Hbest, Hcross, Hlvl.
  rewrite (bool_decide_eq_true_2 (0 < q)) by done.
  rewrite (bool_decide_eq_true_2 (0 < size _)%nat).
  2:{ destruct (decide (size (makerMap s b) = 0%nat)) as [Hz|]; [|lia].
      apply map_size_empty_iff in Hz. rewrite Hz in Hlvl. by rewrite lookup_empty in Hlvl. }
  cbn [andb negb mbind option_bind].
  rewrite match_level_cons.
  change (Order.side o) with s. change (Order.leaves o) with q.
  change (Order.userId o) with u.
  rewrite (bool_decide_eq_true_2 (0 < q)) by done. cbv zeta.
  rewrite Math_min_l by done.
  rewrite checkPosLimit_eq.
  rewrite bool_decide_eq_true_2.
  2:{ unfold b2. change (posLimit _) with (posLimit b).
      replace (projected _ u s q) with (projected b u s q); [done|].
      unfold projected. cbn. by rewrite pos_of_touch. }
  cbn [negb].
  destruct (settle_fill now s u maker px q _) as [trade b3] eqn:Hfill.
  rewrite match_level_done.
  2:{ cbn. rewrite Qc_sub_diag. apply Qc_lt_irrefl. }
  cbn [mbind option_bind].
  rewrite match_loop_done.
  2:{ cbn. rewrite Qc_sub_diag. apply Qc_lt_irrefl. }
  cbn [mbind option_bind].
  rewrite bool_decide_eq_false_2.
  2:{ cbn. rewrite Qc_sub_diag. apply Qc_lt_irrefl. }
  pose proof (settle_fill_self now s u maker px q
    (set_positions (touch u (positions b2)) b2) Hu) as [Hpos Htr].
  pose proof (last_settle_fill now s u maker px q
    (set_positions (touch u (positions b2)) b2)) as Hlast.
  rewrite Hfill in Hpos, Htr, Hlast. cbn [fst snd] in Hpos, Htr, Hlast.
  change (symbol _) with (symbol b) in Htr. subst trade.
  eexists. split; [reflexivity|].
  rewrite positions_set_makerMap, trades_set_makerMap. split; [|done].
  rewrite Hpos. cbn. by rewrite !pos_of_touch.
Qed.

Lemma book_self_reached :
  run [CallPlaceLimit 1 "U1" "sell" (num_of_Z 10) (num_of_Z 5)]
    (new_OrderBook "A" (Q2Qc (1 # 10)) (num_of_Z 100)) = Some book_self.
Proof. by_eval. Qed.

(** ** Settled markets and the open flag *)

Lemma settled_closed_games s :
  settled_closed s ↔ map_Forall (λ _, game_ok) (games s).
Proof.
  split.
  - intros H code g Hg symbol mk Hmk Hset. by eapply H.
  - intros H code g symbol mk Hg Hmk. exact (H code g Hg symbol mk Hmk).
Qed.

Lemma market_ok_same_life mk mk' : same_life mk mk' → market_ok mk → market_ok mk'.
Proof. intros [Ho Hs] H. unfold market_ok. rewrite Ho, Hs. exact H. Qed.

Lemma market_ok_settle price mk : market_ok (settle_market price mk).
Proof. by intros _. Qed.

Lemma market_ok_close mk : market_ok (Market.set_open false mk).
Proof. by intros _. Qed.

Lemma same_life_onTradeHook symbol t mk : same_life mk (onTradeHook symbol t mk).
Proof. by split. Qed.

Lemma same_life_after_book symbol b' ts mk : same_life mk (after_book symbol b' ts mk).
Proof.
  unfold after_book.
  assert (same_life mk (Market.set_book b' mk)) as H0 by by split.
  revert H0. generalize (Market.set_book b' mk).
  induction ts as [|t ts IH]; intros mk0 H0; cbn; [done|].
  apply IH. destruct H0 as [Ho Hs]. by split.
Qed.

Lemma game_ok_markets ms g :
  map_Forall (λ _, market_ok) ms → game_ok (Game.set_markets ms g).
Proof. done. Qed.

Lemma game_ok_sendPersonalBundle sid g : game_ok g → game_ok (sendPersonalBundle sid g).
Proof.
  intros H. unfold sendPersonalBundle. apply game_ok_markets.
  apply map_Forall_fmap. eapply map_Forall_impl; [exact H|].
  intros sym mk Hok. by eapply market_ok_same_life; [|exact Hok].
Qed.

Lemma game_ok_fanout g : game_ok g → game_ok (fanout g).
Proof.
  intros H. unfold fanout.
  induction (elements (Game.room g)) as [|sid l IH]; cbn; [done|].
  by apply game_ok_sendPersonalBundle.
Qed.

Lemma settled_closed_put_game code g s :
  game_ok g → settled_closed s → settled_closed (put_game code g s).
Proof.
  rewrite !settled_closed_games. intros Hg Hs. unfold put_game. cbn.
  by apply map_Forall_insert_2.
Qed.

Lemma game_of_ok sid s code g :
  settled_closed s → game_of sid s = Some (code, g) → game_ok g.
Proof.
  rewrite settled_closed_games. unfold game_of. intros Hs Hg.
  destruct (codes s !! sid) as [c|]; cbn in Hg; [|done].
  destruct (games s !! c) as [g0|] eqn:Hg0; cbn in Hg; [|done].
  simplify_eq. by eapply Hs.
Qed.

Lemma game_ok_new_markets (ms : gmap string Market.t) defs :
  map_Forall (λ _, market_ok) ms → map_Forall (λ _, market_ok) (foldl add_market ms defs).
Proof.
  revert ms. induction defs as [|d defs IH]; intros ms H0; cbn; [done|].
  apply IH. unfold add_market. destruct (new_market d) as [sym mk] eqn:Hd.
  apply map_Forall_insert_2; [|done].
  unfold new_market in Hd. injection Hd as _ <-. by intros ?.
Qed.

Lemma ensureGameAdminCreate_ok code defs s :
  settled_closed s →
  game_ok (ensureGameAdminCreate code defs s).1 ∧
  settled_closed (ensureGameAdminCreate code defs s).2.
Proof.
  intros Hs. unfold ensureGameAdminCreate.
  destruct (games s !! code) as [g|] eqn:Hg; cbn.
  - split; [|done]. apply settled_closed_games in Hs. by eapply Hs.
  - assert (game_ok (Game.mk (foldl add_market ∅ (take MAX_MARKETS defs)) ∅ ∅ [] ∅))
      as Hnew by apply game_ok_new_markets, map_Forall_empty.
    split; [done|]. by apply (settled_closed_put_game code _ s).
Qed.

Lemma settle_all_ok (priceMap : list (string * Qc)) (ms : gmap string Market.t) :
  map_Forall (λ _, market_ok) ms →
  map_Forall (λ _, market_ok) (foldl settle_entry ms priceMap).
Proof.
  revert ms. induction priceMap as [|[sym v] pm IH]; intros ms H; cbn; [done|].
  apply IH. unfold settle_entry. cbn. destruct (ms !! sym); [|done].
  apply map_Forall_insert_2; [apply market_ok_settle | done].
Qed.

Lemma game_ok_set_market symbol mk g :
  market_ok mk → game_ok g →
  game_ok (Game.set_markets (<[symbol := mk]> (Game.markets g)) g).
Proof. intros Hmk Hg. apply game_ok_markets. by apply map_Forall_insert_2. Qed.

Lemma game_ok_lookup g symbol mk :
  game_ok g → Game.markets g !! symbol = Some mk → market_ok mk.
Proof. intros Hg Hmk. by eapply Hg. Qed.

Lemma settled_closed_disconnect sid s gs :
  map_Forall (λ _, game_ok) gs →
  settled_closed
    (mkServer ((λ g, Game.set_room (Game.room g ∖ {[sid]}) g) <$> gs) (delete sid (codes s))).
Proof.
  intros H. apply settled_closed_games. cbn.
  apply map_Forall_fmap. eapply map_Forall_impl; [exact H|]. by intros code g Hg.
Qed.

(** C4 (amended). Settlement closes: admin_settle and admin_settle_all
    store the settlement with open = false, and every command other than an
    admin toggle with open = true (admin_toggle_market, admin_toggle_all)
    keeps "settlement != null implies open == false" in every market of
    every game. *)
Theorem C4_settled_stays_closed (ADMIN_PASSWORD : string) (now : Z) (sid : string)
    (c : Command) (s s' : Server) (ts : list Trade.t) :
  settled_closed s →
  opens c = false →
  step ADMIN_PASSWORD now sid c s = Some (s', ts) →
  settled_closed s'.
Proof.
  intros Hs Hc Hstep.
  destruct c as [code pw defs | code name | symbol o | o | symbol price | priceMap
                | text | symbol side price qty | symbol side price
                | symbol side price maxQty | ]; cbn in Hstep.
  - (* admin_create_game *)
    case_bool_decide; [by simplify_eq|].
    destruct (four_digits code); cbn in Hstep; [|by simplify_eq].
    destruct (ensureGameAdminCreate_ok code defs s Hs) as [Hg Hs1].
    destruct (ensureGameAdminCreate code defs s) as [g s1]. cbn in Hg, Hs1.
    simplify_eq. apply settled_closed_put_game; [|done].
    by apply game_ok_sendPersonalBundle.
  - (* player_join *)
    destruct (games s !! code) as [g|] eqn:Hg; [|by simplify_eq].
    simplify_eq. apply settled_closed_put_game; [|done].
    assert (game_ok g) as Hgok by (apply settled_closed_games in Hs; by eapply Hs).
    by apply game_ok_sendPersonalBundle.
  - (* admin_toggle_market, closing *)
    destruct (game_of sid s) as [[code g]|] eqn:Hg; [|by simplify_eq].
    destruct (is_admin sid g); cbn in Hstep; [|by simplify_eq].
    destruct (Game.markets g !! symbol) as [mk|]; [|by simplify_eq].
    destruct o; [done|]. simplify_eq.
    apply settled_closed_put_game; [|done]. apply game_ok_fanout.
    apply game_ok_set_market; [apply market_ok_close | by eapply game_of_ok].
  - (* admin_toggle_all, closing *)
    destruct (game_of sid s) as [[code g]|] eqn:Hg; [|by simplify_eq].
    destruct (is_admin sid g); cbn in Hstep; [|by simplify_eq].
    destruct o; [done|]. simplify_eq.
    apply settled_closed_put_game; [|done]. apply game_ok_fanout, game_ok_markets.
    apply map_Forall_fmap. intros sym mk _. apply market_ok_close.
  - (* admin_settle *)
    destruct (game_of sid s) as [[code g]|] eqn:Hg; [|by simplify_eq].
    destruct (is_admin sid g); cbn in Hstep; [|by simplify_eq].
    destruct (Game.markets g !! symbol) as [mk|]; [|by simplify_eq].
    simplify_eq. apply settled_closed_put_game; [|done]. apply game_ok_fanout.
    apply game_ok_set_market; [apply market_ok_settle | by eapply game_of_ok].
  - (* admin_settle_all *)
    destruct (game_of sid s) as [[code g]|] eqn:Hg; [|by simplify_eq].
    destruct (is_admin sid g); cbn in Hstep; [|by simplify_eq].
    simplify_eq. apply settled_closed_put_game; [|done].
    apply game_ok_fanout, game_ok_markets, settle_all_ok. by eapply game_of_ok.
  - (* admin_add_event *)
    destruct (game_of sid s) as [[code g]|] eqn:Hg; [|by simplify_eq].
    destruct (is_admin sid g); cbn in Hstep; [|by simplify_eq].
    simplify_eq. apply settled_closed_put_game; [|done].
    pose proof (game_of_ok _ _ _ _ Hs Hg) as Hgok. exact Hgok.
  - (* place_order *)
    destruct (game_of sid s) as [[code g]|] eqn:Hg; [|by simplify_eq].
    destruct (Game.markets g !! symbol) as [mk|] eqn:Hmk; [|by simplify_eq].
    destruct (Market.open mk); cbn in Hstep; [|by simplify_eq].
    destruct (is_buy side || is_sell side); cbn in Hstep; [|by simplify_eq].
    destruct (bool_decide (0 < price) && bool_decide (0 < qty)); cbn in Hstep;
      [|by simplify_eq].
    destruct (placeLimit _ _ _ _ _ _) as [[[res b'] ts']|]; cbn in Hstep; [|done].
    pose proof (game_of_ok _ _ _ _ Hs Hg) as Hgok.
    assert (game_ok (Game.set_markets
      (<[symbol := after_book symbol b' ts' mk]> (Game.markets g)) g)) as Hg1.
    { apply game_ok_set_market; [|done].
      eapply market_ok_same_life; [apply same_life_after_book|]. by eapply game_ok_lookup. }
    destruct res; simplify_eq; apply settled_closed_put_game; try done.
    by apply game_ok_fanout.
  - (* cancel_at_price *)
    destruct (game_of sid s) as [[code g]|] eqn:Hg; [|by simplify_eq].
    destruct (Game.markets g !! symbol) as [mk|] eqn:Hmk; [|by simplify_eq].
    simplify_eq. apply settled_closed_put_game; [|done]. apply game_ok_fanout.
    pose proof (game_of_ok _ _ _ _ Hs Hg) as Hgok.
    apply game_ok_set_market; [|done].
    eapply market_ok_same_life; [|by eapply game_ok_lookup]. by split.
  - (* click_trade *)
    destruct (game_of sid s) as [[code g]|] eqn:Hg; [|by simplify_eq].
    destruct (Game.markets g !! symbol) as [mk|] eqn:Hmk; [|by simplify_eq].
    destruct (Market.open mk); cbn in Hstep; [|by simplify_eq].
    destruct (takeAtPrice _ _ _ _ _ _) as [[[res b'] ts']|]; cbn in Hstep; [|done].
    pose proof (game_of_ok _ _ _ _ Hs Hg) as Hgok.
    simplify_eq. apply settled_closed_put_game; [|done]. apply game_ok_fanout.
    apply game_ok_set_market; [|done].
    eapply market_ok_same_life; [apply same_life_after_book|]. by eapply game_ok_lookup.
  - (* disconnect *)
    simplify_eq. apply settled_closed_disconnect.
    pose proof Hs as Hgs. apply settled_closed_games in Hgs.
    destruct (game_of sid s) as [[code g]|] eqn:Hg; [|done].
    apply map_Forall_insert_2; [|done].
    pose proof (game_of_ok _ _ _ _ Hs Hg) as Hgok. exact Hgok.
Qed.

Lemma settled_closed_new : settled_closed new_Server.
Proof. intros code g symbol mk Hg. cbn in Hg. by rewrite lookup_empty in Hg. Qed.

Example server_settled_market :
  (mk ← market_A server_settled; Some (Market.open mk, Market.settlement mk))
  = Some (false, Some (num_of_Z 10)).
Proof. by_eval. Qed.

Lemma C4_settled_stays_closed_witness : settled_closed server_settled.
Proof.
  apply (C4_settled_stays_closed "secret" 2 "adm" (admin_settle "A" (num_of_Z 10))
           server_created server_settled []).
  - apply (C4_settled_stays_closed "secret" 1 "adm"
             (admin_create_game "1234" "secret" [mkDef "a" None None])
             new_Server server_created []).
    + exact settled_closed_new.
    + reflexivity.
    + by_eval.
  - reflexivity.
  - by_eval.
Defined.

(** An admin settles market A at 10.0 and then toggles it open: the market
    is open while its settlement is set. *)
Lemma C4_counterexample :
  ∃ s ts mk,
    run_server "secret" settle_then_open new_Server = Some (s, ts) ∧
    market_A s = Some mk ∧
    Market.settlement mk = Some (num_of_Z 10) ∧ Market.open mk = true ∧
    ¬ settled_closed s.
Proof.
  assert (('(s, _) ← run_server "secret" settle_then_open new_Server;
           mk ← market_A s; Some (Market.open mk, Market.settlement mk))
          = Some (true, Some (num_of_Z 10))) as Hrun by by_eval.
  destruct (run_server "secret" settle_then_open new_Server) as [[s ts]|]; [|done].
  cbn in Hrun. destruct (market_A s) as [mk|] eqn:Hmk; [|done].
  cbn in Hrun. injection Hrun as Ho Hset.
  exists s, ts, mk. repeat split; try done.
  intros Hinv. unfold market_A in Hmk.
  destruct (games s !! "1234") as [g|] eqn:Hg; [|done]. cbn in Hmk.
  specialize (Hinv _ _ _ _ Hg Hmk). rewrite Hset, Ho in Hinv.
  by specialize (Hinv ltac:(done)).
Qed.

(** ** The quantity a click-trade executes *)

Lemma take_loop_traded fuel now u s px r q b r' q' b' ts :
  take_loop fuel now u s px r q b = Some (r', q', b', ts) →
  traded ts = r - r' ∧ (0 ≤ r → 0 ≤ r').
Proof.
  apply (take_loop_cases now u s px
    (λ r _ _ r' _ _ ts, traded ts = r - r' ∧ (0 ≤ r → 0 ≤ r'))); clear.
  - intros r q b _. split; [|done]. cbn. by rewrite Qc_sub_diag.
  - intros r maker rest b b1 _ _. split; [|done]. cbn. by rewrite Qc_sub_diag.
  - intros r maker rest b b1 trade b2 r' q' b' ts tq maker1 _ _ Hfill [Htr Hpos].
    pose proof (settle_fill_trade now s u maker px tq b1) as Ht.
    rewrite Hfill in Ht. cbn in Ht. split.
    + change (traded (trade :: ts)) with (Trade.qty trade + traded ts).
      rewrite Htr, Ht. cbn. ring.
    + intros Hr. apply Hpos. apply Qc_sub_nonneg, Math_min_le_l.
Qed.

Lemma takeAtPrice_traded now u s p mq b r b' ts :
  takeAtPrice now u s p mq b = Some (r, b', ts) →
  traded ts ≤ Math_max 0 (or_default mq 0).
Proof.
  assert (0 ≤ Math_max 0 (or_default mq 0)) as Hnn.
  { unfold Math_max. case_bool_decide; [by apply Qclt_le_weak | apply Qcle_refl]. }
  unfold takeAtPrice.
  destruct (makerMap s b !! _) as [q|]; [|by intros [= _ _ <-]].
  case_bool_decide; [by intros [= _ _ <-]|].
  destruct (take_loop _ _ _ _ _ _ _ _) as [[[[r1 q1] b1] ts1]|] eqn:Hl; cbn; [|done].
  intros [= _ _ <-].
  apply take_loop_traded in Hl as [-> Hr1]. specialize (Hr1 Hnn).
  apply Qcle_minus_iff.
  replace (Math_max 0 (or_default mq 0) + - (Math_max 0 (or_default mq 0) - r1))
    with r1 by ring.
  done.
Qed.

(** What the dispatcher hands to takeAtPrice is at least 1, so takeAtPrice
    starts from that very quantity. *)
Lemma click_quantity (maxQty : Qc) :
  Math_max 0 (or_default (Math_max 1 (or_default maxQty 1)) 0)
  = Math_max 1 (or_default maxQty 1).
Proof.
  assert (0 < Math_max 1 (or_default maxQty 1)) as Hpos.
  { unfold Math_max. case_bool_decide as Hlt; [|done].
    eapply Qclt_trans; [|exact Hlt]. done. }
  unfold or_default at 1. rewrite bool_decide_eq_false_2.
  - unfold Math_max at 1. by rewrite bool_decide_eq_true_2.
  - intros Heq. rewrite Heq in Hpos. by apply Qc_lt_irrefl in Hpos.
Qed.


Lemma server_resting_reached :
  run_server "secret" resting_three new_Server = Some (server_resting, []).
Proof. by_eval. Qed.



(** ** End-to-end scenarios of the specification *)

(** Simple cross: U1 sells 5 @ 10.0, U2 buys 5 @ 10.0. One trade, both
    side maps empty, U1 at -5 / +50 and U2 at +5 / -50. *)
Example scenario_simple_cross :
  (b1 ← run [CallPlaceLimit 1 "U1" "sell" (num_of_Z 10) (num_of_Z 5)]
          (new_OrderBook "A" (Q2Qc (1 # 10)) (num_of_Z 100));
   '(_, b2, ts) ← placeLimit 2 "U2" "buy" (num_of_Z 10) (num_of_Z 5) b1;
   Some (ts, bids b2, asks b2, pos_of (positions b2) "U1", pos_of (positions b2) "U2"))
  = Some ([Trade.mk 2 "A" (num_of_Z 10) (num_of_Z 5) "U2" "U1"], ∅, ∅,
          Pos.mk (num_of_Z (-5)) (num_of_Z 50), Pos.mk (num_of_Z 5) (num_of_Z (-50))).
Proof. by_eval. Qed.

(** Price-time priority: U1 sells 3 @ 10.0, then U3 sells 4 @ 10.0; U2
    buys 5 @ 10.0 and fills 3 against U1, then 2 against U3. *)
Example scenario_price_time :
  (b1 ← run [CallPlaceLimit 1 "U1" "sell" (num_of_Z 10) (num_of_Z 3);
             CallPlaceLimit 2 "U3" "sell" (num_of_Z 10) (num_of_Z 4)]
          (new_OrderBook "A" (Q2Qc (1 # 10)) (num_of_Z 100));
   '(_, b2, ts) ← placeLimit 3 "U2" "buy" (num_of_Z 10) (num_of_Z 5) b1;
   Some (ts, Order.leaves <$> default [] (asks b2 !! num_of_Z 10)))
  = Some ([Trade.mk 3 "A" (num_of_Z 10) (num_of_Z 3) "U2" "U1";
           Trade.mk 3 "A" (num_of_Z 10) (num_of_Z 2) "U2" "U3"],
          [num_of_Z 2]).
Proof. by_eval. Qed.

(** Multi-level sweep: asks 2 @ 10.0 and 3 @ 10.1; a buy of 4 @ 10.1
    trades 2 @ 10.0, then 2 @ 10.1, and 1 @ 10.1 stays. *)
Example scenario_sweep :
  (b1 ← run [CallPlaceLimit 1 "U1" "sell" (num_of_Z 10) (num_of_Z 2);
             CallPlaceLimit 2 "U1" "sell" (Q2Qc (101 # 10)) (num_of_Z 3)]
          (new_OrderBook "A" (Q2Qc (1 # 10)) (num_of_Z 100));
   '(_, b2, ts) ← placeLimit 3 "U2" "buy" (Q2Qc (101 # 10)) (num_of_Z 4) b1;
   Some (fills ts, depth (asks b2)))
  = Some ([(num_of_Z 10, num_of_Z 2); (Q2Qc (101 # 10), num_of_Z 2)],
          [(Q2Qc (101 # 10), [num_of_Z 1])]).
Proof. by_eval. Qed.

(** Tick snap: with tick 0.1 a price of 10.04 enters the book as 10.0. *)
Example scenario_tick_snap :
  snapToTick (Q2Qc (1004 # 100)) (Q2Qc (1 # 10)) = num_of_Z 10.
Proof. by_eval. Qed.

(** Click-take: asks 3 @ 10.0; U2 clicks to buy at 10.0 with maxQty 5.
    One trade of 3, the level is deleted, U2 is long 3. *)
Example scenario_click_take :
  (b1 ← run [CallPlaceLimit 1 "U1" "sell" (num_of_Z 10) (num_of_Z 3)]
          (new_OrderBook "A" (Q2Qc (1 # 10)) (num_of_Z 100));
   '(r, b2, ts) ← takeAtPrice 2 "U2" "buy" (num_of_Z 10) (num_of_Z 5) b1;
   Some (r, fills ts, asks b2, Pos.qty (pos_of (positions b2) "U2")))
  = Some (TakeTrue, [(num_of_Z 10, num_of_Z 3)], ∅, num_of_Z 3).
Proof. by_eval. Qed.

(** Cancel: U1 rests buy 5 @ 9.9 and buy 3 @ 9.9; cancelAtPrice removes
    both and the level. *)
Example scenario_cancel :
  (b1 ← run [CallPlaceLimit 1 "U1" "buy" (Q2Qc (99 # 10)) (num_of_Z 5);
             CallPlaceLimit 2 "U1" "buy" (Q2Qc (99 # 10)) (num_of_Z 3)]
          (new_OrderBook "A" (Q2Qc (1 # 10)) (num_of_Z 100));
   Some (depth (bids b1), (cancelAtPrice "U1" "buy" (Q2Qc (99 # 10)) b1).1,
         bids (cancelAtPrice "U1" "buy" (Q2Qc (99 # 10)) b1).2))
  = Some ([(Q2Qc (99 # 10), [num_of_Z 5; num_of_Z 3])], 2%nat, ∅).
Proof. by_eval. Qed.

(** The mid-match check at work (posLimit 10). U2 rests two buys of 10,
    both within the limit when placed; U1 and U3 sell into them, which
    leaves U2 long 20, beyond the limit, since makers are not re-checked.
    U4 then bids 4 @ 7.0. A sell of 15 @ 7.0 by U2 passes the pre-check
    (|20 - 15| = 5), but its first fill of 4 would leave |20 - 4| = 16 > 10:
    the order is accepted, fills nothing, and what is left of it is
    dropped without resting. *)
Example scenario_mid_match_breach :
  (b1 ← run [CallPlaceLimit 1 "U2" "buy" (num_of_Z 9) (num_of_Z 10);
             CallPlaceLimit 2 "U2" "buy" (num_of_Z 8) (num_of_Z 10);
             CallPlaceLimit 3 "U1" "sell" (num_of_Z 9) (num_of_Z 10);
             CallPlaceLimit 4 "U3" "sell" (num_of_Z 8) (num_of_Z 10);
             CallPlaceLimit 5 "U4" "buy" (num_of_Z 7) (num_of_Z 4)]
          (new_OrderBook "A" (Q2Qc (1 # 10)) (num_of_Z 10));
   '(r, b2, ts) ← placeLimit 6 "U2" "sell" (num_of_Z 7) (num_of_Z 15) b1;
   Some (Pos.qty (pos_of (positions b1) "U2"), r, ts, depth (bids b2), asks b2,
         Pos.qty (pos_of (positions b2) "U2")))
  = Some (num_of_Z 20, Accepted 6, [], [(num_of_Z 7, [num_of_Z 4])], ∅, num_of_Z 20).
Proof. by_eval. Qed.

(** * Further properties *)

(** ** Tick snapping *)

Lemma snapToTick_eq px tick :
  snapToTick px tick = Math_round (px / tick_of tick) * tick_of tick.
Proof. reflexivity. Qed.

Lemma tick_of_pos tick : 0 < tick_of tick.
Proof.
  unfold tick_of, Math_max. case_bool_decide as H; [|done].
  eapply Qclt_trans; [|exact H]. done.
Qed.

Lemma Qfloor_half (n : Z) : Qfloor (inject_Z n + (1 # 2))%Q = n.
Proof.
  unfold Qfloor, inject_Z, Qplus. cbn.
  symmetry. apply (Z.div_unique _ _ _ 1%Z); lia.
Qed.

Lemma Math_round_Z (n : Z) : Math_round (num_of_Z n) = num_of_Z n.
Proof.
  unfold Math_round. f_equal.
  transitivity (Qfloor (inject_Z n + (1 # 2))%Q); [|apply Qfloor_half].
  apply Qfloor_comp. cbn. rewrite !Qred_correct. reflexivity.
Qed.

Lemma Math_round_eq (x : Qc) :
  Math_round x = num_of_Z (Qfloor (this (x + Q2Qc (1 # 2))%Qc)).
Proof.
  unfold Math_round. f_equal. apply Qfloor_comp. cbn.
  rewrite (Qred_correct (_ + _)). reflexivity.
Qed.

Lemma tick_of_ne tick : tick_of tick ≠ 0.
Proof. intros H. pose proof (tick_of_pos tick) as Hp. rewrite H in Hp. by apply Qc_lt_irrefl in Hp. Qed.

(** With exact numbers a snapped price snaps to itself (for the same
    tick). *)
Lemma snapToTick_fixed (px tick : Qc) :
  snapToTick (snapToTick px tick) tick = snapToTick px tick.
Proof.
  rewrite !snapToTick_eq. rewrite (Math_round_eq (px / _)).
  set (n := Qfloor _). rewrite Qcdiv_mult_l by apply tick_of_ne.
  by rewrite Math_round_Z.
Qed.

(** ** Resting orders, the tick grid, order ids and the tape *)

Lemma Math_min_pos (a c : Qc) : 0 < a → 0 < c → 0 < Math_min a c.
Proof. intros Ha Hc. unfold Math_min. by case_bool_decide. Qed.

Lemma Qc_sub_le (a c : Qc) : 0 ≤ c → a - c ≤ a.
Proof.
  intros Hc. apply Qcle_minus_iff. replace (a + - (a - c)) with c by ring. done.
Qed.

(** What is left of a maker that a fill does not exhaust. *)
Lemma maker_left_pos (l m : Qc) :
  0 < l → m - Math_min l m ≠ 0 → 0 < m - Math_min l m.
Proof.
  intros Hl Hne. unfold Math_min in *. case_bool_decide as Hlt.
  - destruct Hne. apply Qc_sub_diag.
  - apply Qcnot_lt_le in Hlt.
    destruct (Qcle_lt_or_eq _ _ Hlt) as [Hlt' | Heq].
    + apply Qclt_minus_iff in Hlt'. exact Hlt'.
    + destruct Hne. rewrite Heq. apply Qc_sub_diag.
Qed.

Lemma resting_ok_fill seq l maker :
  0 < l → resting_ok seq maker →
  Order.leaves maker - Math_min l (Order.leaves maker) ≠ 0 →
  resting_ok seq
    (Order.set_leaves (Order.leaves maker - Math_min l (Order.leaves maker)) maker).
Proof.
  intros Hl (Hpos & Hle & Hid) Hne. split; [|split]; cbn.
  - by apply maker_left_pos.
  - etrans; [|exact Hle]. apply Qc_sub_le, Qclt_le_weak. by apply Math_min_pos.
  - done.
Qed.

Lemma match_level_ok seq fuel now px o q b o' q' b' ts :
  match_level fuel now px o q b = Some (o', q', b', ts) →
  Forall (resting_ok seq) q →
  Forall (resting_ok seq) q' ∧ Order.leaves o' ≤ Order.leaves o.
Proof.
  apply (match_level_cases now px (λ o q _ o' q' _ _,
    Forall (resting_ok seq) q →
    Forall (resting_ok seq) q' ∧ Order.leaves o' ≤ Order.leaves o)); clear.
  - intros. split; [done | apply Qcle_refl].
  - intros o maker rest b b1 Hl _ Hq. split; [done|]. cbn. by apply Qclt_le_weak.
  - intros o maker rest b b1 trade b2 o' q' b' ts tq maker1 Hl _ _ IH Hq.
    apply Forall_cons in Hq as [Hm Hrest].
    destruct IH as [Hq' Hle].
    { case_bool_decide as Hz; [done|]. constructor; [|done].
      by apply resting_ok_fill. }
    split; [done|]. etrans; [exact Hle|]. cbn.
    apply Qc_sub_le, Qclt_le_weak, Math_min_pos; [done | apply Hm].
Qed.

Lemma take_loop_ok seq fuel now u s px r q b r' q' b' ts :
  take_loop fuel now u s px r q b = Some (r', q', b', ts) →
  Forall (resting_ok seq) q → Forall (resting_ok seq) q'.
Proof.
  apply (take_loop_cases now u s px (λ _ q _ _ q' _ _,
    Forall (resting_ok seq) q → Forall (resting_ok seq) q')); clear.
  - done.
  - done.
  - intros r maker rest b b1 trade b2 r' q' b' ts tq maker1 Hr _ _ IH Hq.
    apply Forall_cons in Hq as [Hm Hrest]. apply IH.
    case_bool_decide as Hz; [done|]. constructor; [|done].
    by apply resting_ok_fill.
Qed.

(** The tape. *)
Lemma recordTrade_length t b :
  (length (trades b) ≤ 1000)%nat → (length (trades (_recordTrade t b)) ≤ 1000)%nat.
Proof.
  intros H. unfold _recordTrade. cbn. case_bool_decide as Hlen.
  - destruct (trades b) as [|t0 l]; cbn in *; [lia|]. rewrite length_app. cbn. lia.
  - rewrite length_app in *. cbn in *. lia.
Qed.

Lemma settle_fill_length now s u maker px tq b :
  (length (trades b) ≤ 1000)%nat →
  (length (trades (settle_fill now s u maker px tq b).2) ≤ 1000)%nat.
Proof. intros H. unfold settle_fill. cbv zeta. cbn [snd]. by apply recordTrade_length. Qed.

Lemma match_level_tape fuel now px o q b o' q' b' ts :
  match_level fuel now px o q b = Some (o', q', b', ts) →
  (length (trades b) ≤ 1000)%nat → (length (trades b') ≤ 1000)%nat.
Proof.
  apply (match_level_cases now px (λ _ _ b _ _ b' _,
    (length (trades b) ≤ 1000)%nat → (length (trades b') ≤ 1000)%nat)); clear.
  - done.
  - intros o maker rest b b1 _ Hchk.
    pose proof (checkPosLimit_trades (Order.userId o) (Order.side o)
      (Math_min (Order.leaves o) (Order.leaves maker)) b) as H.
    rewrite Hchk in H. cbn in H. by rewrite H.
  - intros o maker rest b b1 trade b2 o' q' b' ts tq maker1 _ Hchk Hfill IH Hb.
    apply IH.
    pose proof (checkPosLimit_trades (Order.userId o) (Order.side o) tq b) as H1.
    rewrite Hchk in H1. cbn in H1.
    pose proof (settle_fill_length now (Order.side o) (Order.userId o) maker px tq b1) as H2.
    rewrite Hfill in H2. cbn in H2. apply H2. by rewrite H1.
Qed.

Lemma take_loop_tape fuel now u s px r q b r' q' b' ts :
  take_loop fuel now u s px r q b = Some (r', q', b', ts) →
  (length (trades b) ≤ 1000)%nat → (length (trades b') ≤ 1000)%nat.
Proof.
  apply (take_loop_cases now u s px (λ _ _ b _ _ b' _,
    (length (trades b) ≤ 1000)%nat → (length (trades b') ≤ 1000)%nat)); clear.
  - done.
  - intros r maker rest b b1 _ Hchk.
    pose proof (checkPosLimit_trades u s (Math_min r (Order.leaves maker)) b) as H.
    rewrite Hchk in H. cbn in H. by rewrite H.
  - intros r maker rest b b1 trade b2 r' q' b' ts tq maker1 _ Hchk Hfill IH Hb.
    apply IH.
    pose proof (checkPosLimit_trades u s tq b) as H1.
    rewrite Hchk in H1. cbn in H1.
    pose proof (settle_fill_length now s u maker px tq b1) as H2.
    rewrite Hfill in H2. cbn in H2. apply H2. by rewrite H1.
Qed.

(** Side maps. *)
Lemma levels_ok_empty tick seq : levels_ok tick seq ∅.
Proof. intros k q. by rewrite lookup_empty. Qed.

Lemma levels_ok_insert tick seq (m : gmap Qc (list Order.t)) px q :
  snapToTick px tick = px → Forall (resting_ok seq) q →
  levels_ok tick seq m → levels_ok tick seq (<[px := q]> m).
Proof.
  intros Hpx Hq Hm k q'. rewrite lookup_insert. case_decide as Hk.
  - intros [= <-]. by subst k.
  - apply Hm.
Qed.

Lemma levels_ok_delete tick seq (m : gmap Qc (list Order.t)) px :
  levels_ok tick seq m → levels_ok tick seq (delete px m).
Proof.
  intros Hm k q'. rewrite lookup_delete. case_decide; [done | apply Hm].
Qed.

Lemma levels_ok_close tick seq px q q' (m : gmap Qc (list Order.t)) :
  m !! px = Some q → Forall (resting_ok seq) q' →
  levels_ok tick seq m → levels_ok tick seq (close_level px q' m).
Proof.
  intros Hq Hq' Hm. unfold close_level. case_bool_decide.
  - by apply levels_ok_delete.
  - apply levels_ok_insert; [|done..]. by destruct (Hm px q Hq).
Qed.

Lemma resting_ok_mono seq seq' o : (seq ≤ seq')%Z → resting_ok seq o → resting_ok seq' o.
Proof. intros Hs (?&?&?). repeat split; [done..|lia]. Qed.

Lemma levels_ok_mono tick seq seq' (m : gmap Qc (list Order.t)) :
  (seq ≤ seq')%Z → levels_ok tick seq m → levels_ok tick seq' m.
Proof.
  intros Hs Hm k q Hq. destruct (Hm k q Hq) as [Hk Hall]. split; [done|].
  eapply Forall_impl; [exact Hall|]. intros o. by apply resting_ok_mono.
Qed.

Lemma levels_ok_push tick seq (m : gmap Qc (list Order.t)) o :
  snapToTick (Order.price o) tick = Order.price o → resting_ok seq o →
  levels_ok tick seq m → levels_ok tick seq (pushAtPrice m (Order.price o) o).
Proof.
  intros Hpx Ho Hm. unfold pushAtPrice. case_bool_decide as Hs.
  - destruct Hs as [q Hq]. rewrite Hq. cbn.
    apply levels_ok_insert; [done| |done].
    apply Forall_app. split; [by destruct (Hm _ _ Hq) | by constructor].
  - rewrite lookup_insert_eq, insert_insert_eq. cbn.
    apply levels_ok_insert; [done | by constructor | done].
Qed.

Lemma book_ok_frame b b' :
  same_frame b b' → (length (trades b') ≤ 1000)%nat → book_ok b → book_ok b'.
Proof.
  intros (_&Ht&_&Hb&Ha&Hs) Hlen (?&?&?). unfold book_ok. by rewrite Ht, Hb, Ha, Hs.
Qed.

Lemma book_ok_makerMap s b :
  book_ok b → levels_ok (tickSize b) (orderIdSeq b) (makerMap s b).
Proof. intros (?&?&?). unfold makerMap. by destruct (is_buy s). Qed.

Lemma book_ok_ownMap s b :
  book_ok b → levels_ok (tickSize b) (orderIdSeq b) (ownMap s b).
Proof. intros (?&?&?). unfold ownMap. by destruct (is_buy s). Qed.

Lemma book_ok_set_makerMap s m b :
  levels_ok (tickSize b) (orderIdSeq b) m → book_ok b → book_ok (set_makerMap s m b).
Proof. intros ? (?&?&?). unfold set_makerMap. by destruct (is_buy s). Qed.

Lemma book_ok_set_ownMap s m b :
  levels_ok (tickSize b) (orderIdSeq b) m → book_ok b → book_ok (set_ownMap s m b).
Proof. intros ? (?&?&?). unfold set_ownMap. by destruct (is_buy s). Qed.

Lemma match_loop_ok fuel now o b o' b' ts :
  match_loop fuel now o b = Some (o', b', ts) →
  book_ok b → book_ok b' ∧ Order.leaves o' ≤ Order.leaves o.
Proof.
  apply (match_loop_cases now (λ o b o' b' _,
    book_ok b → book_ok b' ∧ Order.leaves o' ≤ Order.leaves o)); clear.
  - intros. split; [done | apply Qcle_refl].
  - intros o b px q o1 q1 b1 ts1 o' b' ts2 side m _ _ _ Hq Hlvl IH Hb.
    pose proof (match_level_frame _ _ _ _ _ _ _ _ _ _ Hlvl) as Hf.
    pose proof (book_ok_makerMap side b Hb) as Hm. fold m in Hm.
    destruct (Hm px q Hq) as [Hpx Hall].
    destruct (match_level_ok (orderIdSeq b) _ _ _ _ _ _ _ _ _ _ Hlvl Hall) as [Hq1 Hle1].
    assert (book_ok b1) as Hb1.
    { eapply book_ok_frame; [done| |done].
      eapply match_level_tape; [done|]. by destruct Hb as (_&_&?). }
    destruct IH as [Hb' Hle'].
    { apply book_ok_set_makerMap; [|done].
      destruct Hf as (_&->&_&_&_&->). by eapply levels_ok_close. }
    split; [done|]. by etrans.
Qed.

Lemma same_order_qty o o' : same_order o o' → Order.qty o' = Order.qty o.
Proof. by intros ->. Qed.

Lemma same_order_id o o' : same_order o o' → Order.id o' = Order.id o.
Proof. by intros ->. Qed.

Lemma match_loop_order fuel now o b o' b' ts :
  match_loop fuel now o b = Some (o', b', ts) → same_order o o'.
Proof.
  apply (match_loop_cases now (λ o _ o' _ _, same_order o o')); clear.
  - intros. apply same_order_refl.
  - intros o b px q o1 q1 b1 ts1 o' b' ts2 side m _ _ _ _ Hlvl IH.
    apply match_level_order in Hlvl. rewrite Hlvl in IH.
    by eapply same_order_set_leaves.
Qed.

(** Matching writes to the maker side, the ledger and the tape only. *)
Lemma match_loop_meta fuel now o b o' b' ts :
  match_loop fuel now o b = Some (o', b', ts) →
  symbol b' = symbol b ∧ tickSize b' = tickSize b ∧ posLimit b' = posLimit b ∧
  orderIdSeq b' = orderIdSeq b ∧ ownMap (Order.side o) b' = ownMap (Order.side o) b.
Proof.
  apply (match_loop_cases now (λ o b _ b' _,
    symbol b' = symbol b ∧ tickSize b' = tickSize b ∧ posLimit b' = posLimit b ∧
    orderIdSeq b' = orderIdSeq b ∧ ownMap (Order.side o) b' = ownMap (Order.side o) b)); clear.
  - done.
  - intros o b px q o1 q1 b1 ts1 o' b' ts2 side m _ _ _ _ Hlvl (H1&H2&H3&H4&H5).
    pose proof (match_level_frame _ _ _ _ _ _ _ _ _ _ Hlvl) as Hf.
    pose proof (same_frame_ownMap side _ _ Hf) as Hown.
    rewrite (same_order_side _ _ (match_level_order _ _ _ _ _ _ _ _ _ _ Hlvl)) in H5.
    fold side in H5. rewrite ownMap_set_makerMap in H5.
    destruct Hf as (F1&F2&F3&_&_&F6).
    assert (∀ m', symbol (set_makerMap side m' b1) = symbol b1 ∧
                  tickSize (set_makerMap side m' b1) = tickSize b1 ∧
                  posLimit (set_makerMap side m' b1) = posLimit b1 ∧
                  orderIdSeq (set_makerMap side m' b1) = orderIdSeq b1) as Hset
      by (intros m'; unfold set_makerMap; by destruct (is_buy side)).
    destruct (Hset (close_level px q1 m)) as (S1&S2&S3&S4).
    rewrite S1 in H1. rewrite S2 in H2. rewrite S3 in H3. rewrite S4 in H4.
    repeat split; [congruence..|]. etrans; [exact H5 | exact Hown].
Qed.

Lemma placeLimit_ok now u s p q b r b' ts :
  placeLimit now u s p q b = Some (r, b', ts) → book_ok b → book_ok b'.
Proof.
  unfold placeLimit. rewrite checkPosLimit_eq. intros Hrun Hb.
  assert (book_ok (set_positions (touch u (positions b)) b)) as Hb1 by exact Hb.
  case_bool_decide; cbn in Hrun; [|by simplify_eq].
  destruct (_matchIncoming _ _ _) as [[[o' b3] ts3]|] eqn:Hm; cbn in Hrun; [|done].
  pose proof (match_loop_order _ _ _ _ _ _ _ Hm) as Ho.
  destruct (match_loop_meta _ _ _ _ _ _ _ Hm) as (_&Htick&_&Hseq&_).
  apply match_loop_ok in Hm as [Hb3 Hle].
  2:{ destruct Hb1 as (Hbids&Hasks&Hlen). split; [|split; [|exact Hlen]]; cbn in *.
      - eapply levels_ok_mono; [|exact Hbids]. lia.
      - eapply levels_ok_mono; [|exact Hasks]. lia. }
  simplify_eq. case_bool_decide as Hleft; [|done].
  apply book_ok_set_ownMap; [|done].
  apply levels_ok_push; [| |by apply book_ok_ownMap].
  - rewrite (same_order_price _ _ Ho), Htick. cbn. apply snapToTick_fixed.
  - rewrite Hseq. split; [done|]. split.
    + rewrite (same_order_qty _ _ Ho). exact Hle.
    + rewrite (same_order_id _ _ Ho). cbn. lia.
Qed.

Lemma takeAtPrice_ok now u s p mq b r b' ts :
  takeAtPrice now u s p mq b = Some (r, b', ts) → book_ok b → book_ok b'.
Proof.
  unfold takeAtPrice. intros Hrun Hb.
  destruct (makerMap s b !! _) as [q|] eqn:Hq; [|by simplify_eq].
  case_bool_decide; [by simplify_eq|].
  destruct (take_loop _ _ _ _ _ _ _ _) as [[[[r1 q1] b1] ts1]|] eqn:Hl; cbn in Hrun; [|done].
  simplify_eq.
  pose proof (take_loop_frame _ _ _ _ _ _ _ _ _ _ _ _ Hl) as Hf.
  pose proof (book_ok_makerMap s b Hb) as Hm.
  destruct (Hm _ _ Hq) as [Hpx Hall].
  assert (book_ok b1) as Hb1.
  { eapply book_ok_frame; [done| |done].
    eapply take_loop_tape; [done|]. by destruct Hb as (_&_&?). }
  apply book_ok_set_makerMap; [|done].
  destruct Hf as (_&->&_&_&_&->). eapply levels_ok_close; [done| |done].
  by eapply take_loop_ok.
Qed.

Lemma cancelAtPrice_ok u s p b : book_ok b → book_ok (cancelAtPrice u s p b).2.
Proof.
  intros Hb. unfold cancelAtPrice.
  destruct (ownMap s b !! _) as [q|] eqn:Hq; [|done]. cbn.
  pose proof (book_ok_ownMap s b Hb) as Hm. destruct (Hm _ _ Hq) as [Hpx Hall].
  apply book_ok_set_ownMap; [|done]. case_bool_decide.
  - apply levels_ok_insert; [done| |done].
    apply Forall_forall. intros o [_ Ho]%list_elem_of_filter.
    rewrite Forall_forall in Hall. by apply Hall.
  - by apply levels_ok_delete.
Qed.

Lemma call_ok c b b' : call c b = Some b' → book_ok b → book_ok b'.
Proof.
  destruct c as [now u s p q | now u s p q | u s p | u]; cbn.
  - destruct (placeLimit _ _ _ _ _ _) as [[[r b1] ts]|] eqn:H; cbn; [|done].
    intros [= <-]. by eapply placeLimit_ok.
  - destruct (takeAtPrice _ _ _ _ _ _) as [[[r b1] ts]|] eqn:H; cbn; [|done].
    intros [= <-]. by eapply takeAtPrice_ok.
  - intros [= <-]. by apply cancelAtPrice_ok.
  - intros [= <-] Hb. exact Hb.
Qed.

Lemma run_ok cs b b' : run cs b = Some b' → book_ok b → book_ok b'.
Proof.
  revert b. induction cs as [|c cs IH]; intros b; cbn; [by intros [= <-]|].
  destruct (call c b) as [b1|] eqn:Hc; cbn; [|done].
  intros Hr Hb. eapply IH; [done|]. by eapply call_ok.
Qed.

Lemma book_ok_new sym tick limit : book_ok (new_OrderBook sym tick limit).
Proof. split; [apply levels_ok_empty | split; [apply levels_ok_empty | cbn; lia]]. Qed.

(** X4. In a book that started empty, after any sequence of calls every
    resting order has something left and not more than its original
    quantity: 0 < leaves <= qty. *)
Theorem X4_resting_leaves (sym : string) (tick limit : Qc) (cs : list Call) :
  ∃ b, run cs (new_OrderBook sym tick limit) = Some b ∧
       ∀ k q o, bids b !! k = Some q ∨ asks b !! k = Some q → o ∈ q →
                0 < Order.leaves o ∧ Order.leaves o ≤ Order.qty o.
Proof.
  destruct (run_total cs (new_OrderBook sym tick limit)) as [b Hrun].
  exists b. split; [done|].
  destruct (run_ok _ _ _ Hrun (book_ok_new _ _ _)) as (Hb & Ha & _).
  intros k q o Hq Ho.
  assert (Forall (resting_ok (orderIdSeq b)) q) as Hall
    by (destruct Hq as [Hq | Hq]; [by destruct (Hb _ _ Hq) | by destruct (Ha _ _ Hq)]).
  rewrite Forall_forall in Hall. destruct (Hall o Ho) as (?&?&?). done.
Qed.

(** X6. In a book that started empty, the id of every resting order is
    below the id counter, and the tape never holds more than 1000 trades. *)
Theorem X6_ids_and_tape (sym : string) (tick limit : Qc) (cs : list Call) :
  ∃ b, run cs (new_OrderBook sym tick limit) = Some b ∧
       (∀ k q o, bids b !! k = Some q ∨ asks b !! k = Some q → o ∈ q →
                 (Order.id o < orderIdSeq b)%Z) ∧
       (length (trades b) ≤ 1000)%nat.
Proof.
  destruct (run_total cs (new_OrderBook sym tick limit)) as [b Hrun].
  exists b. split; [done|].
  destruct (run_ok _ _ _ Hrun (book_ok_new _ _ _)) as (Hb & Ha & Hlen).
  split; [|done]. intros k q o Hq Ho.
  assert (Forall (resting_ok (orderIdSeq b)) q) as Hall
    by (destruct Hq as [Hq | Hq]; [by destruct (Hb _ _ Hq) | by destruct (Ha _ _ Hq)]).
  rewrite Forall_forall in Hall. destruct (Hall o Ho) as (?&?&?). done.
Qed.

(** ** The book is never crossed *)

(** The outer loop again, with the reason why it stops. *)
Section match_loop_stops.
Context (now : Z).
Context (R : Order.t → OrderBook → Order.t → OrderBook → list Trade.t → Prop).

Hypothesis R_filled : ∀ o b, ¬ 0 < Order.leaves o → R o b o b [].
Hypothesis R_empty : ∀ o b, makerMap (Order.side o) b = ∅ → R o b o b [].
Hypothesis R_apart : ∀ o b px,
  best (Order.side o) (makerMap (Order.side o) b) = Some px →
  crosses (Order.side o) (Order.price o) px = false → R o b o b [].
Hypothesis R_level : ∀ o b px q o1 q1 b1 ts1 o' b' ts2,
  let side := Order.side o in
  let m := makerMap side b in
  0 < Order.leaves o →
  best side m = Some px →
  crosses side (Order.price o) px = true →
  m !! px = Some q →
  match_level (S (length q)) now px o q b = Some (o1, q1, b1, ts1) →
  R o1 (set_makerMap side (close_level px q1 m) b1) o' b' ts2 →
  R o b o' b' (ts1 ++ ts2).

Lemma match_loop_stops fuel o b o' b' ts :
  match_loop fuel now o b = Some (o', b', ts) → R o b o' b' ts.
Proof.
  revert o b o' b' ts.
  induction fuel as [|fuel IH]; intros o b o' b' ts Hrun.
  - destruct (decide (0 < Order.leaves o)) as [Hl | Hl].
    2:{ rewrite match_loop_done in Hrun by done. simplify_eq. by apply R_filled. }
    change (match_loop 0 now o b)
      with (if bool_decide (0 < Order.leaves o)
               && bool_decide (0 < size (makerMap (Order.side o) b))%nat
            then None else Some (o, b, @nil Trade.t)) in Hrun.
    rewrite (bool_decide_eq_true_2 (0 < Order.leaves o)) in Hrun by done.
    case_bool_decide as Hsz; cbn in Hrun; [done|].
    simplify_eq. apply R_empty. apply map_size_empty_iff. lia.
  - rewrite match_loop_S in Hrun. cbv zeta in Hrun.
    destruct (bool_decide (0 < Order.leaves o)) eqn:Hl; cbn in Hrun;
      [|simplify_eq; apply R_filled; by apply bool_decide_eq_false in Hl].
    apply bool_decide_eq_true in Hl.
    case_bool_decide as Hsz; cbn in Hrun.
    2:{ simplify_eq. apply R_empty. apply map_size_empty_iff. lia. }
    destruct (best _ _) as [px|] eqn:Hbest;
      [|simplify_eq; apply R_empty; by eapply best_None].
    destruct (crosses _ _ _) eqn:Hcross; cbn in Hrun;
      [|simplify_eq; by eapply R_apart].
    destruct (makerMap _ _ !! px) as [q|] eqn:Hq; cbn in Hrun; [|done].
    destruct (match_level _ _ _ _ _ _) as [[[[o1 q1] b1] ts1]|] eqn:Hlvl;
      cbn in Hrun; [|done].
    destruct (match_loop fuel _ _ _) as [[[o2 b2] ts2]|] eqn:Hrec; cbn in Hrun; [|done].
    simplify_eq. eapply R_level; eauto.
Qed.
End match_loop_stops.

Lemma keys_within_refl (m : gmap Qc (list Order.t)) : keys_within m m.
Proof. by intros k. Qed.

Lemma keys_within_trans (m1 m2 m3 : gmap Qc (list Order.t)) :
  keys_within m1 m2 → keys_within m2 m3 → keys_within m1 m3.
Proof. intros H12 H23 k Hk. by apply H23, H12. Qed.

Lemma keys_within_close px q q' (m : gmap Qc (list Order.t)) :
  m !! px = Some q → keys_within (close_level px q' m) m.
Proof.
  intros Hq k. unfold close_level. case_bool_decide.
  - rewrite lookup_delete. by case_decide; [intros [? ?]|].
  - rewrite lookup_insert. case_decide as Hk; [|done]. subst k. by eexists.
Qed.

Lemma keys_within_filter px q (m : gmap Qc (list Order.t)) (P : Order.t → Prop)
    `{!∀ o, Decision (P o)} :
  m !! px = Some q →
  keys_within
    (if bool_decide (filter P q ≠ []) then <[px := filter P q]> m else delete px m) m.
Proof.
  intros Hq k. case_bool_decide.
  - rewrite lookup_insert. case_decide as Hk; [|done]. subst k. by eexists.
  - rewrite lookup_delete. by case_decide; [intros [? ?]|].
Qed.

Lemma uncrossed_within b b' :
  keys_within (bids b') (bids b) → keys_within (asks b') (asks b) →
  uncrossed b → uncrossed b'.
Proof. intros Hb Ha H kb ka Hkb Hka. by apply H; [apply Hb | apply Ha]. Qed.

(** The two side maps, seen from an order of side [s]. *)
Lemma sides_within s b b' :
  keys_within (makerMap s b') (makerMap s b) → keys_within (ownMap s b') (ownMap s b) →
  keys_within (bids b') (bids b) ∧ keys_within (asks b') (asks b).
Proof. unfold makerMap, ownMap. destruct (is_buy s); tauto. Qed.

Lemma match_loop_within fuel now o b o' b' ts :
  match_loop fuel now o b = Some (o', b', ts) →
  keys_within (makerMap (Order.side o) b') (makerMap (Order.side o) b).
Proof.
  apply (match_loop_cases now (λ o b _ b' _,
    keys_within (makerMap (Order.side o) b') (makerMap (Order.side o) b))); clear.
  - intros. apply keys_within_refl.
  - intros o b px q o1 q1 b1 ts1 o' b' ts2 side m _ _ _ Hq Hlvl IH.
    rewrite (same_order_side _ _ (match_level_order _ _ _ _ _ _ _ _ _ _ Hlvl)) in IH.
    fold side in IH. rewrite makerMap_set_makerMap in IH.
    eapply keys_within_trans; [exact IH|]. by eapply keys_within_close.
Qed.

Lemma crosses_buy s price px :
  is_buy s = true → crosses s price px = bool_decide (px ≤ price).
Proof.
  intros Hb. unfold crosses. rewrite Hb.
  assert (is_sell s = false) as ->; [|cbn; by rewrite orb_false_r].
  unfold is_buy, is_sell in *. apply bool_decide_eq_true in Hb.
  apply bool_decide_eq_false. by rewrite Hb.
Qed.

Lemma crosses_sell s price px :
  is_buy s = false → is_sell s = true → crosses s price px = bool_decide (price ≤ px).
Proof. intros Hb Hs. unfold crosses. by rewrite Hb, Hs. Qed.

Lemma crosses_other s price px :
  is_buy s = false → is_sell s = false → crosses s price px = false.
Proof. intros Hb Hs. unfold crosses. by rewrite Hb, Hs. Qed.

(** When the loop stops with something left of the order, nothing that
    rests on the other side crosses its price. *)
Lemma match_loop_apart fuel now o b o' b' ts :
  match_loop fuel now o b = Some (o', b', ts) →
  0 < Order.leaves o' →
  ∀ k, is_Some (makerMap (Order.side o) b' !! k) →
       crosses (Order.side o) (Order.price o) k = false.
Proof.
  apply (match_loop_stops now (λ o _ o' b' _,
    0 < Order.leaves o' →
    ∀ k, is_Some (makerMap (Order.side o) b' !! k) →
         crosses (Order.side o) (Order.price o) k = false)); clear.
  - intros o b Hl Hl'. done.
  - intros o b He _ k. rewrite He, lookup_empty. by intros [? ?].
  - intros o b px Hbest Hcross _ k Hk. unfold best in Hbest.
    destruct (is_buy (Order.side o)) eqn:Hbuy.
    + rewrite crosses_buy in * by done.
      apply bool_decide_eq_false in Hcross. apply bool_decide_eq_false.
      intros Hle. apply Hcross. etrans; [|exact Hle]. by eapply bestAsk_lowest.
    + destruct (is_sell (Order.side o)) eqn:Hsell; [|by apply crosses_other].
      rewrite crosses_sell in * by done.
      apply bool_decide_eq_false in Hcross. apply bool_decide_eq_false.
      intros Hle. apply Hcross. etrans; [exact Hle|]. by eapply bestBid_highest.
  - intros o b px q o1 q1 b1 ts1 o' b' ts2 side m _ _ _ _ Hlvl IH Hl' k Hk.
    pose proof (match_level_order _ _ _ _ _ _ _ _ _ _ Hlvl) as Ho.
    rewrite (same_order_side _ _ Ho), (same_order_price _ _ Ho) in IH.
    by apply IH.
Qed.

Lemma keys_push (m : gmap Qc (list Order.t)) p o k :
  is_Some (pushAtPrice m p o !! k) → k = p ∨ is_Some (m !! k).
Proof.
  unfold pushAtPrice. rewrite lookup_insert. case_decide as Hk; [by left|].
  case_bool_decide; [by right|]. rewrite lookup_insert_ne by done. by right.
Qed.

Lemma placeLimit_uncrossed now u s p q b r b' ts :
  is_buy s || is_sell s = true →
  placeLimit now u s p q b = Some (r, b', ts) → uncrossed b → uncrossed b'.
Proof.
  intros Hside. unfold placeLimit. rewrite checkPosLimit_eq. intros Hrun Hb.
  case_bool_decide; cbn in Hrun; [|by simplify_eq].
  destruct (_matchIncoming _ _ _) as [[[o' b3] ts3]|] eqn:Hm; cbn in Hrun; [|done].
  pose proof (match_loop_order _ _ _ _ _ _ _ Hm) as Ho.
  pose proof (match_loop_within _ _ _ _ _ _ _ Hm) as Hwithin.
  pose proof (match_loop_apart _ _ _ _ _ _ _ Hm) as Hapart.
  destruct (match_loop_meta _ _ _ _ _ _ _ Hm) as (_&_&_&_&Hown).
  cbn in Hwithin, Hapart, Hown.
  assert (uncrossed b3) as Hb3.
  { destruct (sides_within s (set_positions (touch u (positions b)) b) b3) as [Hbk Hak].
    - unfold makerMap in *. by destruct (is_buy s).
    - unfold ownMap in *. destruct (is_buy s); cbn in *; rewrite Hown; apply keys_within_refl.
    - by apply (uncrossed_within b b3). }
  simplify_eq. case_bool_decide as Hleft; [|done].
  specialize (Hapart Hleft). rewrite (same_order_price _ _ Ho). cbn.
  set (P := snapToTick p (tickSize b)) in *.
  intros kb ka Hkb Hka. unfold set_ownMap, ownMap, makerMap in *.
  destruct (is_buy s) eqn:Hbuy; cbn in *.
  - apply keys_push in Hkb as [-> | Hkb]; [|by apply Hb3].
    specialize (Hapart ka Hka). rewrite crosses_buy in Hapart by done.
    apply bool_decide_eq_false in Hapart. by apply Qcnot_le_lt.
  - apply keys_push in Hka as [-> | Hka]; [|by apply Hb3].
    specialize (Hapart kb Hkb). rewrite crosses_sell in Hapart by done.
    apply bool_decide_eq_false in Hapart. by apply Qcnot_le_lt.
Qed.

Lemma takeAtPrice_within now u s p mq b r b' ts :
  takeAtPrice now u s p mq b = Some (r, b', ts) →
  keys_within (bids b') (bids b) ∧ keys_within (asks b') (asks b).
Proof.
  unfold takeAtPrice. intros Hrun.
  destruct (makerMap s b !! _) as [q|] eqn:Hq;
    [|simplify_eq; split; apply keys_within_refl].
  case_bool_decide; [simplify_eq; split; apply keys_within_refl|].
  destruct (take_loop _ _ _ _ _ _ _ _) as [[[[r1 q1] b1] ts1]|] eqn:Hl; cbn in Hrun; [|done].
  simplify_eq. pose proof (take_loop_frame _ _ _ _ _ _ _ _ _ _ _ _ Hl) as Hf.
  apply (sides_within s).
  - rewrite makerMap_set_makerMap. by eapply keys_within_close.
  - rewrite ownMap_set_makerMap, (same_frame_ownMap s b b1 Hf). apply keys_within_refl.
Qed.

Lemma cancelAtPrice_within u s p b :
  keys_within (bids (cancelAtPrice u s p b).2) (bids b) ∧
  keys_within (asks (cancelAtPrice u s p b).2) (asks b).
Proof.
  unfold cancelAtPrice.
  destruct (ownMap s b !! _) as [q|] eqn:Hq; [|split; apply keys_within_refl]. cbn.
  apply (sides_within s).
  - rewrite makerMap_set_ownMap. apply keys_within_refl.
  - rewrite ownMap_set_ownMap. by apply keys_within_filter.
Qed.

Lemma call_uncrossed c b b' :
  sided c = true → call c b = Some b' → uncrossed b → uncrossed b'.
Proof.
  destruct c as [now u s p q | now u s p q | u s p | u]; cbn; intros Hs.
  - destruct (placeLimit _ _ _ _ _ _) as [[[r b1] ts]|] eqn:H; cbn; [|done].
    intros [= <-]. by eapply placeLimit_uncrossed.
  - destruct (takeAtPrice _ _ _ _ _ _) as [[[r b1] ts]|] eqn:H; cbn; [|done].
    intros [= <-]. apply takeAtPrice_within in H as [??]. by apply uncrossed_within.
  - intros [= <-]. destruct (cancelAtPrice_within u s p b). by apply uncrossed_within.
  - by intros [= <-].
Qed.

Lemma run_uncrossed cs b b' :
  forallb sided cs = true → run cs b = Some b' → uncrossed b → uncrossed b'.
Proof.
  revert b. induction cs as [|c cs IH]; intros b; cbn; [by intros _ [= <-]|].
  intros [Hc Hcs]%andb_true_iff.
  destruct (call c b) as [b1|] eqn:Hcall; cbn; [|done].
  intros Hr Hb. eapply IH; [done..|]. by eapply call_uncrossed.
Qed.

(** X7. The book is never crossed: in a book that started empty, after any
    sequence of calls in which orders are placed on side 'buy' or 'sell'
    only (what the dispatcher lets through), every bid price is strictly
    below every ask price; so the best bid is below the best ask. *)
Theorem X7_book_not_crossed (sym : string) (tick limit : Qc) (cs : list Call) (b : OrderBook) :
  forallb sided cs = true →
  run cs (new_OrderBook sym tick limit) = Some b →
  (∀ kb ka, is_Some (bids b !! kb) → is_Some (asks b !! ka) → kb < ka) ∧
  (∀ bb ba, bestBid (bids b) = Some bb → bestAsk (asks b) = Some ba → bb < ba).
Proof.
  intros Hcs Hrun.
  assert (uncrossed b) as Hb.
  { eapply run_uncrossed; [done..|]. intros kb ka [? Hkb]. cbn in Hkb.
    by rewrite lookup_empty in Hkb. }
  split; [exact Hb|]. intros bb ba Hbb Hba. apply Hb.
  - by apply (best_Some_lookup "sell").
  - by apply (best_Some_lookup "buy").
Qed.

Lemma X7_book_not_crossed_witness :
  bestBid (bids book_two_sided) = Some (num_of_Z 9) ∧
  bestAsk (asks book_two_sided) = Some (num_of_Z 10) ∧
  num_of_Z 9 < num_of_Z 10.
Proof.
  split; [by_eval|]. split; [by_eval|].
  destruct (X7_book_not_crossed "A" (Q2Qc (1 # 10)) (num_of_Z 100) two_sided_calls
              book_two_sided) as [_ H].
  - reflexivity.
  - by_eval.
  - apply H; by_eval.
Defined.

(** ** Best prices *)

(** X8. bestAsk returns null exactly on an empty map, and otherwise a key
    of the map that no key is below; bestBid likewise returns null exactly
    on an empty map, and otherwise a key that no key is above. *)
Theorem X8_best_prices (m : gmap Qc (list Order.t)) :
  match bestAsk m with
  | None => m = ∅
  | Some px => is_Some (m !! px) ∧ ∀ k, is_Some (m !! k) → px ≤ k
  end ∧
  match bestBid m with
  | None => m = ∅
  | Some px => is_Some (m !! px) ∧ ∀ k, is_Some (m !! k) → k ≤ px
  end.
Proof.
  split.
  - destruct (bestAsk m) as [px|] eqn:H.
    + split; [by apply (best_Some_lookup "buy") | intros k; by apply bestAsk_lowest].
    + by apply (best_None "buy").
  - destruct (bestBid m) as [px|] eqn:H.
    + split; [by apply (best_Some_lookup "sell") | intros k; by apply bestBid_highest].
    + by apply (best_None "sell").
Qed.

(** ** Time priority *)

Lemma ident_set_leaves l o : ident (Order.set_leaves l o) = ident o.
Proof. done. Qed.

Lemma maker_of_fill now s u maker px tq b :
  maker_of s (settle_fill now s u maker px tq b).1 = Order.userId maker.
Proof.
  rewrite settle_fill_trade. unfold maker_of. cbn.
  destruct (is_buy s) eqn:Hb; [|done].
  assert (is_sell s = false) as ->; [|done].
  unfold is_buy, is_sell in *. apply bool_decide_eq_true in Hb.
  apply bool_decide_eq_false. by rewrite Hb.
Qed.

(** The inner loops consume the queue from its head: what is left is a
    suffix of it (the first order possibly partly filled), and the makers
    of the trades are the first orders of the queue, in order. *)
Lemma match_level_fifo fuel now px o q b o' q' b' ts :
  match_level fuel now px o q b = Some (o', q', b', ts) →
  (¬ 0 < Order.leaves o → ts = []) ∧
  suffix (ident <$> q') (ident <$> q) ∧
  maker_of (Order.side o) <$> ts = take (length ts) (Order.userId <$> q).
Proof.
  apply (match_level_cases now px (λ o q _ _ q' _ ts,
    (¬ 0 < Order.leaves o → ts = []) ∧
    suffix (ident <$> q') (ident <$> q) ∧
    maker_of (Order.side o) <$> ts = take (length ts) (Order.userId <$> q))); clear.
  - done.
  - done.
  - intros o maker rest b b1 trade b2 o' q' b' ts tq maker1 Hl _ Hfill (Hnil & Hsuf & Hmk).
    split; [done|].
    pose proof (maker_of_fill now (Order.side o) (Order.userId o) maker px tq b1) as Ht.
    rewrite Hfill in Ht. cbn in Ht.
    revert Hnil Hsuf Hmk. case_bool_decide as Hz; intros Hnil Hsuf Hmk; cbn in Hnil, Hmk.
    + split; [by apply suffix_cons_r|]. cbn. by rewrite Ht, Hmk.
    + rewrite Hnil.
      2:{ unfold tq. rewrite (fill_exhausts _ _ Hz). apply Qc_lt_irrefl. }
      split; [exact Hsuf|]. cbn. by rewrite Ht.
Qed.

Lemma take_loop_fifo fuel now u s px r q b r' q' b' ts :
  take_loop fuel now u s px r q b = Some (r', q', b', ts) →
  (¬ 0 < r → ts = []) ∧
  suffix (ident <$> q') (ident <$> q) ∧
  maker_of s <$> ts = take (length ts) (Order.userId <$> q).
Proof.
  apply (take_loop_cases now u s px (λ r q _ _ q' _ ts,
    (¬ 0 < r → ts = []) ∧
    suffix (ident <$> q') (ident <$> q) ∧
    maker_of s <$> ts = take (length ts) (Order.userId <$> q))); clear.
  - done.
  - done.
  - intros r maker rest b b1 trade b2 r' q' b' ts tq maker1 Hl _ Hfill (Hnil & Hsuf & Hmk).
    split; [done|].
    pose proof (maker_of_fill now s u maker px tq b1) as Ht.
    rewrite Hfill in Ht. cbn in Ht.
    revert Hnil Hsuf Hmk. case_bool_decide as Hz; intros Hnil Hsuf Hmk; cbn in Hnil, Hmk.
    + split; [by apply suffix_cons_r|]. cbn. by rewrite Ht, Hmk.
    + rewrite Hnil.
      2:{ unfold tq. rewrite (fill_exhausts _ _ Hz). apply Qc_lt_irrefl. }
      split; [exact Hsuf|]. cbn. by rewrite Ht.
Qed.

Lemma queue_at_close px q (m : gmap Qc (list Order.t)) k :
  queue_at (close_level px q m) k = if decide (k = px) then q else queue_at m k.
Proof.
  unfold queue_at. case_decide as Hk.
  - subst k. rewrite close_level_lookup_eq. by case_bool_decide; [subst q|].
  - by rewrite close_level_lookup_ne.
Qed.


Lemma match_loop_fifo fuel now o b o' b' ts :
  match_loop fuel now o b = Some (o', b', ts) →
  ∀ k, suffix (ident <$> queue_at (makerMap (Order.side o) b') k)
              (ident <$> queue_at (makerMap (Order.side o) b) k).
Proof.
  apply (match_loop_cases now (λ o b _ b' _,
    ∀ k, suffix (ident <$> queue_at (makerMap (Order.side o) b') k)
                (ident <$> queue_at (makerMap (Order.side o) b) k))); clear.
  - done.
  - intros o b px q o1 q1 b1 ts1 o' b' ts2 side m _ _ _ Hq Hlvl IH k.
    rewrite (same_order_side _ _ (match_level_order _ _ _ _ _ _ _ _ _ _ Hlvl)) in IH.
    fold side in IH. etrans; [apply IH|].
    rewrite makerMap_set_makerMap, queue_at_close. fold m. case_decide as Hk; [|done].
    subst k. unfold queue_at. fold side m. rewrite Hq. cbn.
    by apply match_level_fifo in Hlvl as (_ & Hsuf & _).
Qed.

Lemma queue_at_push (m : gmap Qc (list Order.t)) p o k :
  queue_at (pushAtPrice m p o) k
  = if decide (k = p) then queue_at m p ++ [o] else queue_at m k.
Proof.
  unfold queue_at, pushAtPrice. case_decide as Hk.
  - subst k. rewrite lookup_insert_eq. cbn. case_bool_decide as Hs; [done|].
    rewrite lookup_insert_eq. apply eq_None_not_Some in Hs. by rewrite Hs.
  - rewrite lookup_insert_ne by done. case_bool_decide; [done|].
    by rewrite lookup_insert_ne.
Qed.

#[global] Arguments pushAtPrice : simpl never.

(** ** The tape *)

Lemma lastn_all {A} n (l : list A) : (length l ≤ n)%nat → lastn n l = l.
Proof. intros H. unfold lastn. by replace (length l - n)%nat with 0%nat by lia. Qed.

Lemma lastn_app {A} n (l k : list A) : lastn n (lastn n l ++ k) = lastn n (l ++ k).
Proof.
  destruct (decide (length l ≤ n)%nat) as [Hl|Hl]; [by rewrite (lastn_all n l)|].
  unfold lastn. rewrite !length_app, length_drop.
  rewrite <-(drop_app_le l k (length l - n)) by lia.
  rewrite drop_drop. f_equal. lia.
Qed.

Lemma recordTrade_tape t b :
  (length (trades b) ≤ 1000)%nat →
  trades (_recordTrade t b) = lastn 1000 (trades b ++ [t]).
Proof.
  intros H. unfold _recordTrade, lastn. cbn. rewrite length_app. cbn.
  case_bool_decide as Hlen.
  - replace (length (trades b) + 1 - 1000)%nat with 1%nat by lia.
    by destruct (trades b ++ [t]).
  - by replace (length (trades b) + 1 - 1000)%nat with 0%nat by lia.
Qed.

Lemma settle_fill_tape now s u maker px tq b :
  (length (trades b) ≤ 1000)%nat →
  trades (settle_fill now s u maker px tq b).2
  = lastn 1000 (trades b ++ [(settle_fill now s u maker px tq b).1]).
Proof.
  intros H. unfold settle_fill. cbn -[_recordTrade].
  rewrite recordTrade_tape; [done|].
  unfold upd_pos, _pos. cbn. exact H.
Qed.

Lemma match_level_record fuel now px o q b o' q' b' ts :
  match_level fuel now px o q b = Some (o', q', b', ts) →
  (length (trades b) ≤ 1000)%nat → trades b' = lastn 1000 (trades b ++ ts).
Proof.
  apply (match_level_cases now px (λ _ _ b _ _ b' ts,
    (length (trades b) ≤ 1000)%nat → trades b' = lastn 1000 (trades b ++ ts))); clear.
  - intros _ _ b _ H. by rewrite app_nil_r, lastn_all.
  - intros o maker rest b b1 _ Hchk H.
    pose proof (checkPosLimit_trades (Order.userId o) (Order.side o)
      (Math_min (Order.leaves o) (Order.leaves maker)) b) as Ht.
    rewrite Hchk in Ht. cbn in Ht. by rewrite Ht, app_nil_r, lastn_all.
  - intros o maker rest b b1 trade b2 o' q' b' ts tq maker1 _ Hchk Hfill IH H.
    pose proof (checkPosLimit_trades (Order.userId o) (Order.side o) tq b) as Ht.
    rewrite Hchk in Ht. cbn in Ht. rewrite <-Ht in H |- *.
    pose proof (settle_fill_tape now (Order.side o) (Order.userId o) maker px tq b1 H) as Hs.
    pose proof (settle_fill_length now (Order.side o) (Order.userId o) maker px tq b1 H) as Hn.
    rewrite Hfill in Hs, Hn. cbn in Hs, Hn.
    rewrite (IH Hn), Hs, lastn_app. by rewrite <-app_assoc.
Qed.

Lemma take_loop_record fuel now u s px r q b r' q' b' ts :
  take_loop fuel now u s px r q b = Some (r', q', b', ts) →
  (length (trades b) ≤ 1000)%nat → trades b' = lastn 1000 (trades b ++ ts).
Proof.
  apply (take_loop_cases now u s px (λ _ _ b _ _ b' ts,
    (length (trades b) ≤ 1000)%nat → trades b' = lastn 1000 (trades b ++ ts))); clear.
  - intros _ _ b _ H. by rewrite app_nil_r, lastn_all.
  - intros r maker rest b b1 _ Hchk H.
    pose proof (checkPosLimit_trades u s (Math_min r (Order.leaves maker)) b) as Ht.
    rewrite Hchk in Ht. cbn in Ht. by rewrite Ht, app_nil_r, lastn_all.
  - intros r maker rest b b1 trade b2 r' q' b' ts tq maker1 _ Hchk Hfill IH H.
    pose proof (checkPosLimit_trades u s tq b) as Ht.
    rewrite Hchk in Ht. cbn in Ht. rewrite <-Ht in H |- *.
    pose proof (settle_fill_tape now s u maker px tq b1 H) as Hs.
    pose proof (settle_fill_length now s u maker px tq b1 H) as Hn.
    rewrite Hfill in Hs, Hn. cbn in Hs, Hn.
    rewrite (IH Hn), Hs, lastn_app. by rewrite <-app_assoc.
Qed.

Lemma match_loop_record fuel now o b o' b' ts :
  match_loop fuel now o b = Some (o', b', ts) →
  (length (trades b) ≤ 1000)%nat → trades b' = lastn 1000 (trades b ++ ts).
Proof.
  apply (match_loop_cases now (λ _ b _ b' ts,
    (length (trades b) ≤ 1000)%nat → trades b' = lastn 1000 (trades b ++ ts))); clear.
  - intros _ b H. by rewrite app_nil_r, lastn_all.
  - intros o b px q o1 q1 b1 ts1 o' b' ts2 side m _ _ _ _ Hlvl IH H.
    pose proof (match_level_record _ _ _ _ _ _ _ _ _ _ Hlvl H) as H1.
    pose proof (match_level_tape _ _ _ _ _ _ _ _ _ _ Hlvl H) as Hn.
    rewrite trades_set_makerMap in IH.
    rewrite (IH Hn), H1, lastn_app. by rewrite <-app_assoc.
Qed.

Lemma placeLimit_record now u s p q b r b' ts :
  placeLimit now u s p q b = Some (r, b', ts) →
  (length (trades b) ≤ 1000)%nat → trades b' = lastn 1000 (trades b ++ ts).
Proof.
  intros Hp H. unfold placeLimit in Hp. rewrite checkPosLimit_eq in Hp.
  case_bool_decide; cbn in Hp.
  2:{ simplify_eq. cbn. by rewrite app_nil_r, lastn_all. }
  destruct (_matchIncoming _ _ _) as [[[o' b3] ts3]|] eqn:Hm; cbn in Hp; [|done].
  apply match_loop_record in Hm; [|exact H]. cbn in Hm.
  simplify_eq. case_bool_decide; [by rewrite trades_set_ownMap|done].
Qed.

Lemma takeAtPrice_record now u s p q b r b' ts :
  takeAtPrice now u s p q b = Some (r, b', ts) →
  (length (trades b) ≤ 1000)%nat → trades b' = lastn 1000 (trades b ++ ts).
Proof.
  intros Ht H. unfold takeAtPrice in Ht.
  destruct (makerMap s b !! _) as [lv|] eqn:Hq.
  2:{ simplify_eq. by rewrite app_nil_r, lastn_all. }
  case_bool_decide.
  { simplify_eq. by rewrite app_nil_r, lastn_all. }
  destruct (take_loop _ _ _ _ _ _ _ _) as [[[[r' q'] b1] ts1]|] eqn:Hl; cbn in Ht; [|done].
  simplify_eq. rewrite trades_set_makerMap.
  by apply take_loop_record in Hl.
Qed.

(** X11. The tape records what is emitted. On a book whose tape holds at
    most 1000 trades, placeLimit and takeAtPrice return, and the tape they
    leave is the last 1000 entries of the old tape followed by the trades
    handed to onTrade during the call, in the order they were handed over. *)
Theorem X11_tape_records_emitted (now : Z) (u s : string) (p q : Qc) (b : OrderBook) :
  (length (trades b) ≤ 1000)%nat →
  (∃ r b' ts, placeLimit now u s p q b = Some (r, b', ts) ∧
              trades b' = lastn 1000 (trades b ++ ts)) ∧
  (∃ r b' ts, takeAtPrice now u s p q b = Some (r, b', ts) ∧
              trades b' = lastn 1000 (trades b ++ ts)).
Proof.
  intros H. split.
  - destruct (placeLimit_total now u s p q b) as [[[r b'] ts] Hp].
    exists r, b', ts. split; [done|]. by eapply placeLimit_record.
  - destruct (takeAtPrice_total now u s p q b) as [[[r b'] ts] Hp].
    exists r, b', ts. split; [done|]. by eapply takeAtPrice_record.
Qed.

Lemma X11_tape_records_emitted_witness :
  (∃ r b' ts, placeLimit 2 "U1" "buy" (num_of_Z 10) (num_of_Z 5) book_self
              = Some (r, b', ts) ∧
              trades b' = lastn 1000 (trades book_self ++ ts)) ∧
  (∃ r b' ts, takeAtPrice 2 "U1" "buy" (num_of_Z 10) (num_of_Z 5) book_self
              = Some (r, b', ts) ∧
              trades b' = lastn 1000 (trades book_self ++ ts)).
Proof.
  apply (X11_tape_records_emitted 2 "U1" "buy" (num_of_Z 10) (num_of_Z 5) book_self).
  vm_compute. lia.
Defined.

(** ** The position limit *)

(** What one fill does to anybody's position: the buyer gains the quantity
    and pays for it, the seller gives it and is paid. *)
Lemma settle_fill_pos now s u maker px tq b v :
  let buyer := if is_buy s then u else Order.userId maker in
  let seller := if is_sell s then u else Order.userId maker in
  let p := pos_of (positions b) v in
  let p' := pos_of (positions (settle_fill now s u maker px tq b).2) v in
  Pos.qty p' = Pos.qty p + (if decide (buyer = v) then tq else 0)
                         - (if decide (seller = v) then tq else 0) ∧
  Pos.cash p' = Pos.cash p - (if decide (buyer = v) then tq * px else 0)
                           + (if decide (seller = v) then tq * px else 0).
Proof.
  intros buyer seller p p'. subst p'. unfold settle_fill. fold buyer seller.
  cbn -[upd_pos].
  change (positions (_recordTrade ?t ?b)) with (positions b).
  rewrite !pos_of_upd_pos. subst p. clearbody buyer seller.
  repeat case_decide; subst; cbn; split; try ring; congruence.
Qed.

Lemma held_checked u s tq b b1 :
  _checkPosLimit u s tq b = (true, b1) →
  posLimit b1 = posLimit b ∧ (∀ v, held b1 v = held b v) ∧
  Math_abs (if is_buy s then held b u + tq else held b u - tq) ≤ posLimit b.
Proof.
  rewrite checkPosLimit_eq. intros Hc. injection Hc as Hle <-.
  apply bool_decide_eq_true in Hle.
  split; [done|]. split; [|exact Hle].
  intros v. unfold held. cbn. by rewrite pos_of_touch.
Qed.

(** After a fill that passed the check, the taker holds either what the
    check projected or, when it traded with itself, what it held. *)
Lemma held_fill now s u maker px tq b :
  held (settle_fill now s u maker px tq b).2 u
  = if decide (Order.userId maker = u) then held b u
    else if is_buy s then held b u + tq
    else if is_sell s then held b u - tq
    else held b u.
Proof.
  unfold held. destruct (settle_fill_pos now s u maker px tq b u) as [-> _].
  assert (is_buy s = true → is_sell s = false) as Hbs.
  { unfold is_buy, is_sell. intros Hb%bool_decide_eq_true.
    apply bool_decide_eq_false. by rewrite Hb. }
  destruct (is_buy s); [rewrite Hbs by done|destruct (is_sell s)];
    repeat case_decide; try congruence; ring.
Qed.

Lemma match_level_held fuel now px o q b o' q' b' ts :
  match_level fuel now px o q b = Some (o', q', b', ts) →
  Math_abs (held b (Order.userId o)) ≤ posLimit b →
  Math_abs (held b' (Order.userId o)) ≤ posLimit b.
Proof.
  apply (match_level_cases now px (λ o _ b _ _ b' _,
    Math_abs (held b (Order.userId o)) ≤ posLimit b →
    Math_abs (held b' (Order.userId o)) ≤ posLimit b)); clear.
  - done.
  - intros o maker rest b b1 _ Hchk H.
    rewrite checkPosLimit_eq in Hchk. injection Hchk as _ <-.
    unfold held. cbn. by rewrite pos_of_touch.
  - intros o maker rest b b1 trade b2 o' q' b' ts tq maker1 _ Hchk Hfill IH H.
    apply held_checked in Hchk as (Hlim & Hheld & Hle).
    pose proof (held_fill now (Order.side o) (Order.userId o) maker px tq b1) as Hf.
    pose proof (settle_fill_frame now (Order.side o) (Order.userId o) maker px tq b1)
      as (_&_&Hpl&_).
    rewrite Hfill in Hf, Hpl. cbn in Hf, Hpl, IH.
    rewrite Hpl, Hlim in IH. apply IH. rewrite Hf, Hheld.
    case_decide; [done|]. destruct (is_buy (Order.side o)); [done|].
    by destruct (is_sell (Order.side o)).
Qed.

Lemma take_loop_held fuel now u s px r q b r' q' b' ts :
  take_loop fuel now u s px r q b = Some (r', q', b', ts) →
  Math_abs (held b u) ≤ posLimit b → Math_abs (held b' u) ≤ posLimit b.
Proof.
  apply (take_loop_cases now u s px (λ _ _ b _ _ b' _,
    Math_abs (held b u) ≤ posLimit b → Math_abs (held b' u) ≤ posLimit b)); clear.
  - done.
  - intros r maker rest b b1 _ Hchk H.
    rewrite checkPosLimit_eq in Hchk. injection Hchk as _ <-.
    unfold held. cbn. by rewrite pos_of_touch.
  - intros r maker rest b b1 trade b2 r' q' b' ts tq maker1 _ Hchk Hfill IH H.
    apply held_checked in Hchk as (Hlim & Hheld & Hle).
    pose proof (held_fill now s u maker px tq b1) as Hf.
    pose proof (settle_fill_frame now s u maker px tq b1) as (_&_&Hpl&_).
    rewrite Hfill in Hf, Hpl. cbn in Hf, Hpl.
    rewrite Hpl, Hlim in IH. apply IH. rewrite Hf, Hheld.
    case_decide; [done|]. destruct (is_buy s); [done|]. by destruct (is_sell s).
Qed.

Lemma match_loop_held fuel now o b o' b' ts :
  match_loop fuel now o b = Some (o', b', ts) →
  Math_abs (held b (Order.userId o)) ≤ posLimit b →
  Math_abs (held b' (Order.userId o)) ≤ posLimit b.
Proof.
  apply (match_loop_cases now (λ o b _ b' _,
    Math_abs (held b (Order.userId o)) ≤ posLimit b →
    Math_abs (held b' (Order.userId o)) ≤ posLimit b)); clear.
  - done.
  - intros o b px q o1 q1 b1 ts1 o' b' ts2 side m _ _ _ _ Hlvl IH H.
    pose proof (match_level_held _ _ _ _ _ _ _ _ _ _ Hlvl H) as H1.
    pose proof (match_level_frame _ _ _ _ _ _ _ _ _ _ Hlvl) as (_&_&Hpl&_).
    rewrite (same_order_userId _ _ (match_level_order _ _ _ _ _ _ _ _ _ _ Hlvl)) in IH.
    assert (posLimit (set_makerMap side (close_level px q1 m) b1) = posLimit b) as Hpl'.
    { unfold set_makerMap. by destruct (is_buy side). }
    unfold held in IH |- *. rewrite positions_set_makerMap, Hpl' in IH. by apply IH.
Qed.



(** ** Quantities *)

Lemma traded_app ts1 ts2 : traded (ts1 ++ ts2) = traded ts1 + traded ts2.
Proof.
  induction ts1 as [|t ts1 IH].
  - change (traded ts2 = 0 + traded ts2). ring.
  - change (Trade.qty t + traded (ts1 ++ ts2) = Trade.qty t + traded ts1 + traded ts2).
    rewrite IH. ring.
Qed.

Lemma sum_leaves_app q1 q2 : sum_leaves (q1 ++ q2) = sum_leaves q1 + sum_leaves q2.
Proof.
  induction q1 as [|o q1 IH].
  - change (sum_leaves q2 = 0 + sum_leaves q2). ring.
  - change (Order.leaves o + sum_leaves (q1 ++ q2)
            = Order.leaves o + sum_leaves q1 + sum_leaves q2).
    rewrite IH. ring.
Qed.

Lemma resting_insert_fresh (m : gmap Qc (list Order.t)) k q :
  m !! k = None → resting (<[k := q]> m) = sum_leaves q + resting m.
Proof.
  intros Hk. unfold resting. rewrite map_fold_insert_L; [done | | done].
  intros. ring.
Qed.

Lemma resting_delete (m : gmap Qc (list Order.t)) k q :
  m !! k = Some q → resting m = sum_leaves q + resting (delete k m).
Proof.
  intros Hk. unfold resting. rewrite (map_fold_delete_L _ _ k q m); [done | | done].
  intros. ring.
Qed.

Lemma resting_insert (m : gmap Qc (list Order.t)) k q :
  resting (<[k := q]> m) = resting m - sum_leaves (queue_at m k) + sum_leaves q.
Proof.
  unfold queue_at. destruct (m !! k) as [old|] eqn:Hk; cbn [default from_option id].
  - rewrite <-insert_delete_eq.
    rewrite resting_insert_fresh by apply lookup_delete_eq.
    rewrite (resting_delete m k old) by done. ring.
  - rewrite resting_insert_fresh by done. change (sum_leaves []) with (Q2Qc 0). ring.
Qed.

Lemma resting_close (m : gmap Qc (list Order.t)) px q q1 :
  m !! px = Some q →
  resting (close_level px q1 m) = resting m - sum_leaves q + sum_leaves q1.
Proof.
  intros Hq. unfold close_level. case_bool_decide as He.
  - subst q1. rewrite (resting_delete m px q Hq). change (sum_leaves []) with (Q2Qc 0). ring.
  - rewrite resting_insert. unfold queue_at. by rewrite Hq.
Qed.

Lemma resting_push (m : gmap Qc (list Order.t)) p o :
  resting (pushAtPrice m p o) = resting m + Order.leaves o.
Proof.
  unfold pushAtPrice. case_bool_decide as Hs.
  - rewrite resting_insert. unfold queue_at.
    destruct Hs as [q Hq]. rewrite Hq. cbn [default from_option id].
    rewrite sum_leaves_app. change (sum_leaves [o]) with (Order.leaves o + 0). ring.
  - apply eq_None_not_Some in Hs.
    rewrite lookup_insert_eq, insert_insert_eq. cbn [default from_option id app].
    rewrite resting_insert_fresh by done.
    change (sum_leaves [o]) with (Order.leaves o + 0). ring.
Qed.

Lemma Qc_le_step (a t c y : Qc) : y ≤ a - t - c → t + y ≤ a - c.
Proof.
  intros H. replace (a - c) with (t + (a - t - c)) by ring.
  apply Qcplus_le_compat; [apply Qcle_refl | done].
Qed.

Lemma Qc_le_chain (a c d x y : Qc) : x ≤ a - c → y ≤ c - d → x + y ≤ a - d.
Proof.
  intros H1 H2. replace (a - d) with ((a - c) + (c - d)) by ring.
  by apply Qcplus_le_compat.
Qed.

(** One level: the quantities of the trades are positive, they are taken
    out of the queue, and out of the order unless the position check
    stopped it. *)
Lemma match_level_quantities fuel now px o q b o' q' b' ts :
  match_level fuel now px o q b = Some (o', q', b', ts) →
  Forall (λ m, 0 < Order.leaves m) q →
  Forall (λ m, 0 < Order.leaves m) q' ∧
  Forall (λ t, 0 < Trade.qty t) ts ∧
  sum_leaves q' = sum_leaves q - traded ts ∧
  (0 ≤ Order.leaves o → 0 ≤ Order.leaves o') ∧
  traded ts ≤ Order.leaves o - Order.leaves o' ∧
  (0 < Order.leaves o' → traded ts = Order.leaves o - Order.leaves o').
Proof.
  apply (match_level_cases now px (λ o q _ o' q' _ ts,
    Forall (λ m, 0 < Order.leaves m) q →
    Forall (λ m, 0 < Order.leaves m) q' ∧
    Forall (λ t, 0 < Trade.qty t) ts ∧
    sum_leaves q' = sum_leaves q - traded ts ∧
    (0 ≤ Order.leaves o → 0 ≤ Order.leaves o') ∧
    traded ts ≤ Order.leaves o - Order.leaves o' ∧
    (0 < Order.leaves o' → traded ts = Order.leaves o - Order.leaves o'))); clear.
  - intros o q b _ Hq. cbn. rewrite Qc_sub_diag.
    split; [done|]. split; [done|]. split; [ring|]. split; [done|].
    split; [apply Qcle_refl | done].
  - intros o maker rest b b1 Hl _ Hq. cbn.
    split; [done|]. split; [done|]. split; [ring|]. split; [intros; apply Qcle_refl|].
    split.
    + replace (Order.leaves o - 0) with (Order.leaves o) by ring. by apply Qclt_le_weak.
    + intros H. by apply Qc_lt_irrefl in H.
  - intros o maker rest b b1 trade b2 o' q' b' ts tq maker1 Hl _ Hfill IH Hq.
    apply Forall_cons in Hq as [Hm Hrest].
    pose proof (settle_fill_trade now (Order.side o) (Order.userId o) maker px tq b1) as Ht.
    rewrite Hfill in Ht. cbn in Ht.
    assert (Trade.qty trade = tq) as Htq by (by rewrite Ht).
    assert (0 < tq) as Hpos by (by apply Math_min_pos).
    destruct IH as (Hq' & Hts & Hsum & Hnn & Hle & Heq).
    { case_bool_decide as Hz; [done|]. apply Forall_cons. split; [|done].
      cbn. by apply maker_left_pos. }
    cbn in Hnn, Hle, Heq.
    change (traded (trade :: ts)) with (Trade.qty trade + traded ts). rewrite Htq.
    split; [done|]. split; [apply Forall_cons; by rewrite Htq|].
    split.
    { rewrite Hsum. case_bool_decide as Hz; cbn in Hz |- *.
      - change (foldr _ 0 rest) with (sum_leaves rest).
        replace (Order.leaves maker) with (Order.leaves maker - tq + tq) by ring.
        rewrite Hz. ring.
      - change (foldr _ 0 rest) with (sum_leaves rest). ring. }
    split.
    { intros H0. apply Hnn. apply Qc_sub_nonneg, Math_min_le_l. }
    split; [by apply Qc_le_step|].
    intros H0. rewrite (Heq H0). ring.
Qed.

Lemma live_close px q1 (m : gmap Qc (list Order.t)) :
  Forall (λ o, 0 < Order.leaves o) q1 → live m → live (close_level px q1 m).
Proof.
  intros Hq1 Hm k q'. unfold close_level. case_bool_decide.
  - rewrite lookup_delete. case_decide; [done | apply Hm].
  - rewrite lookup_insert. case_decide; [by intros [= <-] | apply Hm].
Qed.

Lemma match_loop_quantities fuel now o b o' b' ts :
  match_loop fuel now o b = Some (o', b', ts) →
  live (makerMap (Order.side o) b) →
  (¬ 0 < Order.leaves o → o' = o) ∧
  Forall (λ t, 0 < Trade.qty t) ts ∧
  resting (makerMap (Order.side o) b') = resting (makerMap (Order.side o) b) - traded ts ∧
  (0 ≤ Order.leaves o → 0 ≤ Order.leaves o') ∧
  traded ts ≤ Order.leaves o - Order.leaves o' ∧
  (0 < Order.leaves o' → traded ts = Order.leaves o - Order.leaves o').
Proof.
  apply (match_loop_cases now (λ o b o' b' ts,
    live (makerMap (Order.side o) b) →
    (¬ 0 < Order.leaves o → o' = o) ∧
    Forall (λ t, 0 < Trade.qty t) ts ∧
    resting (makerMap (Order.side o) b') = resting (makerMap (Order.side o) b) - traded ts ∧
    (0 ≤ Order.leaves o → 0 ≤ Order.leaves o') ∧
    traded ts ≤ Order.leaves o - Order.leaves o' ∧
    (0 < Order.leaves o' → traded ts = Order.leaves o - Order.leaves o'))); clear.
  - intros o b _. cbn. rewrite Qc_sub_diag.
    split; [done|]. split; [done|]. split; [ring|]. split; [done|].
    split; [apply Qcle_refl | done].
  - intros o b px q o1 q1 b1 ts1 o' b' ts2 side m Hl _ _ Hq Hlvl IH Hlive.
    fold side m in Hlive.
    destruct (match_level_quantities _ _ _ _ _ _ _ _ _ _ Hlvl (Hlive _ _ Hq))
      as (Hq1 & Hts1 & Hsum1 & Hnn1 & Hle1 & Heq1).
    rewrite (same_order_side _ _ (match_level_order _ _ _ _ _ _ _ _ _ _ Hlvl)) in IH.
    fold side in IH. rewrite makerMap_set_makerMap in IH.
    destruct IH as (Hstop & Hts2 & Hsum2 & Hnn2 & Hle2 & Heq2); [by apply live_close|].
    fold side. rewrite traded_app.
    split; [done|]. split; [by apply Forall_app|].
    split.
    { rewrite Hsum2, (resting_close m px q q1 Hq), Hsum1. fold m. ring. }
    split; [intros H0; by apply Hnn2, Hnn1|].
    split; [by eapply Qc_le_chain|].
    intros H0. rewrite (Heq2 H0).
    destruct (decide (0 < Order.leaves o1)) as [H1|H1].
    + rewrite (Heq1 H1). ring.
    + rewrite (Hstop H1) in H0. done.
Qed.

Lemma take_loop_quantities fuel now u s px r q b r' q' b' ts :
  take_loop fuel now u s px r q b = Some (r', q', b', ts) →
  Forall (λ m, 0 < Order.leaves m) q →
  Forall (λ t, 0 < Trade.qty t) ts ∧ sum_leaves q' = sum_leaves q - traded ts.
Proof.
  apply (take_loop_cases now u s px (λ _ q _ _ q' _ ts,
    Forall (λ m, 0 < Order.leaves m) q →
    Forall (λ t, 0 < Trade.qty t) ts ∧ sum_leaves q' = sum_leaves q - traded ts)); clear.
  - intros _ q _ _ _. split; [done|]. change (traded []) with (Q2Qc 0). ring.
  - intros _ maker rest _ _ _ _ _. split; [done|]. change (traded []) with (Q2Qc 0). ring.
  - intros r maker rest b b1 trade b2 r' q' b' ts tq maker1 Hl _ Hfill IH Hq.
    apply Forall_cons in Hq as [Hm Hrest].
    pose proof (settle_fill_trade now s u maker px tq b1) as Ht.
    rewrite Hfill in Ht. cbn in Ht.
    assert (Trade.qty trade = tq) as Htq by (by rewrite Ht).
    assert (0 < tq) as Hpos by (by apply Math_min_pos).
    destruct IH as (Hts & Hsum).
    { case_bool_decide as Hz; [done|]. apply Forall_cons. split; [|done].
      cbn. by apply maker_left_pos. }
    change (traded (trade :: ts)) with (Trade.qty trade + traded ts). rewrite Htq.
    split; [apply Forall_cons; by rewrite Htq|].
    rewrite Hsum. change (sum_leaves (maker :: rest)) with (Order.leaves maker + sum_leaves rest).
    case_bool_decide as Hz; cbn in Hz.
    + replace (Order.leaves maker) with (Order.leaves maker - tq + tq) by ring.
      rewrite Hz. ring.
    + change (sum_leaves (maker1 :: rest))
        with (Order.leaves maker - tq + sum_leaves rest). ring.
Qed.

Lemma book_ok_live s b : book_ok b → live (makerMap s b).
Proof.
  intros Hb k q Hq. destruct (book_ok_makerMap s b Hb k q Hq) as [_ Hall].
  eapply Forall_impl; [exact Hall|]. by intros o (?&_).
Qed.

Lemma Math_max_0_nonneg (q : Qc) : 0 ≤ Math_max 0 q ∧ q ≤ Math_max 0 q.
Proof.
  unfold Math_max. case_bool_decide as H.
  - split; [by apply Qclt_le_weak | apply Qcle_refl].
  - split; [apply Qcle_refl | by apply Qcnot_lt_le].
Qed.


(** ** What is left of a placement *)

(** The inner loop takes from the order what it trades, unless the
    position limit stops it at a maker, who then stays in the level. *)
Lemma match_level_left fuel now px o q b o' q' b' ts :
  match_level fuel now px o q b = Some (o', q', b', ts) →
  Order.leaves o' = Order.leaves o - traded ts ∨ (Order.leaves o' = 0 ∧ q' ≠ []).
Proof.
  apply (match_level_cases now px (λ o _ _ o' q' _ ts,
    Order.leaves o' = Order.leaves o - traded ts ∨ (Order.leaves o' = 0 ∧ q' ≠ []))); clear.
  - intros o q b _. left. change (traded []) with (Q2Qc 0). ring.
  - intros. by right.
  - intros o maker rest b b1 trade b2 o' q' b' ts tq maker1 _ _ Hfill [IH | IH]; [|by right].
    left. pose proof (settle_fill_trade now (Order.side o) (Order.userId o) maker px tq b1) as Ht.
    rewrite Hfill in Ht. cbn in Ht.
    change (traded (trade :: ts)) with (Trade.qty trade + traded ts).
    rewrite IH, Ht. cbn [Trade.qty Order.leaves Order.set_leaves]. ring.
Qed.

(** So does the outer loop; where the limit stopped it, the level it
    stopped at is still the best of the opposite side and crosses. *)
Lemma match_loop_left fuel now o b o' b' ts :
  match_loop fuel now o b = Some (o', b', ts) →
  (¬ 0 < Order.leaves o → o' = o ∧ b' = b ∧ ts = []) ∧
  (Order.leaves o' = Order.leaves o - traded ts ∨
   (Order.leaves o' = 0 ∧
    ∃ px, best (Order.side o) (makerMap (Order.side o) b') = Some px ∧
          crosses (Order.side o) (Order.price o) px = true)).
Proof.
  apply (match_loop_cases now (λ o b o' b' ts,
    (¬ 0 < Order.leaves o → o' = o ∧ b' = b ∧ ts = []) ∧
    (Order.leaves o' = Order.leaves o - traded ts ∨
     (Order.leaves o' = 0 ∧
      ∃ px, best (Order.side o) (makerMap (Order.side o) b') = Some px ∧
            crosses (Order.side o) (Order.price o) px = true)))); clear.
  - intros o b. split; [done|]. left. change (traded []) with (Q2Qc 0). ring.
  - intros o b px q o1 q1 b1 ts1 o' b' ts2 side m Hl Hbest Hcross Hq Hlvl [Hdone IH].
    split; [done|].
    pose proof (match_level_order _ _ _ _ _ _ _ _ _ _ Hlvl) as Ho.
    rewrite (same_order_side _ _ Ho), (same_order_price _ _ Ho) in IH. fold side in IH.
    destruct (match_level_left _ _ _ _ _ _ _ _ _ _ Hlvl) as [Hl1 | [Hl1 Hq1]].
    + destruct IH as [IH | IH]; [|by right].
      left. rewrite IH, Hl1, traded_app. ring.
    + destruct Hdone as (-> & -> & ->).
      { rewrite Hl1. apply Qc_lt_irrefl. }
      right. split; [done|]. exists px. split; [|done].
      rewrite makerMap_set_makerMap. unfold close_level.
      rewrite bool_decide_eq_false_2 by done. by apply best_insert.
Qed.



(** ** From the book to the server *)

Lemma step_total pw now sid c s : is_Some (step pw now sid c s).
Proof.
  destruct c as [code pw' defs | code name | symbol o | o | symbol price | priceMap
                | text | symbol side price qty | symbol side price
                | symbol side price maxQty | ]; cbn.
  - case_bool_decide; [by eexists|]. destruct (four_digits code); cbn; [|by eexists].
    destruct (ensureGameAdminCreate code defs s). by eexists.
  - destruct (games s !! code); by eexists.
  - destruct (game_of sid s) as [[code g]|]; [|by eexists].
    destruct (is_admin sid g); cbn; [|by eexists].
    destruct (Game.markets g !! symbol); by eexists.
  - destruct (game_of sid s) as [[code g]|]; [|by eexists].
    destruct (is_admin sid g); cbn; by eexists.
  - destruct (game_of sid s) as [[code g]|]; [|by eexists].
    destruct (is_admin sid g); cbn; [|by eexists].
    destruct (Game.markets g !! symbol); by eexists.
  - destruct (game_of sid s) as [[code g]|]; [|by eexists].
    destruct (is_admin sid g); cbn; by eexists.
  - destruct (game_of sid s) as [[code g]|]; [|by eexists].
    destruct (is_admin sid g); cbn; by eexists.
  - destruct (game_of sid s) as [[code g]|]; [|by eexists].
    destruct (Game.markets g !! symbol) as [mk|]; [|by eexists].
    destruct (Market.open mk); cbn; [|by eexists].
    destruct (is_buy side || is_sell side); cbn; [|by eexists].
    destruct (bool_decide (0 < price) && bool_decide (0 < qty)); cbn; [|by eexists].
    destruct (placeLimit_total now sid side price qty (Market.book mk))
      as [[[r b'] ts] ->]. cbn. destruct r; by eexists.
  - destruct (game_of sid s) as [[code g]|]; [|by eexists].
    destruct (Game.markets g !! symbol) as [mk|]; by eexists.
  - destruct (game_of sid s) as [[code g]|]; [|by eexists].
    destruct (Game.markets g !! symbol) as [mk|]; [|by eexists].
    destruct (Market.open mk); cbn; [|by eexists].
    destruct (takeAtPrice_total now sid side price (Math_max 1 (or_default maxQty 1))
                (Market.book mk)) as [[[r b'] ts] ->]. by eexists.
  - by eexists.
Qed.

Lemma run_server_total pw cs s : is_Some (run_server pw cs s).
Proof.
  revert s. induction cs as [|[[now sid] c] cs IH]; intros s; cbn; [by eexists|].
  destruct (step_total pw now sid c s) as [[s1 ts1] ->]. cbn.
  destruct (IH s1) as [[s2 ts2] ->]. by eexists.
Qed.

(** A property of markets that the constructor establishes and each way
    the handlers write to a market keeps, holds of every market of every
    state of the server. *)
Section every_market.
Context (P : string → Market.t → Prop).

Hypothesis P_new : ∀ d, P (new_market d).1 (new_market d).2.
Hypothesis P_open : ∀ sym mk o, P sym mk → P sym (Market.set_open o mk).
Hypothesis P_settle : ∀ sym mk px, P sym mk → P sym (settle_market px mk).
Hypothesis P_view : ∀ sym mk u,
  P sym mk → P sym (Market.set_book (getPosPublic u (Market.book mk)).2 mk).
Hypothesis P_place : ∀ sym mk now u s p q r b' ts,
  P sym mk → Market.open mk = true → is_buy s || is_sell s = true → 0 < p → 0 < q →
  placeLimit now u s p q (Market.book mk) = Some (r, b', ts) →
  P sym (after_book sym b' ts mk).
Hypothesis P_take : ∀ sym mk now u s p mq r b' ts,
  P sym mk → Market.open mk = true →
  takeAtPrice now u s p mq (Market.book mk) = Some (r, b', ts) →
  P sym (after_book sym b' ts mk).
Hypothesis P_cancel : ∀ sym mk u s p,
  P sym mk → P sym (Market.set_book (cancelAtPrice u s p (Market.book mk)).2 mk).

Abbreviation GP := (markets_all P).
Abbreviation SP := (games_all P).

Lemma every_market_games s : every_market P s ↔ SP s.
Proof.
  split.
  - intros H code g Hg sym mk Hmk. by eapply H.
  - intros H code g sym mk Hg Hmk. exact (H code g Hg sym mk Hmk).
Qed.

Lemma GP_sendPersonalBundle sid g : GP g → GP (sendPersonalBundle sid g).
Proof.
  intros H sym mk'. unfold sendPersonalBundle. cbn. rewrite lookup_fmap.
  destruct (Game.markets g !! sym) as [mk|] eqn:Hmk; cbn; [|done].
  intros [= <-]. apply P_view. by eapply H.
Qed.

Lemma GP_fanout g : GP g → GP (fanout g).
Proof.
  intros H. unfold fanout.
  induction (elements (Game.room g)) as [|sid l IH]; cbn; [done|].
  by apply GP_sendPersonalBundle.
Qed.

Lemma GP_set_market sym mk g :
  P sym mk → GP g → GP (Game.set_markets (<[sym := mk]> (Game.markets g)) g).
Proof. intros Hmk Hg. unfold markets_all. cbn. by apply map_Forall_insert_2. Qed.

Lemma SP_put_game code g s : GP g → SP s → SP (put_game code g s).
Proof. intros Hg Hs. unfold games_all, put_game. cbn. by apply map_Forall_insert_2. Qed.

Lemma SP_game_of sid s code g : SP s → game_of sid s = Some (code, g) → GP g.
Proof.
  unfold game_of. intros Hs Hg.
  destruct (codes s !! sid) as [c|]; cbn in Hg; [|done].
  destruct (games s !! c) as [g0|] eqn:Hg0; cbn in Hg; [|done].
  simplify_eq. by eapply Hs.
Qed.

Lemma GP_new_markets (ms : gmap string Market.t) defs :
  map_Forall P ms → map_Forall P (foldl add_market ms defs).
Proof.
  revert ms. induction defs as [|d defs IH]; intros ms H0; cbn [foldl]; [done|].
  apply IH. unfold add_market. pose proof (P_new d) as Hd.
  destruct (new_market d) as [sym mk]. cbn in Hd. by apply map_Forall_insert_2.
Qed.

Lemma SP_ensureGameAdminCreate code defs s :
  SP s → GP (ensureGameAdminCreate code defs s).1 ∧ SP (ensureGameAdminCreate code defs s).2.
Proof.
  intros Hs. unfold ensureGameAdminCreate.
  destruct (games s !! code) as [g|] eqn:Hg; cbn.
  - split; [by eapply Hs | done].
  - assert (GP (Game.mk (foldl add_market ∅ (take MAX_MARKETS defs)) ∅ ∅ [] ∅)) as Hnew
      by apply GP_new_markets, map_Forall_empty.
    split; [done|]. by apply (SP_put_game code _ s).
Qed.

Lemma GP_settle_all (priceMap : list (string * Qc)) (ms : gmap string Market.t) :
  map_Forall P ms → map_Forall P (foldl settle_entry ms priceMap).
Proof.
  revert ms. induction priceMap as [|[sym v] pm IH]; intros ms H; cbn; [done|].
  apply IH. unfold settle_entry. cbn. destruct (ms !! sym) as [mk|] eqn:Hmk; [|done].
  apply map_Forall_insert_2; [|done]. apply P_settle. by eapply H.
Qed.

Lemma SP_disconnect sid s gs :
  map_Forall (λ _, GP) gs →
  SP (mkServer ((λ g, Game.set_room (Game.room g ∖ {[sid]}) g) <$> gs) (delete sid (codes s))).
Proof.
  intros H. unfold games_all. cbn.
  apply map_Forall_fmap. eapply map_Forall_impl; [exact H|]. by intros code g Hg.
Qed.

Lemma step_all pw now sid c s s' ts :
  SP s → step pw now sid c s = Some (s', ts) → SP s'.
Proof.
  intros Hs Hstep.
  destruct c as [code pw' defs | code name | symbol o | o | symbol price | priceMap
                | text | symbol side price qty | symbol side price
                | symbol side price maxQty | ]; cbn in Hstep.
  - case_bool_decide; [by simplify_eq|].
    destruct (four_digits code); cbn in Hstep; [|by simplify_eq].
    destruct (SP_ensureGameAdminCreate code defs s Hs) as [Hg Hs1].
    destruct (ensureGameAdminCreate code defs s) as [g s1]. cbn in Hg, Hs1.
    simplify_eq. apply SP_put_game; [|done]. by apply GP_sendPersonalBundle.
  - destruct (games s !! code) as [g|] eqn:Hg; [|by simplify_eq].
    simplify_eq. apply SP_put_game; [|done].
    apply GP_sendPersonalBundle.
    assert (GP g) as Hgok by exact (Hs code g Hg). exact Hgok.
  - destruct (game_of sid s) as [[code g]|] eqn:Hg; [|by simplify_eq].
    destruct (is_admin sid g); cbn in Hstep; [|by simplify_eq].
    destruct (Game.markets g !! symbol) as [mk|] eqn:Hmk; [|by simplify_eq].
    simplify_eq. apply SP_put_game; [|done]. apply GP_fanout.
    pose proof (SP_game_of _ _ _ _ Hs Hg) as Hgok.
    apply GP_set_market; [|done]. apply P_open. exact (Hgok _ _ Hmk).
  - destruct (game_of sid s) as [[code g]|] eqn:Hg; [|by simplify_eq].
    destruct (is_admin sid g); cbn in Hstep; [|by simplify_eq].
    simplify_eq. apply SP_put_game; [|done]. apply GP_fanout.
    pose proof (SP_game_of _ _ _ _ Hs Hg) as Hgok.
    intros sym mk'. cbn. rewrite lookup_fmap.
    destruct (Game.markets g !! sym) as [mk|] eqn:Hmk; cbn; [|done].
    intros [= <-]. apply P_open. exact (Hgok _ _ Hmk).
  - destruct (game_of sid s) as [[code g]|] eqn:Hg; [|by simplify_eq].
    destruct (is_admin sid g); cbn in Hstep; [|by simplify_eq].
    destruct (Game.markets g !! symbol) as [mk|] eqn:Hmk; [|by simplify_eq].
    simplify_eq. apply SP_put_game; [|done]. apply GP_fanout.
    pose proof (SP_game_of _ _ _ _ Hs Hg) as Hgok.
    apply GP_set_market; [|done]. apply P_settle. exact (Hgok _ _ Hmk).
  - destruct (game_of sid s) as [[code g]|] eqn:Hg; [|by simplify_eq].
    destruct (is_admin sid g); cbn in Hstep; [|by simplify_eq].
    simplify_eq. apply SP_put_game; [|done]. apply GP_fanout.
    apply GP_settle_all. by eapply SP_game_of.
  - destruct (game_of sid s) as [[code g]|] eqn:Hg; [|by simplify_eq].
    destruct (is_admin sid g); cbn in Hstep; [|by simplify_eq].
    simplify_eq. apply SP_put_game; [|done].
    pose proof (SP_game_of _ _ _ _ Hs Hg) as Hgok. exact Hgok.
  - destruct (game_of sid s) as [[code g]|] eqn:Hg; [|by simplify_eq].
    destruct (Game.markets g !! symbol) as [mk|] eqn:Hmk; [|by simplify_eq].
    destruct (Market.open mk) eqn:Hopen; cbn in Hstep; [|by simplify_eq].
    destruct (is_buy side || is_sell side) eqn:Hside; cbn in Hstep; [|by simplify_eq].
    destruct (bool_decide (0 < price) && bool_decide (0 < qty)) eqn:Hpq; cbn in Hstep;
      [|by simplify_eq].
    apply andb_true_iff in Hpq as [Hp%bool_decide_eq_true Hq%bool_decide_eq_true].
    destruct (placeLimit _ _ _ _ _ _) as [[[res b'] ts']|] eqn:Hpl; cbn in Hstep; [|done].
    pose proof (SP_game_of _ _ _ _ Hs Hg) as Hgok.
    assert (GP (Game.set_markets
      (<[symbol := after_book symbol b' ts' mk]> (Game.markets g)) g)) as Hg1.
    { apply GP_set_market; [|done]. eapply P_place;
        [exact (Hgok symbol mk Hmk) | exact Hopen | exact Hside | exact Hp | exact Hq | exact Hpl]. }
    destruct res; simplify_eq; apply SP_put_game; try done.
    by apply GP_fanout.
  - destruct (game_of sid s) as [[code g]|] eqn:Hg; [|by simplify_eq].
    destruct (Game.markets g !! symbol) as [mk|] eqn:Hmk; [|by simplify_eq].
    simplify_eq. apply SP_put_game; [|done]. apply GP_fanout.
    pose proof (SP_game_of _ _ _ _ Hs Hg) as Hgok.
    apply GP_set_market; [|done]. apply P_cancel. exact (Hgok _ _ Hmk).
  - destruct (game_of sid s) as [[code g]|] eqn:Hg; [|by simplify_eq].
    destruct (Game.markets g !! symbol) as [mk|] eqn:Hmk; [|by simplify_eq].
    destruct (Market.open mk) eqn:Hopen; cbn in Hstep; [|by simplify_eq].
    destruct (takeAtPrice _ _ _ _ _ _) as [[[res b'] ts']|] eqn:Htk; cbn in Hstep; [|done].
    pose proof (SP_game_of _ _ _ _ Hs Hg) as Hgok.
    simplify_eq. apply SP_put_game; [|done]. apply GP_fanout.
    apply GP_set_market; [|done]. eapply P_take; [exact (Hgok symbol mk Hmk) | exact Hopen | exact Htk].
  - simplify_eq. apply SP_disconnect.
    destruct (game_of sid s) as [[code g]|] eqn:Hg; [|done].
    apply map_Forall_insert_2; [|done].
    pose proof (SP_game_of _ _ _ _ Hs Hg) as Hgok. exact Hgok.
Qed.

Lemma run_server_all pw cs s s' ts :
  run_server pw cs s = Some (s', ts) → SP s → SP s'.
Proof.
  revert s ts. induction cs as [|[[now sid] c] cs IH]; intros s ts; cbn.
  - by intros [= <- _].
  - destruct (step pw now sid c s) as [[s1 ts1]|] eqn:Hstep; cbn; [|done].
    destruct (run_server pw cs s1) as [[s2 ts2]|] eqn:Hrun; cbn; [|done].
    intros [= <- _] Hs. eapply IH; [done|]. by eapply step_all.
Qed.

Lemma reachable_every_market pw cs s ts :
  run_server pw cs new_Server = Some (s, ts) → every_market P s.
Proof.
  intros Hrun. apply every_market_games. eapply run_server_all; [done|].
  unfold games_all. cbn. apply map_Forall_empty.
Qed.
End every_market.

Lemma run_snoc cs c b : run (cs ++ [c]) b = b' ← run cs b; call c b'.
Proof.
  revert b. induction cs as [|c0 cs IH]; intros b; cbn.
  - by destruct (call c b).
  - destruct (call c0 b) as [b1|]; cbn; [apply IH | done].
Qed.

Lemma reached_call sym mk c b' :
  reached sym mk → sided c = true → call c (Market.book mk) = Some b' →
  ∀ mk', Market.book mk' = b' → reached sym mk'.
Proof.
  intros (tick & limit & cs & Hs & Hrun) Hc Hcall mk' Hb.
  exists tick, limit, (cs ++ [c]). split.
  - rewrite forallb_app, Hs. cbn. by rewrite Hc.
  - rewrite run_snoc, Hrun. cbn. by rewrite Hb.
Qed.

Lemma book_after_book sym b' ts mk : Market.book (after_book sym b' ts mk) = b'.
Proof.
  unfold after_book.
  assert (Market.book (Market.set_book b' mk) = b') as H0 by done.
  revert H0. generalize (Market.set_book b' mk).
  induction ts as [|t ts IH]; intros mk0 H0; cbn; [done|]. by apply IH.
Qed.

Lemma reached_server pw cs s ts :
  run_server pw cs new_Server = Some (s, ts) → every_market reached s.
Proof.
  apply reachable_every_market.
  - intros d. unfold new_market. cbn. eexists _, _, []. by split.
  - intros sym mk o H. exact H.
  - intros sym mk px H. exact H.
  - intros sym mk u H. eapply (reached_call sym mk (CallGetPosPublic u)); done.
  - intros sym mk now u sd p q r b' ts' H _ Hs _ _ Hpl.
    eapply (reached_call sym mk (CallPlaceLimit now u sd p q)); [done|done| |].
    + cbn. by rewrite Hpl.
    + apply book_after_book.
  - intros sym mk now u sd p mq r b' ts' H _ Htk.
    eapply (reached_call sym mk (CallTakeAtPrice now u sd p mq)); [done|done| |].
    + cbn. by rewrite Htk.
    + apply book_after_book.
  - intros sym mk u sd p H. eapply (reached_call sym mk (CallCancelAtPrice u sd p)); done.
Qed.

(** X15. The server works on its books through the four methods only.
    Every sequence of inbound commands is handled, and in the state it
    leads to, the book of every market of every game is what some sequence
    of placeLimit, takeAtPrice, cancelAtPrice and getPosPublic calls, with
    placements on side 'buy' or 'sell' only, makes of the empty book of the
    market's symbol. *)
Theorem X15_server_books_reached (pw : string) (cs : list (Z * string * Command)) :
  ∃ s ts,
    run_server pw cs new_Server = Some (s, ts) ∧
    ∀ code g sym mk,
      games s !! code = Some g → Game.markets g !! sym = Some mk →
      ∃ tick limit calls,
        forallb sided calls = true ∧
        run calls (new_OrderBook sym tick limit) = Some (Market.book mk).
Proof.
  destruct (run_server_total pw cs new_Server) as [[s ts] Hrun].
  exists s, ts. split; [done|]. by apply (reached_server pw cs s ts).
Qed.

(** ** Mark prices *)

Lemma Qc_half_between (a c : Qc) :
  a < c → a < (a + c) / num_of_Z 2 ∧ (a + c) / num_of_Z 2 < c.
Proof.
  intros H. unfold Qcdiv.
  assert (/ num_of_Z 2 + / num_of_Z 2 = 1) as H1 by by_eval.
  assert (0 < / num_of_Z 2) as Hh by by_eval.
  revert H1 Hh. generalize (/ num_of_Z 2). intros h H1 Hh.
  assert (0 < (c - a) * h) as Hd.
  { replace (Q2Qc 0) with (0 * h) by ring.
    apply Qcmult_lt_compat_r; [done|]. apply Qclt_minus_iff in H. exact H. }
  split; apply Qclt_minus_iff.
  - replace ((a + c) * h + - a) with ((c - a) * h); [done|].
    transitivity ((a + c) * h + - (a * (h + h))); [ring | rewrite H1; ring].
  - replace (c + - ((a + c) * h)) with ((c - a) * h); [done|].
    transitivity (c * (h + h) + - ((a + c) * h)); [ring | rewrite H1; ring].
Qed.



(** ** The tape of a market *)

Lemma lastn_length {A} n (l : list A) : (length (lastn n l) ≤ n)%nat.
Proof. unfold lastn. rewrite length_drop. lia. Qed.

Lemma lastn_fmap {A B} (f : A → B) n (l : list A) : f <$> lastn n l = lastn n (f <$> l).
Proof. unfold lastn. by rewrite fmap_drop, length_fmap. Qed.

Lemma tape_onTradeHook sym t mk :
  (length (Market.tape mk) ≤ 1000)%nat →
  Market.tape (onTradeHook sym t mk) = lastn 1000 (Market.tape mk ++ [to_tape sym t]).
Proof.
  intros H. unfold onTradeHook. cbn. fold (to_tape sym t).
  unfold lastn. rewrite !length_app. cbn [length]. case_bool_decide as Hlen.
  - replace (length (Market.tape mk) + 1 - 1000)%nat with 1%nat by lia.
    by destruct (Market.tape mk ++ [to_tape sym t]).
  - by replace (length (Market.tape mk) + 1 - 1000)%nat with 0%nat by lia.
Qed.

Lemma tape_hooks sym ts mk :
  (length (Market.tape mk) ≤ 1000)%nat →
  Market.tape (foldl (λ mk t, onTradeHook sym t mk) mk ts)
  = lastn 1000 (Market.tape mk ++ (to_tape sym <$> ts)).
Proof.
  revert mk. induction ts as [|t ts IH]; intros mk H; cbn [foldl fmap list_fmap].
  - by rewrite app_nil_r, lastn_all.
  - rewrite IH.
    + rewrite tape_onTradeHook by done. rewrite lastn_app. by rewrite <-app_assoc.
    + rewrite tape_onTradeHook by done. apply lastn_length.
Qed.

Lemma tape_mirrors_after sym mk b' ts :
  tape_mirrors sym mk →
  trades b' = lastn 1000 (trades (Market.book mk) ++ ts) →
  tape_mirrors sym (after_book sym b' ts mk).
Proof.
  intros [Hlen Htape] Hb'. unfold tape_mirrors.
  rewrite book_after_book. split; [rewrite Hb'; apply lastn_length|].
  unfold after_book. rewrite tape_hooks.
  - cbn. rewrite Htape, Hb', lastn_fmap, fmap_app. done.
  - cbn. rewrite Htape, length_fmap. done.
Qed.

Lemma tape_mirrors_server pw cs s ts :
  run_server pw cs new_Server = Some (s, ts) → every_market tape_mirrors s.
Proof.
  apply reachable_every_market.
  - intros d. unfold new_market. cbn. split; [cbn; lia | done].
  - intros sym mk o H. exact H.
  - intros sym mk px H. exact H.
  - intros sym mk u H. exact H.
  - intros sym mk now u sd p q r b' ts' H _ _ _ _ Hpl.
    apply tape_mirrors_after; [done|].
    eapply placeLimit_record; [done|]. by destruct H.
  - intros sym mk now u sd p mq r b' ts' H _ Htk.
    apply tape_mirrors_after; [done|].
    eapply takeAtPrice_record; [done|]. by destruct H.
  - intros sym mk u sd p [Hlen Htape]. unfold tape_mirrors. cbn.
    unfold cancelAtPrice. destruct (ownMap sd (Market.book mk) !! _); [|done].
    cbn. by rewrite trades_set_ownMap.
Qed.

(** X18. The tape a market keeps through onTradeHook is the trade log of
    its book: in every state the server reaches, every market's tape has
    one entry per trade of the book's log, in the same order, with the
    trade's time, price and quantity and the market's symbol; both hold at
    most 1000 entries. *)
Theorem X18_market_tape_is_book_log (pw : string) (cs : list (Z * string * Command)) :
  ∃ s ts,
    run_server pw cs new_Server = Some (s, ts) ∧
    ∀ code g sym mk,
      games s !! code = Some g → Game.markets g !! sym = Some mk →
      Market.tape mk = to_tape sym <$> trades (Market.book mk) ∧
      (length (Market.tape mk) ≤ 1000)%nat.
Proof.
  destruct (run_server_total pw cs new_Server) as [[s ts] Hrun].
  exists s, ts. split; [done|]. intros code g sym mk Hg Hmk.
  destruct (tape_mirrors_server pw cs s ts Hrun code g sym mk Hg Hmk) as [Hlen Htape].
  split; [done|]. by rewrite Htape, length_fmap.
Qed.

(** ** Market symbols *)

Lemma call_symbol c b b' : call c b = Some b' → symbol b' = symbol b.
Proof.
  destruct c as [now u s p q | now u s p q | u s p | u]; cbn; intros Hc.
  - destruct (placeLimit now u s p q b) as [[[r b1] ts]|] eqn:Hp; cbn in Hc; [|done].
    injection Hc as <-. unfold placeLimit in Hp. rewrite checkPosLimit_eq in Hp.
    case_bool_decide; cbn in Hp; [|by simplify_eq].
    destruct (_matchIncoming _ _ _) as [[[o' b3] ts3]|] eqn:Hm; cbn in Hp; [|done].
    destruct (match_loop_meta _ _ _ _ _ _ _ Hm) as (Hsym&_). cbn in Hsym.
    injection Hp as _ <- _.
    case_bool_decide; [|done]. unfold set_ownMap. by destruct (is_buy s).
  - destruct (takeAtPrice now u s p q b) as [[[r b1] ts]|] eqn:Ht; cbn in Hc; [|done].
    injection Hc as <-. unfold takeAtPrice in Ht.
    destruct (makerMap s b !! _) as [q0|]; cbn in Ht; [|by simplify_eq].
    case_bool_decide; cbn in Ht; [by simplify_eq|].
    destruct (take_loop _ _ _ _ _ _ _ _) as [[[[r1 q1] b2] ts1]|] eqn:Hl; cbn in Ht; [|done].
    apply take_loop_frame in Hl as (Hsym&_). injection Ht as _ <- _.
    unfold set_makerMap. by destruct (is_buy s).
  - injection Hc as <-. unfold cancelAtPrice. destruct (ownMap s b !! _); [|done].
    cbn. unfold set_ownMap. by destruct (is_buy s).
  - by injection Hc as <-.
Qed.

Lemma upper_ascii_idemp c : upper_ascii (upper_ascii c) = upper_ascii c.
Proof. destruct c as [[] [] [] [] [] [] [] []]; reflexivity. Qed.

Lemma toUpperCase_idemp s : toUpperCase (toUpperCase s) = toUpperCase s.
Proof. induction s as [|c s IH]; cbn; [done|]. by rewrite upper_ascii_idemp, IH. Qed.

Lemma toUpperCase_substring0 n s :
  toUpperCase (String.substring 0 n s) = String.substring 0 n (toUpperCase s).
Proof.
  revert s. induction n as [|n IH]; intros [|c s]; cbn; try done. by rewrite IH.
Qed.

Lemma length_substring0 n s : (String.length (String.substring 0 n s) ≤ n)%nat.
Proof.
  revert s. induction n as [|n IH]; intros [|c s]; cbn; try lia.
  specialize (IH s). lia.
Qed.

Lemma well_keyed_new d : well_keyed (new_market d).1 (new_market d).2.
Proof.
  unfold new_market, well_keyed. cbn. split; [done|].
  unfold or_string. case_bool_decide as He.
  - split; [done|]. split; [cbn; lia | done].
  - split; [done|]. split; [apply length_substring0|].
    by rewrite toUpperCase_substring0, toUpperCase_idemp.
Qed.

Lemma well_keyed_book sym mk mk' :
  symbol (Market.book mk') = symbol (Market.book mk) → well_keyed sym mk → well_keyed sym mk'.
Proof. intros Hb (Hs&?&?&?). unfold well_keyed. by rewrite Hb. Qed.

Lemma well_keyed_server pw cs s ts :
  run_server pw cs new_Server = Some (s, ts) → every_market well_keyed s.
Proof.
  apply reachable_every_market.
  - apply well_keyed_new.
  - intros sym mk o H. exact H.
  - intros sym mk px H. exact H.
  - intros sym mk u H. exact H.
  - intros sym mk now u sd p q r b' ts' H _ _ _ _ Hpl.
    eapply well_keyed_book; [|exact H]. rewrite book_after_book.
    apply (call_symbol (CallPlaceLimit now u sd p q)). cbn. by rewrite Hpl.
  - intros sym mk now u sd p mq r b' ts' H _ Htk.
    eapply well_keyed_book; [|exact H]. rewrite book_after_book.
    apply (call_symbol (CallTakeAtPrice now u sd p mq)). cbn. by rewrite Htk.
  - intros sym mk u sd p H. eapply well_keyed_book; [|exact H].
    by apply (call_symbol (CallCancelAtPrice u sd p)).
Qed.

(** X20. Markets are keyed by the symbol of their book, and the symbol is
    as ensureGameAdminCreate sanitises it: in every state the server
    reaches, every market's key is its book's symbol, non-empty, at most 16
    characters long and unchanged by toUpperCase. *)
Theorem X20_market_symbols (pw : string) (cs : list (Z * string * Command)) :
  ∃ s ts,
    run_server pw cs new_Server = Some (s, ts) ∧
    ∀ code g sym mk,
      games s !! code = Some g → Game.markets g !! sym = Some mk →
      symbol (Market.book mk) = sym ∧ sym ≠ "" ∧
      (String.length sym ≤ 16)%nat ∧ toUpperCase sym = sym.
Proof.
  destruct (run_server_total pw cs new_Server) as [[s ts] Hrun].
  exists s, ts. split; [done|]. by apply (well_keyed_server pw cs s ts).
Qed.

(** ** The shape of a game *)

Lemma game_shape_same code g g' : same_shape g g' → game_shape code g → game_shape code g'.
Proof.
  intros (Hm&He&Hu&Hr) (?&?&?&?&?&?). unfold game_shape.
  rewrite Hm, He, Hu, Hr. done.
Qed.

Lemma same_shape_refl g : same_shape g g.
Proof. done. Qed.

Lemma same_shape_trans g1 g2 g3 : same_shape g1 g2 → same_shape g2 g3 → same_shape g1 g3.
Proof.
  intros (Hm&He&Hu&Hr) (Hm'&He'&Hu'&Hr'). unfold same_shape.
  rewrite Hm', He', Hu', Hr'. done.
Qed.

Lemma same_shape_sendPersonalBundle sid g : same_shape g (sendPersonalBundle sid g).
Proof. unfold same_shape, sendPersonalBundle. cbn. by rewrite map_size_fmap. Qed.

Lemma same_shape_fanout g : same_shape g (fanout g).
Proof.
  unfold fanout. induction (elements (Game.room g)) as [|sid l IH]; cbn; [done|].
  eapply same_shape_trans; [exact IH | apply same_shape_sendPersonalBundle].
Qed.

Lemma same_shape_set_market sym mk g :
  is_Some (Game.markets g !! sym) →
  same_shape g (Game.set_markets (<[sym := mk]> (Game.markets g)) g).
Proof. intros H. unfold same_shape. cbn. by rewrite map_size_insert_Some. Qed.

Lemma size_new_markets (ms : gmap string Market.t) defs :
  (size (foldl add_market ms defs) ≤ size ms + length defs)%nat.
Proof.
  revert ms. induction defs as [|d defs IH]; intros ms; cbn [foldl length]; [lia|].
  etrans; [apply IH|]. unfold add_market. destruct (new_market d) as [sym mk].
  rewrite map_size_insert. destruct (ms !! sym); cbn; lia.
Qed.

Lemma size_settle_all (priceMap : list (string * Qc)) (ms : gmap string Market.t) :
  size (foldl settle_entry ms priceMap) = size ms.
Proof.
  revert ms. induction priceMap as [|[sym v] pm IH]; intros ms; cbn [foldl]; [done|].
  rewrite IH. unfold settle_entry. cbn. destruct (ms !! sym) as [mk|] eqn:Hmk; [|done].
  by rewrite map_size_insert_Some.
Qed.

Lemma name_ok_display name sid :
  name_ok (or_string (String.substring 0 24 name)
             (String.append "Player-" (String.substring 0 4 sid))).
Proof.
  unfold or_string, name_ok. case_bool_decide as He.
  - split; [done|]. pose proof (length_substring0 4 sid) as H.
    revert H. generalize (String.substring 0 4 sid). intros x H.
    change (String.length (String.append "Player-" x)) with (7 + String.length x)%nat. lia.
  - split; [done | apply length_substring0].
Qed.

Lemma game_shape_enter code g sid r name R :
  name_ok name → game_shape code g →
  game_shape code
    (Game.set_room R
       (Game.set_usernames (<[sid := name]> (Game.usernames g))
          (Game.set_roles (<[sid := r]> (Game.roles g)) g))).
Proof.
  intros Hn (?&?&?&?&Hu&Hd). unfold game_shape. cbn.
  split; [done|]. split; [done|]. split; [done|]. split; [done|].
  split; [by apply map_Forall_insert_2|]. by rewrite !dom_insert_L, Hd.
Qed.

Lemma game_shape_new code defs :
  four_digits code = true →
  game_shape code (Game.mk (foldl add_market ∅ (take MAX_MARKETS defs)) ∅ ∅ [] ∅).
Proof.
  intros Hc. unfold game_shape. cbn. split; [done|]. split.
  { etrans; [apply size_new_markets|]. rewrite map_size_empty, length_take.
    unfold MAX_MARKETS. lia. }
  split; [lia|]. split; [done|]. split; [apply map_Forall_empty|].
  by rewrite !dom_empty_L.
Qed.

Lemma game_shape_event code g now text :
  game_shape code g →
  let es := Game.events g ++ [(now, String.substring 0 500 text)] in
  game_shape code
    (Game.set_events (if bool_decide (500 < length es)%nat then tail es else es) g).
Proof.
  intros (?&?&Hlen&Hall&?&?) es. unfold game_shape. cbn.
  split; [done|]. split; [done|].
  assert (Forall (λ e : Z * string, (String.length e.2 ≤ 500)%nat) es) as Hes.
  { apply Forall_app. split; [done|]. constructor; [|done]. apply length_substring0. }
  assert (length es = S (length (Game.events g))) as Hl.
  { unfold es. rewrite length_app. cbn. lia. }
  case_bool_decide.
  - split; [|split; [|done]].
    + destruct es; cbn in *; lia.
    + destruct es; [done|]. by apply Forall_cons in Hes as [_ ?].
  - split; [lia|]. split; [done|done].
Qed.

Lemma game_shape_leave code g sid :
  game_shape code g →
  game_shape code
    (Game.set_roles (delete sid (Game.roles g))
       (Game.set_usernames (delete sid (Game.usernames g)) g)).
Proof.
  intros (?&?&?&?&Hu&Hd). unfold game_shape. cbn.
  split; [done|]. split; [done|]. split; [done|]. split; [done|].
  split; [by apply map_Forall_delete|]. by rewrite !dom_delete_L, Hd.
Qed.

Lemma games_shape_put code g s :
  game_shape code g → map_Forall game_shape (games s) →
  map_Forall game_shape (games (put_game code g s)).
Proof. intros Hg Hs. unfold put_game. cbn. by apply map_Forall_insert_2. Qed.

Lemma game_of_shape sid s code g :
  map_Forall game_shape (games s) → game_of sid s = Some (code, g) →
  games s !! code = Some g ∧ game_shape code g.
Proof.
  unfold game_of. intros Hs Hg.
  destruct (codes s !! sid) as [c|]; cbn in Hg; [|done].
  destruct (games s !! c) as [g0|] eqn:Hg0; cbn in Hg; [|done].
  simplify_eq. split; [done|]. by eapply Hs.
Qed.

Lemma step_shape pw now sid c s s' ts :
  map_Forall game_shape (games s) → step pw now sid c s = Some (s', ts) →
  map_Forall game_shape (games s').
Proof.
  intros Hs Hstep.
  destruct c as [code pw' defs | code name | symbol o | o | symbol price | priceMap
                | text | symbol side price qty | symbol side price
                | symbol side price maxQty | ]; cbn in Hstep.
  - case_bool_decide; [by simplify_eq|].
    destruct (four_digits code) eqn:Hcode; cbn in Hstep; [|by simplify_eq].
    unfold ensureGameAdminCreate in Hstep.
    destruct (games s !! code) as [g|] eqn:Hg; simplify_eq.
    + apply games_shape_put; [|done].
      eapply game_shape_same; [apply same_shape_sendPersonalBundle|].
      apply game_shape_enter; [by split; [|cbn; lia] | by eapply Hs].
    + apply games_shape_put; [|by apply map_Forall_insert_2; [apply game_shape_new|]].
      eapply game_shape_same; [apply same_shape_sendPersonalBundle|].
      apply game_shape_enter; [by split; [|cbn; lia] | by apply game_shape_new].
  - destruct (games s !! code) as [g|] eqn:Hg; [|by simplify_eq].
    simplify_eq. apply games_shape_put; [|done].
    eapply game_shape_same; [apply same_shape_sendPersonalBundle|].
    apply game_shape_enter; [apply name_ok_display | by eapply Hs].
  - destruct (game_of sid s) as [[code g]|] eqn:Hg; [|by simplify_eq].
    destruct (is_admin sid g); cbn in Hstep; [|by simplify_eq].
    destruct (Game.markets g !! symbol) as [mk|] eqn:Hmk; [|by simplify_eq].
    destruct (game_of_shape _ _ _ _ Hs Hg) as [_ Hgs].
    simplify_eq. apply games_shape_put; [|done].
    eapply game_shape_same; [|exact Hgs].
    eapply same_shape_trans; [|apply same_shape_fanout].
    by apply same_shape_set_market.
  - destruct (game_of sid s) as [[code g]|] eqn:Hg; [|by simplify_eq].
    destruct (is_admin sid g); cbn in Hstep; [|by simplify_eq].
    destruct (game_of_shape _ _ _ _ Hs Hg) as [_ Hgs].
    simplify_eq. apply games_shape_put; [|done].
    eapply game_shape_same; [|exact Hgs].
    eapply same_shape_trans; [|apply same_shape_fanout].
    unfold same_shape. cbn. by rewrite map_size_fmap.
  - destruct (game_of sid s) as [[code g]|] eqn:Hg; [|by simplify_eq].
    destruct (is_admin sid g); cbn in Hstep; [|by simplify_eq].
    destruct (Game.markets g !! symbol) as [mk|] eqn:Hmk; [|by simplify_eq].
    destruct (game_of_shape _ _ _ _ Hs Hg) as [_ Hgs].
    simplify_eq. apply games_shape_put; [|done].
    eapply game_shape_same; [|exact Hgs].
    eapply same_shape_trans; [|apply same_shape_fanout].
    by apply same_shape_set_market.
  - destruct (game_of sid s) as [[code g]|] eqn:Hg; [|by simplify_eq].
    destruct (is_admin sid g); cbn in Hstep; [|by simplify_eq].
    destruct (game_of_shape _ _ _ _ Hs Hg) as [_ Hgs].
    simplify_eq. apply games_shape_put; [|done].
    eapply game_shape_same; [|exact Hgs].
    eapply same_shape_trans; [|apply same_shape_fanout].
    unfold same_shape. cbn. by rewrite size_settle_all.
  - destruct (game_of sid s) as [[code g]|] eqn:Hg; [|by simplify_eq].
    destruct (is_admin sid g); cbn in Hstep; [|by simplify_eq].
    destruct (game_of_shape _ _ _ _ Hs Hg) as [_ Hgs].
    simplify_eq. apply games_shape_put; [|done].
    by apply game_shape_event.
  - destruct (game_of sid s) as [[code g]|] eqn:Hg; [|by simplify_eq].
    destruct (Game.markets g !! symbol) as [mk|] eqn:Hmk; [|by simplify_eq].
    destruct (Market.open mk); cbn in Hstep; [|by simplify_eq].
    destruct (is_buy side || is_sell side); cbn in Hstep; [|by simplify_eq].
    destruct (bool_decide (0 < price) && bool_decide (0 < qty)); cbn in Hstep;
      [|by simplify_eq].
    destruct (placeLimit _ _ _ _ _ _) as [[[res b'] ts']|]; cbn in Hstep; [|done].
    destruct (game_of_shape _ _ _ _ Hs Hg) as [_ Hgs].
    assert (same_shape g (Game.set_markets
      (<[symbol := after_book symbol b' ts' mk]> (Game.markets g)) g)) as Hg1
      by by apply same_shape_set_market.
    destruct res; simplify_eq; (apply games_shape_put; [|done]);
      (eapply game_shape_same; [|exact Hgs]); [done|].
    eapply same_shape_trans; [exact Hg1 | apply same_shape_fanout].
  - destruct (game_of sid s) as [[code g]|] eqn:Hg; [|by simplify_eq].
    destruct (Game.markets g !! symbol) as [mk|] eqn:Hmk; [|by simplify_eq].
    destruct (game_of_shape _ _ _ _ Hs Hg) as [_ Hgs].
    simplify_eq. apply games_shape_put; [|done].
    eapply game_shape_same; [|exact Hgs].
    eapply same_shape_trans; [|apply same_shape_fanout].
    by apply same_shape_set_market.
  - destruct (game_of sid s) as [[code g]|] eqn:Hg; [|by simplify_eq].
    destruct (Game.markets g !! symbol) as [mk|] eqn:Hmk; [|by simplify_eq].
    destruct (Market.open mk); cbn in Hstep; [|by simplify_eq].
    destruct (takeAtPrice _ _ _ _ _ _) as [[[res b'] ts']|]; cbn in Hstep; [|done].
    destruct (game_of_shape _ _ _ _ Hs Hg) as [_ Hgs].
    simplify_eq. apply games_shape_put; [|done].
    eapply game_shape_same; [|exact Hgs].
    eapply same_shape_trans; [|apply same_shape_fanout].
    by apply same_shape_set_market.
  - simplify_eq. cbn.
    apply map_Forall_fmap.
    assert (map_Forall game_shape
      match game_of sid s with
      | Some (code, g) =>
          <[code := Game.set_roles (delete sid (Game.roles g))
                      (Game.set_usernames (delete sid (Game.usernames g)) g)]> (games s)
      | None => games s
      end) as H.
    { destruct (game_of sid s) as [[code g]|] eqn:Hg; [|done].
      destruct (game_of_shape _ _ _ _ Hs Hg) as [_ Hgs].
      apply map_Forall_insert_2; [|done]. by apply game_shape_leave. }
    eapply map_Forall_impl; [exact H|]. by intros code g Hg.
Qed.

Lemma run_server_shape pw cs s s' ts :
  run_server pw cs s = Some (s', ts) →
  map_Forall game_shape (games s) → map_Forall game_shape (games s').
Proof.
  revert s ts. induction cs as [|[[now sid] c] cs IH]; intros s ts; cbn.
  - by intros [= <- _].
  - destruct (step pw now sid c s) as [[s1 ts1]|] eqn:Hstep; cbn; [|done].
    destruct (run_server pw cs s1) as [[s2 ts2]|] eqn:Hrun; cbn; [|done].
    intros [= <- _] Hs. eapply IH; [done|]. by eapply step_shape.
Qed.

(** X21. The shape of the games, in every state the server reaches: a
    game's code is four digits; it has at most MAX_MARKETS = 5 markets; its
    event log holds at most 500 events, each text at most 500 characters;
    every stored display name is non-empty and at most 24 characters; and
    the sockets with a role are the sockets with a display name. *)
Theorem X21_game_shape (pw : string) (cs : list (Z * string * Command)) :
  ∃ s ts,
    run_server pw cs new_Server = Some (s, ts) ∧
    ∀ code g, games s !! code = Some g →
      four_digits code = true ∧
      (size (Game.markets g) ≤ 5)%nat ∧
      (length (Game.events g) ≤ 500)%nat ∧
      Forall (λ e : Z * string, (String.length e.2 ≤ 500)%nat) (Game.events g) ∧
      (∀ sid name, Game.usernames g !! sid = Some name →
         name ≠ "" ∧ (String.length name ≤ 24)%nat) ∧
      dom (Game.roles g) = dom (Game.usernames g).
Proof.
  destruct (run_server_total pw cs new_Server) as [[s ts] Hrun].
  exists s, ts. split; [done|]. intros code g Hg.
  assert (map_Forall game_shape (games s)) as Hs.
  { eapply run_server_shape; [done|]. cbn. apply map_Forall_empty. }
  destruct (Hs code g Hg) as (?&?&?&?&Hu&?).
  split; [done|]. split; [done|]. split; [done|]. split; [done|].
  split; [|done]. intros sid name Hn. exact (Hu sid name Hn).
Qed.

(** ** What a command does to a market *)

Lemma markets_fanout_list l g :
  Game.markets (foldr sendPersonalBundle g l) = views l <$> Game.markets g.
Proof.
  induction l as [|sid l IH]; cbn [foldr].
  - symmetry. apply map_fmap_id.
  - unfold sendPersonalBundle at 1. cbn. rewrite IH, <-map_fmap_compose. done.
Qed.

Lemma markets_fanout g :
  Game.markets (fanout g) = views (elements (Game.room g)) <$> Game.markets g.
Proof. apply markets_fanout_list. Qed.

(** A relation between the market before and after that every way a
    handler writes to the market establishes, holds across a command. *)
Section step_market.
Context (pw : string) (now : Z) (sid : string) (c : Command) (s : Server).
Context (code : string) (g : Game.t) (sym : string) (mk : Market.t).
Context (R : Market.t → Prop).

Hypothesis R_refl : R mk.
Hypothesis R_view : ∀ x u, R x → R (view u x).
Hypothesis R_open : ∀ o,
  game_of sid s = Some (code, g) → is_admin sid g = true →
  c = admin_toggle_market sym o ∨ c = admin_toggle_all o →
  R (Market.set_open o mk).
Hypothesis R_settle : ∀ px x,
  game_of sid s = Some (code, g) → is_admin sid g = true →
  c = admin_settle sym px ∨ (∃ pm, c = admin_settle_all pm) →
  R x → R (settle_market px x).
Hypothesis R_place : ∀ side p q r b' ts,
  game_of sid s = Some (code, g) → c = place_order sym side p q →
  Market.open mk = true →
  placeLimit now sid side p q (Market.book mk) = Some (r, b', ts) →
  R (after_book sym b' ts mk).
Hypothesis R_take : ∀ side p mq r b' ts,
  game_of sid s = Some (code, g) → c = click_trade sym side p mq →
  Market.open mk = true →
  takeAtPrice now sid side p (Math_max 1 (or_default mq 1)) (Market.book mk)
  = Some (r, b', ts) →
  R (after_book sym b' ts mk).
Hypothesis R_cancel : ∀ side p,
  game_of sid s = Some (code, g) → c = cancel_at_price sym side p →
  R (Market.set_book (cancelAtPrice sid side p (Market.book mk)).2 mk).

Hypothesis Hg : games s !! code = Some g.
Hypothesis Hmk : Game.markets g !! sym = Some mk.

Lemma R_views us x : R x → R (views us x).
Proof. intros H. induction us as [|u us IH]; cbn; [done|]. by apply R_view. Qed.

(** The result of a handler: the game [g1] is stored under [code1]. *)
Lemma track_put code1 g1 s1 :
  games s1 !! code = Some g →
  (code1 = code → ∃ mk', Game.markets g1 !! sym = Some mk' ∧ R mk') →
  ∃ g' mk', games (put_game code1 g1 s1) !! code = Some g' ∧
            Game.markets g' !! sym = Some mk' ∧ R mk'.
Proof.
  intros Hs1 H1. unfold put_game. cbn. destruct (decide (code1 = code)) as [->|Hne].
  - destruct (H1 eq_refl) as (mk' & Hmk' & HR). exists g1, mk'.
    by rewrite lookup_insert_eq.
  - exists g, mk. by rewrite lookup_insert_ne.
Qed.

Lemma track_fanout g1 x :
  Game.markets g1 !! sym = Some x → R x →
  ∃ mk', Game.markets (fanout g1) !! sym = Some mk' ∧ R mk'.
Proof.
  intros Hx HR. eexists. rewrite markets_fanout, lookup_fmap, Hx. cbn.
  split; [done|]. by apply R_views.
Qed.

Lemma track_send u g1 x :
  Game.markets g1 !! sym = Some x → R x →
  ∃ mk', Game.markets (sendPersonalBundle u g1) !! sym = Some mk' ∧ R mk'.
Proof.
  intros Hx HR. eexists. unfold sendPersonalBundle. cbn. rewrite lookup_fmap, Hx. cbn.
  split; [done|]. by apply R_view.
Qed.

Lemma track_set symbol x :
  (symbol = sym → R x) →
  ∃ y, (<[symbol := x]> (Game.markets g)) !! sym = Some y ∧ R y.
Proof.
  intros H. destruct (decide (symbol = sym)) as [->|Hne].
  - exists x. rewrite lookup_insert_eq. split; [done | by apply H].
  - exists mk. by rewrite lookup_insert_ne.
Qed.

Lemma game_of_code code1 g1 :
  game_of sid s = Some (code1, g1) → games s !! code1 = Some g1.
Proof.
  unfold game_of. intros H.
  destruct (codes s !! sid) as [c0|]; cbn in H; [|done].
  destruct (games s !! c0) as [g0|] eqn:Hg0; cbn in H; [|done]. by simplify_eq.
Qed.

Lemma track_settle_all (pm : list (string * Qc)) (ms : gmap string Market.t) x :
  game_of sid s = Some (code, g) → is_admin sid g = true →
  (∃ pm0, c = admin_settle_all pm0) →
  ms !! sym = Some x → R x →
  ∃ y, foldl settle_entry ms pm !! sym = Some y ∧ R y.
Proof.
  intros Hgo Ha Hc. revert ms x.
  induction pm as [|[sy v] pm IH]; intros ms x Hx HR; cbn [foldl]; [by exists x|].
  unfold settle_entry at 2. cbn.
  destruct (ms !! sy) as [mk0|] eqn:Hsy; [|by eapply IH].
  destruct (decide (sy = sym)) as [->|Hne].
  - eapply IH; [by rewrite lookup_insert_eq|].
    rewrite Hx in Hsy. injection Hsy as <-. apply R_settle; [done|done|by right|done].
  - eapply IH; [by rewrite lookup_insert_ne | done].
Qed.

Lemma track_same s1 :
  games s1 = games s →
  ∃ g' mk', games s1 !! code = Some g' ∧ Game.markets g' !! sym = Some mk' ∧ R mk'.
Proof. intros ->. by exists g, mk. Qed.

Lemma step_market s' ts :
  step pw now sid c s = Some (s', ts) →
  ∃ g' mk', games s' !! code = Some g' ∧ Game.markets g' !! sym = Some mk' ∧ R mk'.
Proof.
  intros Hstep.
  pose proof track_same as track_same'. pose proof track_put as track_put'.
  pose proof track_fanout as track_fanout'. pose proof track_send as track_send'.
  pose proof track_set as track_set'. pose proof track_settle_all as track_settle_all'.
  remember c as c0 eqn:Hc in Hstep.
  destruct c0 as [code0 pw' defs | code0 name | symbol o | o | symbol price | priceMap
                 | text | symbol side price qty | symbol side price
                 | symbol side price maxQty | ]; cbn in Hstep.
  - case_bool_decide; [injection Hstep as <- <-; by apply track_same'|].
    destruct (four_digits code0); cbn in Hstep; [|injection Hstep as <- <-; by apply track_same'].
    unfold ensureGameAdminCreate in Hstep.
    destruct (games s !! code0) as [g0|] eqn:Hg0; cbn in Hstep; injection Hstep as <- <-.
    + apply track_put'; [exact Hg|]. intros ->. rewrite Hg in Hg0. injection Hg0 as <-.
      apply (track_send' sid _ mk); [exact Hmk | exact R_refl].
    + assert (code0 ≠ code) as Hne by (intros ->; by rewrite Hg in Hg0).
      apply track_put'; [|done]. cbn. by rewrite lookup_insert_ne.
  - destruct (games s !! code0) as [g0|] eqn:Hg0; [|injection Hstep as <- <-; by apply track_same'].
    injection Hstep as <- <-. apply track_put'; [exact Hg|]. intros ->.
    rewrite Hg in Hg0. injection Hg0 as <-.
    apply (track_send' sid _ mk); [exact Hmk | exact R_refl].
  - destruct (game_of sid s) as [[code1 g1]|] eqn:Hgo; [|injection Hstep as <- <-; by apply track_same'].
    destruct (is_admin sid g1) eqn:Ha; cbn in Hstep; [|injection Hstep as <- <-; by apply track_same'].
    destruct (Game.markets g1 !! symbol) as [mk1|] eqn:Hmk1;
      [|injection Hstep as <- <-; by apply track_same'].
    injection Hstep as <- <-. apply track_put'; [exact Hg|]. intros ->.
    pose proof (game_of_code _ _ Hgo) as Hg1. rewrite Hg in Hg1. injection Hg1 as <-.
    destruct (track_set' symbol (Market.set_open o mk1)) as (y & Hy & HR).
    { intros ->. rewrite Hmk in Hmk1. injection Hmk1 as <-.
      apply R_open; [done|done|by left]. }
    by eapply track_fanout'.
  - destruct (game_of sid s) as [[code1 g1]|] eqn:Hgo; [|injection Hstep as <- <-; by apply track_same'].
    destruct (is_admin sid g1) eqn:Ha; cbn in Hstep; [|injection Hstep as <- <-; by apply track_same'].
    injection Hstep as <- <-. apply track_put'; [exact Hg|]. intros ->.
    pose proof (game_of_code _ _ Hgo) as Hg1. rewrite Hg in Hg1. injection Hg1 as <-.
    eapply track_fanout'.
    + cbn. by rewrite lookup_fmap, Hmk.
    + apply R_open; [done|done|by right].
  - destruct (game_of sid s) as [[code1 g1]|] eqn:Hgo; [|injection Hstep as <- <-; by apply track_same'].
    destruct (is_admin sid g1) eqn:Ha; cbn in Hstep; [|injection Hstep as <- <-; by apply track_same'].
    destruct (Game.markets g1 !! symbol) as [mk1|] eqn:Hmk1;
      [|injection Hstep as <- <-; by apply track_same'].
    injection Hstep as <- <-. apply track_put'; [exact Hg|]. intros ->.
    pose proof (game_of_code _ _ Hgo) as Hg1. rewrite Hg in Hg1. injection Hg1 as <-.
    destruct (track_set' symbol (settle_market price mk1)) as (y & Hy & HR).
    { intros ->. rewrite Hmk in Hmk1. injection Hmk1 as <-.
      apply R_settle; [done|done|by left|exact R_refl]. }
    by eapply track_fanout'.
  - destruct (game_of sid s) as [[code1 g1]|] eqn:Hgo; [|injection Hstep as <- <-; by apply track_same'].
    destruct (is_admin sid g1) eqn:Ha; cbn in Hstep; [|injection Hstep as <- <-; by apply track_same'].
    injection Hstep as <- <-. apply track_put'; [exact Hg|]. intros ->.
    pose proof (game_of_code _ _ Hgo) as Hg1. rewrite Hg in Hg1. injection Hg1 as <-.
    destruct (track_settle_all' priceMap (Game.markets g) mk) as (y & Hy & HR);
      [done|done|by eexists|done|exact R_refl|].
    by eapply track_fanout'.
  - destruct (game_of sid s) as [[code1 g1]|] eqn:Hgo; [|injection Hstep as <- <-; by apply track_same'].
    destruct (is_admin sid g1) eqn:Ha; cbn in Hstep; [|injection Hstep as <- <-; by apply track_same'].
    injection Hstep as <- <-. apply track_put'; [exact Hg|]. intros ->.
    pose proof (game_of_code _ _ Hgo) as Hg1. rewrite Hg in Hg1. injection Hg1 as <-.
    exists mk. split; [exact Hmk | exact R_refl].
  - destruct (game_of sid s) as [[code1 g1]|] eqn:Hgo; [|injection Hstep as <- <-; by apply track_same'].
    destruct (Game.markets g1 !! symbol) as [mk1|] eqn:Hmk1;
      [|injection Hstep as <- <-; by apply track_same'].
    destruct (Market.open mk1) eqn:Hopen; cbn in Hstep; [|injection Hstep as <- <-; by apply track_same'].
    destruct (is_buy side || is_sell side); cbn in Hstep;
      [|injection Hstep as <- <-; by apply track_same'].
    destruct (bool_decide (0 < price) && bool_decide (0 < qty)); cbn in Hstep;
      [|injection Hstep as <- <-; by apply track_same'].
    destruct (placeLimit _ _ _ _ _ _) as [[[res b'] ts']|] eqn:Hpl; cbn in Hstep; [|done].
    assert (code1 = code → ∃ y,
      (<[symbol := after_book symbol b' ts' mk1]> (Game.markets g)) !! sym = Some y ∧ R y)
      as Hset.
    { intros ->.
      pose proof (game_of_code _ _ Hgo) as Hg1. rewrite Hg in Hg1. injection Hg1 as <-.
      apply track_set'. intros ->. rewrite Hmk in Hmk1. injection Hmk1 as <-.
      by eapply R_place. }
    destruct res; injection Hstep as <- <-; (apply track_put'; [exact Hg|]); intros ->;
      pose proof (game_of_code _ _ Hgo) as Hg1; rewrite Hg in Hg1; injection Hg1 as <-;
      destruct (Hset eq_refl) as (y & Hy & HR).
    + by exists y.
    + by eapply track_fanout'.
  - destruct (game_of sid s) as [[code1 g1]|] eqn:Hgo; [|injection Hstep as <- <-; by apply track_same'].
    destruct (Game.markets g1 !! symbol) as [mk1|] eqn:Hmk1;
      [|injection Hstep as <- <-; by apply track_same'].
    injection Hstep as <- <-. apply track_put'; [exact Hg|]. intros ->.
    pose proof (game_of_code _ _ Hgo) as Hg1. rewrite Hg in Hg1. injection Hg1 as <-.
    destruct (track_set' symbol
      (Market.set_book (cancelAtPrice sid side price (Market.book mk1)).2 mk1))
      as (y & Hy & HR).
    { intros ->. rewrite Hmk in Hmk1. injection Hmk1 as <-. by apply R_cancel. }
    by eapply track_fanout'.
  - destruct (game_of sid s) as [[code1 g1]|] eqn:Hgo; [|injection Hstep as <- <-; by apply track_same'].
    destruct (Game.markets g1 !! symbol) as [mk1|] eqn:Hmk1;
      [|injection Hstep as <- <-; by apply track_same'].
    destruct (Market.open mk1) eqn:Hopen; cbn in Hstep; [|injection Hstep as <- <-; by apply track_same'].
    destruct (takeAtPrice _ _ _ _ _ _) as [[[res b'] ts']|] eqn:Htk; cbn in Hstep; [|done].
    injection Hstep as <- <-. apply track_put'; [exact Hg|]. intros ->.
    pose proof (game_of_code _ _ Hgo) as Hg1. rewrite Hg in Hg1. injection Hg1 as <-.
    destruct (track_set' symbol (after_book symbol b' ts' mk1)) as (y & Hy & HR).
    { intros ->. rewrite Hmk in Hmk1. injection Hmk1 as <-. by eapply R_take. }
    by eapply track_fanout'.
  - injection Hstep as <- <-. cbn. rewrite lookup_fmap.
    destruct (game_of sid s) as [[code1 g1]|] eqn:Hgo.
    + destruct (decide (code1 = code)) as [->|Hne].
      * pose proof (game_of_code _ _ Hgo) as Hg1. rewrite Hg in Hg1. injection Hg1 as <-.
        rewrite lookup_insert_eq. cbn. eexists _, mk. split; [done|].
        split; [exact Hmk | exact R_refl].
      * rewrite lookup_insert_ne by done. rewrite Hg. cbn. eexists _, mk.
        split; [done|]. split; [exact Hmk | exact R_refl].
    + rewrite Hg. cbn. eexists _, mk. split; [done|]. split; [exact Hmk | exact R_refl].
Qed.
End step_market.

Lemma same_life_view u mk x : same_life mk x → same_life mk (view u x).
Proof. intros [??]. by split. Qed.

(** X22. Games and markets stay, and only an admin moves a market through
    its lifecycle: whatever the command and the state, the command is
    handled, every market of every game is still there afterwards under the
    same code and symbol, and its open flag and settlement are as before
    unless the command is one of admin_toggle_market, admin_toggle_all,
    admin_settle, admin_settle_all and comes from a socket that addresses
    this game and holds the admin role in it. *)
Theorem X22_lifecycle_needs_admin (pw : string) (now : Z) (sid : string) (c : Command)
    (s : Server) :
  ∃ s' ts,
    step pw now sid c s = Some (s', ts) ∧
    ∀ code g sym mk,
      games s !! code = Some g → Game.markets g !! sym = Some mk →
      ∃ g' mk',
        games s' !! code = Some g' ∧ Game.markets g' !! sym = Some mk' ∧
        ((Market.open mk' = Market.open mk ∧ Market.settlement mk' = Market.settlement mk) ∨
         (lifecycle c = true ∧ game_of sid s = Some (code, g) ∧
          Game.roles g !! sid = Some admin)).
Proof.
  destruct (step_total pw now sid c s) as [[s' ts] Hstep].
  exists s', ts. split; [done|]. intros code g sym mk Hg Hmk.
  apply (step_market pw now sid c s code g sym mk
    (λ mk', same_life mk mk' ∨
            (lifecycle c = true ∧ game_of sid s = Some (code, g) ∧
             Game.roles g !! sid = Some admin)) ) with (ts := ts);
    [ | | | | | | | exact Hg | exact Hmk | exact Hstep].
  - by left.
  - intros x u [H|H]; [left; by apply same_life_view | by right].
  - intros o Hgo Ha%bool_decide_eq_true [-> | ->]; by right.
  - intros px x Hgo Ha%bool_decide_eq_true [-> | [pm ->]] _; by right.
  - intros side p q r b' ts' _ _ _ _. left. apply same_life_after_book.
  - intros side p mq r b' ts' _ _ _ _. left. apply same_life_after_book.
  - intros side p _ _. by left.
Qed.

Lemma quiet_refl mk : quiet mk mk.
Proof. unfold quiet. cbn. repeat split; done. Qed.

Lemma quiet_view u mk x : quiet mk x → quiet mk (view u x).
Proof.
  intros (Ht&Hi&Htp&Hus&Hp&Hb&Ha). unfold quiet, view, getPosPublic. cbn.
  split; [done|]. split; [done|]. split; [done|]. split; [done|].
  split; [|done]. intros v. rewrite <-Hp. cbn. apply pos_of_touch.
Qed.

Lemma quiet_life mk x o st :
  quiet mk x → quiet mk (Market.set_open o (Market.set_settlement st x)).
Proof. intros H. exact H. Qed.

Lemma quiet_cancel u sd p mk :
  quiet mk (Market.set_book (cancelAtPrice u sd p (Market.book mk)).2 mk).
Proof.
  unfold quiet. cbn. set (b := Market.book mk).
  assert ((∀ k, sublist (queue_at (ownMap sd (cancelAtPrice u sd p b).2) k)
                        (queue_at (ownMap sd b) k)) ∧
          makerMap sd (cancelAtPrice u sd p b).2 = makerMap sd b ∧
          trades (cancelAtPrice u sd p b).2 = trades b ∧
          orderIdSeq (cancelAtPrice u sd p b).2 = orderIdSeq b) as (Hown & Hmk & Htr & Hid).
  { unfold cancelAtPrice.
    destruct (ownMap sd b !! snapToTick p (tickSize b)) as [q|] eqn:Hq; [|done]. cbn.
    rewrite ownMap_set_ownMap, makerMap_set_ownMap, trades_set_ownMap.
    split; [|split; [done|split; [done|unfold set_ownMap; by destruct (is_buy sd)]]].
    intros k. unfold queue_at. case_bool_decide.
    - rewrite lookup_insert. case_decide as Hk; [|done].
      subst k. rewrite Hq. cbn. apply sublist_filter.
    - rewrite lookup_delete. case_decide as Hk; [|done].
      cbn. apply sublist_nil_l. }
  split; [done|]. split; [done|]. split; [done|]. split; [done|].
  split; [intros v; by rewrite cancelAtPrice_positions|].
  unfold ownMap, makerMap in Hown, Hmk. destruct (is_buy sd).
  - split; [exact Hown | intros k; by rewrite Hmk].
  - split; [intros k; by rewrite Hmk | exact Hown].
Qed.

(** X23. A closed market does not trade. Whatever the command and the
    state, for a market that is closed when the command arrives, and for
    any market when the command is not a place_order or click_trade on its
    symbol: afterwards the book's trade log, order counter and every
    position, and the market's tape and running totals, are as before, and
    every queue of either side is a sublist of what it was (orders can be
    cancelled, none is added, filled or reordered). *)
Theorem X23_closed_market_is_quiet (pw : string) (now : Z) (sid : string) (c : Command)
    (s : Server) :
  ∃ s' ts,
    step pw now sid c s = Some (s', ts) ∧
    ∀ code g sym mk,
      games s !! code = Some g → Game.markets g !! sym = Some mk →
      Market.open mk = false ∨ trades_in sym c = false →
      ∃ g' mk',
        games s' !! code = Some g' ∧ Game.markets g' !! sym = Some mk' ∧
        trades (Market.book mk') = trades (Market.book mk) ∧
        orderIdSeq (Market.book mk') = orderIdSeq (Market.book mk) ∧
        Market.tape mk' = Market.tape mk ∧
        Market.userStats mk' = Market.userStats mk ∧
        (∀ u, pos_of (positions (Market.book mk')) u
              = pos_of (positions (Market.book mk)) u) ∧
        (∀ k, sublist (queue_at (bids (Market.book mk')) k)
                      (queue_at (bids (Market.book mk)) k)) ∧
        (∀ k, sublist (queue_at (asks (Market.book mk')) k)
                      (queue_at (asks (Market.book mk)) k)).
Proof.
  destruct (step_total pw now sid c s) as [[s' ts] Hstep].
  exists s', ts. split; [done|]. intros code g sym mk Hg Hmk Hquiet.
  apply (step_market pw now sid c s code g sym mk (quiet mk)) with (ts := ts);
    [ | | | | | | | exact Hg | exact Hmk | exact Hstep].
  - apply quiet_refl.
  - intros x u. apply quiet_view.
  - intros o _ _ _. apply (quiet_life mk mk o (Market.settlement mk)), quiet_refl.
  - intros px x _ _ _ H. exact H.
  - intros side p q r b' ts' _ -> Hopen _. destruct Hquiet as [Hq|Hq].
    + by rewrite Hopen in Hq.
    + cbn in Hq. by rewrite bool_decide_eq_true_2 in Hq.
  - intros side p mq r b' ts' _ -> Hopen _. destruct Hquiet as [Hq|Hq].
    + by rewrite Hopen in Hq.
    + cbn in Hq. by rewrite bool_decide_eq_true_2 in Hq.
  - intros side p _ _. apply quiet_cancel.
Qed.

(** ** Snapshots *)

#[global] Instance before_total desc : Total (before desc).
Proof.
  intros a b. unfold before. destruct desc.
  - destruct (Qclt_le_dec a b) as [H|H]; [right; by apply Qclt_le_weak | by left].
  - destruct (Qclt_le_dec a b) as [H|H]; [left; by apply Qclt_le_weak | by right].
Qed.

#[global] Instance before_trans desc : Transitive (before desc).
Proof.
  intros a b c. unfold before. destruct desc; intros H1 H2.
  - by eapply Qcle_trans.
  - by eapply Qcle_trans.
Qed.

Lemma sorted_keys desc (m : gmap Qc (list Order.t)) :
  let l := merge_sort (before desc) (keys m) in
  StronglySorted (before desc) l ∧ NoDup l ∧ ∀ k, k ∈ l ↔ is_Some (m !! k).
Proof.
  intros l. split; [apply StronglySorted_merge_sort; apply _|].
  pose proof (merge_sort_Permutation (before desc) (keys m)) as Hp. fold l in Hp.
  split.
  - rewrite Hp. unfold keys. apply NoDup_fst_map_to_list.
  - intros k. rewrite Hp. apply elem_of_keys.
Qed.

Lemma sorted_strict desc (l : list Qc) :
  StronglySorted (before desc) l → NoDup l →
  StronglySorted (λ a b, if desc then b < a else a < b) l.
Proof.
  induction 1 as [|a l Hl IH Ha]; intros Hnd; [constructor|].
  apply NoDup_cons in Hnd as [Hnot Hnd]. constructor; [by apply IH|].
  rewrite Forall_forall in Ha |- *. intros b Hb. specialize (Ha b Hb).
  assert (a ≠ b) as Hne by (intros ->; done).
  unfold before in Ha. destruct desc.
  - apply Qcle_lt_or_eq in Ha as [?|?]; [done | by subst].
  - apply Qcle_lt_or_eq in Ha as [?|?]; [done | by subst].
Qed.

Lemma sorted_take {A} (R : relation A) n (l : list A) :
  StronglySorted R l → StronglySorted R (take n l).
Proof.
  intros H. rewrite <-(take_drop n l) in H. by apply StronglySorted_app_1_l in H.
Qed.

Lemma head_sorted_bids (m : gmap Qc (list Order.t)) :
  head (merge_sort (before true) (keys m)) = bestBid m.
Proof.
  destruct (sorted_keys true m) as (Hs & _ & Hin). cbn zeta in Hs, Hin.
  destruct (merge_sort (before true) (keys m)) as [|h t] eqn:Hl; cbn.
  - destruct (bestBid m) as [px|] eqn:Hb; [|done].
    apply (best_Some_lookup "sell") in Hb. apply Hin in Hb. by apply elem_of_nil in Hb.
  - destruct (bestBid m) as [px|] eqn:Hb.
    + f_equal. apply Qcle_antisym.
      * eapply bestBid_highest; [done|]. apply Hin. left.
      * apply StronglySorted_inv in Hs as [_ Hall]. rewrite Forall_forall in Hall.
        pose proof (best_Some_lookup "sell" m px Hb) as Hpx. apply Hin in Hpx.
        apply elem_of_cons in Hpx as [->|Hpx]; [apply Qcle_refl | by apply Hall].
    + apply (best_None "sell") in Hb. subst m.
      assert (h ∈ h :: t) as Hh by left. apply Hin in Hh.
      rewrite lookup_empty in Hh. by destruct Hh.
Qed.

Lemma head_sorted_asks (m : gmap Qc (list Order.t)) :
  head (merge_sort (before false) (keys m)) = bestAsk m.
Proof.
  destruct (sorted_keys false m) as (Hs & _ & Hin). cbn zeta in Hs, Hin.
  destruct (merge_sort (before false) (keys m)) as [|h t] eqn:Hl; cbn.
  - destruct (bestAsk m) as [px|] eqn:Hb; [|done].
    apply (best_Some_lookup "buy") in Hb. apply Hin in Hb. by apply elem_of_nil in Hb.
  - destruct (bestAsk m) as [px|] eqn:Hb.
    + f_equal. apply Qcle_antisym.
      * apply StronglySorted_inv in Hs as [_ Hall]. rewrite Forall_forall in Hall.
        pose proof (best_Some_lookup "buy" m px Hb) as Hpx. apply Hin in Hpx.
        apply elem_of_cons in Hpx as [->|Hpx]; [apply Qcle_refl | by apply Hall].
      * eapply bestAsk_lowest; [done|]. apply Hin. left.
    + apply (best_None "buy") in Hb. subst m.
      assert (h ∈ h :: t) as Hh by left. apply Hin in Hh.
      rewrite lookup_empty in Hh. by destruct Hh.
Qed.

Lemma size_foldl (q : list Order.t) a :
  foldl (λ s o, s + Order.leaves o) a q = a + sum_leaves q.
Proof.
  revert a. induction q as [|o q IH]; intros a.
  - change (sum_leaves []) with (Q2Qc 0). cbn. ring.
  - cbn [foldl]. rewrite IH.
    change (sum_leaves (o :: q)) with (Order.leaves o + sum_leaves q). ring.
Qed.

Lemma my_foldl u (q : list Order.t) a :
  foldl (λ s o, s + (if bool_decide (Order.userId o = u) then Order.leaves o else 0)) a q
  = a + sum_leaves (filter (λ o, Order.userId o = u) q).
Proof.
  revert a. induction q as [|o q IH]; intros a.
  - change (sum_leaves _) with (Q2Qc 0). cbn. ring.
  - cbn [foldl]. rewrite IH, filter_cons. case_bool_decide as Hu.
    + rewrite decide_True by done.
      change (sum_leaves (o :: ?l)) with (Order.leaves o + sum_leaves l). ring.
    + rewrite decide_False by done. ring.
Qed.

Lemma sum_leaves_bounds u (q : list Order.t) :
  Forall (λ o, 0 < Order.leaves o) q →
  0 ≤ sum_leaves (filter (λ o, Order.userId o = u) q) ∧
  sum_leaves (filter (λ o, Order.userId o = u) q) ≤ sum_leaves q ∧
  (q ≠ [] → 0 < sum_leaves q).
Proof.
  induction 1 as [|o q Ho Hq (IH0 & IH1 & IH2)].
  - split; [apply Qcle_refl|]. split; [apply Qcle_refl | done].
  - assert (0 ≤ sum_leaves q) as Hnn by (by etrans).
    change (sum_leaves (o :: q)) with (Order.leaves o + sum_leaves q).
    rewrite filter_cons. case_decide.
    + change (sum_leaves (o :: ?l)) with (Order.leaves o + sum_leaves l).
      split; [|split].
      * replace (Q2Qc 0) with (0 + 0) by ring.
        apply Qcplus_le_compat; [by apply Qclt_le_weak | done].
      * apply Qcplus_le_compat; [apply Qcle_refl | done].
      * intros _. by apply Qcplus_pos_nonneg.
    + split; [done|]. split.
      * etrans; [exact IH1|]. replace (sum_leaves q) with (0 + sum_leaves q) at 1 by ring.
        apply Qcplus_le_compat; [by apply Qclt_le_weak | apply Qcle_refl].
      * intros _. by apply Qcplus_pos_nonneg.
Qed.

Lemma sideSnap_prices u depth (m : gmap Qc (list Order.t)) desc :
  Level.price <$> sideSnap u depth m desc = take depth (merge_sort (before desc) (keys m)).
Proof.
  unfold sideSnap. cbn zeta. rewrite <-list_fmap_compose.
  generalize (take depth (merge_sort (before desc) (keys m))). intros l.
  induction l as [|p l IH]; cbn; [done|]. by f_equal.
Qed.

Lemma sideSnap_shows u depth (m : gmap Qc (list Order.t)) desc :
  live m → no_empty_level m → Forall (level_shows u m) (sideSnap u depth m desc).
Proof.
  intros Hlive Hne. unfold sideSnap. cbn zeta. apply Forall_fmap, Forall_forall.
  intros p Hp. apply elem_of_take in Hp as (i & Hp & _).
  apply list_elem_of_lookup_2 in Hp.
  destruct (sorted_keys desc m) as (_ & _ & Hin). apply Hin in Hp as [q Hq].
  unfold level_shows, level_of, queue_at. cbn. rewrite Hq. cbn.
  rewrite size_foldl, my_foldl.
  destruct (sum_leaves_bounds u q (Hlive p q Hq)) as (H0 & H1 & H2).
  specialize (H2 (Hne p q Hq)).
  replace (0 + sum_leaves q) with (sum_leaves q) by ring.
  replace (0 + sum_leaves (filter (λ o, Order.userId o = u) q))
    with (sum_leaves (filter (λ o, Order.userId o = u) q)) by ring.
  split; [by eexists|]. done.
Qed.

Lemma sideSnap_all u depth (m : gmap Qc (list Order.t)) desc k :
  (size m ≤ depth)%nat → is_Some (m !! k) → k ∈ Level.price <$> sideSnap u depth m desc.
Proof.
  intros Hd Hk. rewrite sideSnap_prices.
  destruct (sorted_keys desc m) as (_ & _ & Hin).
  rewrite take_ge; [by apply Hin|].
  rewrite (merge_sort_Permutation (before desc) (keys m)).
  unfold keys. rewrite length_fmap, length_map_to_list. done.
Qed.


(** ** Queues are in order of arrival *)

Lemma id_ident (q : list Order.t) : Order.id <$> (ident <$> q) = Order.id <$> q.
Proof. rewrite <-list_fmap_compose. by apply list_fmap_ext. Qed.

Lemma by_arrival_suffix (q q' : list Order.t) :
  suffix (ident <$> q') (ident <$> q) → by_arrival q → by_arrival q'.
Proof.
  intros [k Hk] Hq. unfold by_arrival in *.
  rewrite <-(id_ident q), Hk, fmap_app, id_ident in Hq.
  by apply StronglySorted_app_1_r in Hq.
Qed.

Lemma sorted_sublist {A} (R : relation A) (l' l : list A) :
  sublist l' l → StronglySorted R l → StronglySorted R l'.
Proof.
  induction 1 as [|x l1 l2 Hs IH|x l1 l2 Hs IH]; intros Hl; [done|..].
  - apply StronglySorted_inv in Hl as [Hl Hx]. constructor; [by apply IH|].
    rewrite Forall_forall in Hx |- *. intros y Hy. apply Hx.
    by eapply elem_of_sublist.
  - apply StronglySorted_inv in Hl as [Hl _]. by apply IH.
Qed.

Lemma sublist_map {A B} (f : A → B) (l' l : list A) :
  sublist l' l → sublist (f <$> l') (f <$> l).
Proof. induction 1; cbn; by constructor. Qed.

Lemma by_arrival_filter u q :
  by_arrival q → by_arrival (filter (λ o, Order.userId o ≠ u) q).
Proof.
  unfold by_arrival. apply sorted_sublist, sublist_map, sublist_filter.
Qed.

Lemma by_arrival_push q o :
  by_arrival q → Forall (λ m, (Order.id m < Order.id o)%Z) q → by_arrival (q ++ [o]).
Proof.
  intros Hq Hall. unfold by_arrival. rewrite fmap_app.
  apply StronglySorted_app_2; [|done|repeat constructor].
  intros x1 x2 Hx1 Hx2. apply list_elem_of_singleton in Hx2 as ->.
  apply list_elem_of_fmap in Hx1 as (m & -> & Hm).
  rewrite Forall_forall in Hall. by apply Hall.
Qed.

Lemma arrival_sides s b :
  book_by_arrival b ↔ arrival_levels (makerMap s b) ∧ arrival_levels (ownMap s b).
Proof.
  unfold book_by_arrival, makerMap, ownMap.
  destruct (is_buy s); split; intros [??]; by split.
Qed.

Lemma placeLimit_arrival now u s p q b r b' ts :
  placeLimit now u s p q b = Some (r, b', ts) →
  book_ok b → book_by_arrival b → book_by_arrival b'.
Proof.
  intros Hpl Hok. rewrite !(arrival_sides s). intros [Hmaker Hown].
  unfold placeLimit in Hpl. rewrite checkPosLimit_eq in Hpl.
  case_bool_decide; cbn in Hpl.
  2:{ simplify_eq. unfold makerMap, ownMap in *. by destruct (is_buy s). }
  destruct (_matchIncoming _ _ _) as [[[o' b3] ts3]|] eqn:Hm; cbn in Hpl; [|done].
  pose proof (match_loop_order _ _ _ _ _ _ _ Hm) as Ho.
  pose proof (match_loop_fifo _ _ _ _ _ _ _ Hm) as Hfifo.
  destruct (match_loop_meta _ _ _ _ _ _ _ Hm) as (_&_&_&_&Hown3).
  cbn in Hfifo, Hown3.
  assert (makerMap s (set_orderIdSeq (orderIdSeq b + 1)
            (set_positions (touch u (positions b)) b)) = makerMap s b) as Hmk
    by (unfold makerMap; by destruct (is_buy s)).
  assert (ownMap s (set_orderIdSeq (orderIdSeq b + 1)
            (set_positions (touch u (positions b)) b)) = ownMap s b) as Hown0
    by (unfold ownMap; by destruct (is_buy s)).
  rewrite Hmk in Hfifo. rewrite Hown0 in Hown3.
  assert (arrival_levels (makerMap s b3)) as Hmaker3.
  { intros k. eapply by_arrival_suffix; [apply Hfifo | apply Hmaker]. }
  simplify_eq. case_bool_decide as Hleft.
  - rewrite makerMap_set_ownMap, ownMap_set_ownMap, Hown3. split; [done|].
    intros k. rewrite queue_at_push. case_decide as Hk; [|apply Hown].
    apply by_arrival_push; [apply Hown|].
    rewrite (same_order_id _ _ Ho). cbn.
    unfold queue_at. destruct (ownMap s b !! _) as [lv|] eqn:Hlv; cbn; [|done].
    destruct (book_ok_ownMap s b Hok _ _ Hlv) as [_ Hall].
    eapply Forall_impl; [exact Hall|]. by intros m (_&_&?).
  - rewrite Hown3. done.
Qed.

Lemma takeAtPrice_arrival now u s p mq b r b' ts :
  takeAtPrice now u s p mq b = Some (r, b', ts) →
  book_by_arrival b → book_by_arrival b'.
Proof.
  intros Ht. rewrite !(arrival_sides s). intros [Hmaker Hown].
  unfold takeAtPrice in Ht.
  destruct (makerMap s b !! _) as [lv|] eqn:Hq; [|by simplify_eq].
  case_bool_decide; [by simplify_eq|].
  destruct (take_loop _ _ _ _ _ _ _ _) as [[[[r' q'] b1] ts1]|] eqn:Hl; cbn in Ht; [|done].
  pose proof (take_loop_frame _ _ _ _ _ _ _ _ _ _ _ _ Hl) as Hf.
  apply take_loop_fifo in Hl as (_ & Hsuf & _).
  simplify_eq. rewrite makerMap_set_makerMap, ownMap_set_makerMap.
  rewrite (same_frame_ownMap s _ _ Hf). split; [|done].
  intros k. rewrite queue_at_close. case_decide as Hk; [|apply Hmaker].
  eapply by_arrival_suffix; [exact Hsuf|].
  specialize (Hmaker (snapToTick p (tickSize b))). unfold queue_at in Hmaker.
  by rewrite Hq in Hmaker.
Qed.

Lemma cancelAtPrice_arrival u s p b :
  book_by_arrival b → book_by_arrival (cancelAtPrice u s p b).2.
Proof.
  rewrite !(arrival_sides s). intros [Hmaker Hown]. unfold cancelAtPrice.
  destruct (ownMap s b !! _) as [q|] eqn:Hq; [|done]. cbn.
  rewrite makerMap_set_ownMap, ownMap_set_ownMap. split; [done|].
  intros k. unfold queue_at. case_bool_decide.
  - rewrite lookup_insert. case_decide as Hk; [|apply Hown]. cbn.
    apply by_arrival_filter. specialize (Hown (snapToTick p (tickSize b))).
    unfold queue_at in Hown. by rewrite Hq in Hown.
  - rewrite lookup_delete. case_decide as Hk; [constructor | apply Hown].
Qed.

Lemma run_arrival cs b b' :
  run cs b = Some b' → book_ok b → book_by_arrival b → book_by_arrival b'.
Proof.
  revert b. induction cs as [|c cs IH]; intros b; cbn; [by intros [= <-]|].
  destruct (call c b) as [b1|] eqn:Hc; cbn; [|done].
  intros Hr Hok Hb. eapply IH; [done | by eapply call_ok|].
  destruct c as [now u s p q | now u s p q | u s p | u]; cbn in Hc.
  - destruct (placeLimit _ _ _ _ _ _) as [[[r b2] ts]|] eqn:H; cbn in Hc; [|done].
    injection Hc as <-. by eapply placeLimit_arrival.
  - destruct (takeAtPrice _ _ _ _ _ _) as [[[r b2] ts]|] eqn:H; cbn in Hc; [|done].
    injection Hc as <-. by eapply takeAtPrice_arrival.
  - injection Hc as <-. by apply cancelAtPrice_arrival.
  - injection Hc as <-. exact Hb.
Qed.

(** X25. Queues are in order of arrival: in a book that started empty,
    after any sequence of calls, the ids of the orders of every level of
    either side increase strictly from the head of the queue to its tail,
    so an order accepted earlier is always ahead of one accepted later at
    the same price, and no id occurs twice in a level. *)
Theorem X25_queues_by_arrival (sym : string) (tick limit : Qc) (cs : list Call) :
  ∃ b, run cs (new_OrderBook sym tick limit) = Some b ∧
       ∀ k q, bids b !! k = Some q ∨ asks b !! k = Some q →
         StronglySorted Z.lt (Order.id <$> q) ∧ NoDup (Order.id <$> q).
Proof.
  destruct (run_total cs (new_OrderBook sym tick limit)) as [b Hrun].
  exists b. split; [done|].
  assert (book_by_arrival b) as [Hb Ha].
  { eapply run_arrival; [done | apply book_ok_new|].
    split; intros k; unfold queue_at; cbn; rewrite lookup_empty; constructor. }
  assert (∀ q, by_arrival q → StronglySorted Z.lt (Order.id <$> q) ∧ NoDup (Order.id <$> q))
    as Hq.
  { intros q Hs. split; [done|]. unfold by_arrival in Hs.
    induction Hs as [|a l Hl IH Hall]; [constructor|].
    apply NoDup_cons. split; [|done]. intros Hin.
    rewrite Forall_forall in Hall. specialize (Hall a Hin). lia. }
  intros k q [H|H]; apply Hq.
  - specialize (Hb k). unfold queue_at in Hb. by rewrite H in Hb.
  - specialize (Ha k). unfold queue_at in Ha. by rewrite H in Ha.
Qed.

(** * The book in the arithmetic of the code *)

(** What holds of the operations of [Fl] holds for every rounding [fl]
    that leaves 0 as it is, the rounding [b64] of the doubles among them. *)

#[global] Arguments Fl._checkPosLimit : simpl never.
#[global] Arguments Fl.settle_fill : simpl never.
#[global] Arguments Fl.snapToTick : simpl never.

Lemma b64_0 : b64 0 = 0.
Proof. by_eval. Qed.

Lemma fl_checkPosLimit_eq fl u s q b :
  Fl._checkPosLimit fl u s q b
  = (bool_decide (Math_abs (Fl.projected fl b u s q) ≤ posLimit b),
     set_positions (touch u (positions b)) b).
Proof.
  unfold Fl._checkPosLimit, _pos, Fl.projected. cbn. by rewrite pos_of_touch.
Qed.

Lemma fl_settle_fill_trade fl now s u maker px tq b :
  (Fl.settle_fill fl now s u maker px tq b).1
  = Trade.mk now (symbol b) px tq
      (if is_buy s then u else Order.userId maker)
      (if is_sell s then u else Order.userId maker).
Proof. done. Qed.

Lemma fl_settle_fill_maps fl now s u maker px tq b :
  bids (Fl.settle_fill fl now s u maker px tq b).2 = bids b ∧
  asks (Fl.settle_fill fl now s u maker px tq b).2 = asks b.
Proof. done. Qed.

(** ** The loops, by cases *)

Section fl_match_level_cases.
Context (fl : num → num) (now : Z) (px : Qc).
Context (R : Order.t → list Order.t → OrderBook →
             Order.t → list Order.t → OrderBook → list Trade.t → Prop).

Hypothesis R_exit : ∀ o q b,
  q = [] ∨ ¬ 0 < Order.leaves o → R o q b o q b [].
Hypothesis R_breach : ∀ o maker rest b b1,
  0 < Order.leaves o →
  Fl._checkPosLimit fl (Order.userId o) (Order.side o)
    (Math_min (Order.leaves o) (Order.leaves maker)) b = (false, b1) →
  R o (maker :: rest) b (Order.set_leaves 0 o) (maker :: rest) b1 [].
Hypothesis R_fill : ∀ o maker rest b b1 trade b2 o' q' b' ts,
  let tradeQty := Math_min (Order.leaves o) (Order.leaves maker) in
  let maker1 := Order.set_leaves (fl (Order.leaves maker - tradeQty)) maker in
  0 < Order.leaves o →
  Fl._checkPosLimit fl (Order.userId o) (Order.side o) tradeQty b = (true, b1) →
  Fl.settle_fill fl now (Order.side o) (Order.userId o) maker px tradeQty b1 = (trade, b2) →
  R (Order.set_leaves (fl (Order.leaves o - tradeQty)) o)
    (if bool_decide (Order.leaves maker1 = 0) then rest else maker1 :: rest)
    b2 o' q' b' ts →
  R o (maker :: rest) b o' q' b' (trade :: ts).

Lemma fl_match_level_cases fuel o q b o' q' b' ts :
  Fl.match_level fl fuel now px o q b = Some (o', q', b', ts) → R o q b o' q' b' ts.
Proof.
  revert o q b o' q' b' ts.
  induction fuel as [|fuel IH]; intros o q b o' q' b' ts Hrun.
  - destruct q as [|maker rest]; cbn in Hrun.
    + simplify_eq. apply R_exit. by left.
    + case_bool_decide; [done|]. simplify_eq. apply R_exit. by right.
  - destruct q as [|maker rest]; cbn in Hrun.
    + simplify_eq. apply R_exit. by left.
    + case_bool_decide as Hl; [|simplify_eq; apply R_exit; by right].
      destruct (Fl._checkPosLimit _ _ _ _ b) as [[] b1] eqn:Hchk; cbn in Hrun;
        [|simplify_eq; by apply R_breach].
      destruct (Fl.settle_fill _ _ _ _ _ _ _ b1) as [trade b2] eqn:Hfill.
      destruct (Fl.match_level fl fuel _ _ _ _ b2) as [[[[o1 q1] b3] ts1]|] eqn:Hrec;
        cbn in Hrun; [|done].
      simplify_eq. eapply R_fill; eauto.
Qed.
End fl_match_level_cases.

Section fl_take_loop_cases.
Context (fl : num → num) (now : Z) (userId side : string) (px : Qc).
Context (R : Qc → list Order.t → OrderBook →
             Qc → list Order.t → OrderBook → list Trade.t → Prop).

Hypothesis R_exit : ∀ r q b, q = [] ∨ ¬ 0 < r → R r q b r q b [].
Hypothesis R_breach : ∀ r maker rest b b1,
  0 < r →
  Fl._checkPosLimit fl userId side (Math_min r (Order.leaves maker)) b = (false, b1) →
  R r (maker :: rest) b r (maker :: rest) b1 [].
Hypothesis R_fill : ∀ r maker rest b b1 trade b2 r' q' b' ts,
  let tradeQty := Math_min r (Order.leaves maker) in
  let maker1 := Order.set_leaves (fl (Order.leaves maker - tradeQty)) maker in
  0 < r →
  Fl._checkPosLimit fl userId side tradeQty b = (true, b1) →
  Fl.settle_fill fl now side userId maker px tradeQty b1 = (trade, b2) →
  R (fl (r - tradeQty))
    (if bool_decide (Order.leaves maker1 = 0) then rest else maker1 :: rest)
    b2 r' q' b' ts →
  R r (maker :: rest) b r' q' b' (trade :: ts).

Lemma fl_take_loop_cases fuel r q b r' q' b' ts :
  Fl.take_loop fl fuel now userId side px r q b = Some (r', q', b', ts) →
  R r q b r' q' b' ts.
Proof.
  revert r q b r' q' b' ts.
  induction fuel as [|fuel IH]; intros r q b r' q' b' ts Hrun.
  - destruct q as [|maker rest]; cbn in Hrun.
    + simplify_eq. apply R_exit. by left.
    + case_bool_decide; [done|]. simplify_eq. apply R_exit. by right.
  - destruct q as [|maker rest]; cbn in Hrun.
    + simplify_eq. apply R_exit. by left.
    + case_bool_decide as Hl; [|simplify_eq; apply R_exit; by right].
      destruct (Fl._checkPosLimit _ _ _ _ b) as [[] b1] eqn:Hchk; cbn in Hrun;
        [|simplify_eq; by apply R_breach].
      destruct (Fl.settle_fill _ _ _ _ _ _ _ b1) as [trade b2] eqn:Hfill.
      destruct (Fl.take_loop fl fuel _ _ _ _ _ _ b2) as [[[[r1 q1] b3] ts1]|] eqn:Hrec;
        cbn in Hrun; [|done].
      simplify_eq. eapply R_fill; eauto.
Qed.
End fl_take_loop_cases.

(** ** The loops return *)

Section rounded_levels.
Context (fl : num → num).
Hypothesis fl_0 : fl 0 = 0.

(** After a fill either the maker is exhausted or the taker is: the one
    whose leaves were the minimum is left with [fl (x - x)]. *)
Lemma fl_fill_exhausts (l m : Qc) :
  fl (m - Math_min l m) ≠ 0 → fl (l - Math_min l m) = 0.
Proof.
  intros Hm. destruct (Math_min_cases l m) as [E | E]; rewrite E in *.
  - by rewrite Qc_sub_diag.
  - destruct Hm. by rewrite Qc_sub_diag.
Qed.

Lemma fl_match_level_total fuel now px o q b :
  (length q < fuel)%nat ∨ ¬ 0 < Order.leaves o →
  is_Some (Fl.match_level fl fuel now px o q b).
Proof.
  revert o q b. induction fuel as [|fuel IH]; intros o q b Hfuel.
  - destruct q as [|maker rest]; cbn; [by eexists|].
    case_bool_decide; [|by eexists].
    destruct Hfuel as [Hlen|Hl]; [cbn in Hlen; lia | done].
  - destruct q as [|maker rest]; cbn; [by eexists|].
    case_bool_decide as Hl; [|by eexists].
    destruct (Fl._checkPosLimit _ _ _ _ b) as [[] b1]; cbn; [|by eexists].
    destruct (Fl.settle_fill _ _ _ _ _ _ _ b1) as [trade b2].
    match goal with |- is_Some (Fl.match_level fl fuel now px ?o1 ?q1 b2 ≫= _) =>
      destruct (IH o1 q1 b2) as [[[[o' q'] b'] ts] ->]; [|by eexists] end.
    case_bool_decide as Hm.
    + left. destruct Hfuel as [Hlen|]; [cbn in Hlen; lia | done].
    + right. cbn in *. rewrite (fl_fill_exhausts _ _ Hm). apply Qc_lt_irrefl.
Qed.

Lemma fl_take_loop_total fuel now u s px r q b :
  (length q < fuel)%nat ∨ ¬ 0 < r →
  is_Some (Fl.take_loop fl fuel now u s px r q b).
Proof.
  revert r q b. induction fuel as [|fuel IH]; intros r q b Hfuel.
  - destruct q as [|maker rest]; cbn; [by eexists|].
    case_bool_decide; [|by eexists].
    destruct Hfuel as [Hlen|Hl]; [cbn in Hlen; lia | done].
  - destruct q as [|maker rest]; cbn; [by eexists|].
    case_bool_decide as Hl; [|by eexists].
    destruct (Fl._checkPosLimit _ _ _ _ b) as [[] b1]; cbn; [|by eexists].
    destruct (Fl.settle_fill _ _ _ _ _ _ _ b1) as [trade b2].
    match goal with |- is_Some (Fl.take_loop fl fuel now u s px ?r1 ?q1 b2 ≫= _) =>
      destruct (IH r1 q1 b2) as [[[[r' q'] b'] ts] ->]; [|by eexists] end.
    case_bool_decide as Hm.
    + left. destruct Hfuel as [Hlen|]; [cbn in Hlen; lia | done].
    + right. cbn in *. rewrite (fl_fill_exhausts _ _ Hm). apply Qc_lt_irrefl.
Qed.

(** How the inner loop hands the level back: empty, or with the order
    exhausted; the order keeps its side, and the maps are not touched. *)
Lemma fl_match_level_exit fuel now px o q b o' q' b' ts :
  Fl.match_level fl fuel now px o q b = Some (o', q', b', ts) →
  (q' = [] ∨ ¬ 0 < Order.leaves o') ∧
  same_order o o' ∧
  bids b' = bids b ∧ asks b' = asks b.
Proof.
  apply (fl_match_level_cases fl now px (λ o _ b o' q' b' _,
    (q' = [] ∨ ¬ 0 < Order.leaves o') ∧
    same_order o o' ∧
    bids b' = bids b ∧ asks b' = asks b)); clear.
  - intros o q b Hexit. split; [done|]. split; [apply same_order_refl | done].
  - intros o maker rest b b1 _ Hchk. rewrite fl_checkPosLimit_eq in Hchk.
    injection Hchk as _ <-. split; [right; cbn; apply Qc_lt_irrefl|].
    split; [by destruct o | done].
  - intros o maker rest b b1 trade b2 o' q' b' ts tq maker1 _ Hchk Hfill
      (Hexit & Ho & Hb & Ha).
    rewrite fl_checkPosLimit_eq in Hchk. injection Hchk as _ <-.
    pose proof (fl_settle_fill_maps fl now (Order.side o) (Order.userId o) maker px tq
      (set_positions (touch (Order.userId o) (positions b)) b)) as [Hb2 Ha2].
    rewrite Hfill in Hb2, Ha2. cbn in Hb2, Ha2.
    split; [done|]. split; [by eapply same_order_set_leaves|].
    by rewrite Hb, Ha, Hb2, Ha2.
Qed.

End rounded_levels.

#[global] Arguments Fl.match_level : simpl never.
#[global] Arguments Fl.take_loop : simpl never.

Section rounded_total.
Context (fl : num → num).
Hypothesis fl_0 : fl 0 = 0.

Lemma fl_match_loop_total fuel now o b :
  (size (makerMap (Order.side o) b) < fuel)%nat ∨ ¬ 0 < Order.leaves o →
  is_Some (Fl.match_loop fl fuel now o b).
Proof.
  revert o b. induction fuel as [|fuel IH]; intros o b Hfuel; cbn.
  - destruct (bool_decide (0 < Order.leaves o)) eqn:Hl; cbn; [|by eexists].
    apply bool_decide_eq_true in Hl.
    case_bool_decide; cbn; [|by eexists].
    destruct Hfuel; [lia | done].
  - destruct (bool_decide (0 < Order.leaves o)) eqn:Hl; cbn; [|by eexists].
    apply bool_decide_eq_true in Hl.
    case_bool_decide; cbn; [|by eexists].
    destruct (best _ _) as [px|] eqn:Hbest; [|by eexists].
    destruct (crosses _ _ _); cbn; [|by eexists].
    destruct (best_Some_lookup _ _ _ Hbest) as [q Hq]. rewrite Hq. cbn.
    destruct (fl_match_level_total fl fl_0 (S (length q)) now px o q b) as [[[[o1 q1] b1] ts1] Hlvl];
      [left; lia|].
    rewrite Hlvl. cbn.
    destruct (fl_match_level_exit fl _ _ _ _ _ _ _ _ _ _ Hlvl) as (Hexit & Hs%same_order_side & _).
    match goal with |- is_Some (Fl.match_loop fl fuel now o1 ?b2 ≫= _) =>
      destruct (IH o1 b2) as [[[o2 b3] ts2] ->]; [|by eexists] end.
    rewrite Hs, makerMap_set_makerMap.
    destruct Hexit as [-> | Hl1]; [left | by right].
    unfold close_level. rewrite bool_decide_eq_true_2 by done.
    rewrite map_size_delete_Some by by eexists.
    destruct Hfuel; [lia | done].
Qed.

End rounded_total.

Section fl_match_loop_cases.
Context (fl : num → num) (now : Z).
Context (R : Order.t → OrderBook → Order.t → OrderBook → list Trade.t → Prop).

Hypothesis R_stop : ∀ o b, R o b o b [].
Hypothesis R_level : ∀ o b px q o1 q1 b1 ts1 o' b' ts2,
  let side := Order.side o in
  let m := makerMap side b in
  0 < Order.leaves o →
  best side m = Some px →
  crosses side (Order.price o) px = true →
  m !! px = Some q →
  Fl.match_level fl (S (length q)) now px o q b = Some (o1, q1, b1, ts1) →
  R o1 (set_makerMap side (close_level px q1 m) b1) o' b' ts2 →
  R o b o' b' (ts1 ++ ts2).

Lemma fl_match_loop_cases fuel o b o' b' ts :
  Fl.match_loop fl fuel now o b = Some (o', b', ts) → R o b o' b' ts.
Proof.
  revert o b o' b' ts.
  induction fuel as [|fuel IH]; intros o b o' b' ts Hrun; cbn in Hrun.
  - destruct (bool_decide (0 < Order.leaves o) && _); [done|].
    simplify_eq. apply R_stop.
  - destruct (bool_decide (0 < Order.leaves o)) eqn:Hl; cbn in Hrun;
      [|simplify_eq; apply R_stop].
    apply bool_decide_eq_true in Hl.
    case_bool_decide; cbn in Hrun; [|simplify_eq; apply R_stop].
    destruct (best _ _) as [px|] eqn:Hbest; [|simplify_eq; apply R_stop].
    destruct (crosses _ _ _) eqn:Hcross; cbn in Hrun; [|simplify_eq; apply R_stop].
    destruct (makerMap _ _ !! px) as [q|] eqn:Hq; cbn in Hrun; [|done].
    destruct (Fl.match_level _ _ _ _ _ _ _) as [[[[o1 q1] b1] ts1]|] eqn:Hlvl;
      cbn in Hrun; [|done].
    destruct (Fl.match_loop fl fuel _ _ _) as [[[o2 b2] ts2]|] eqn:Hrec; cbn in Hrun; [|done].
    simplify_eq. eapply R_level; eauto.
Qed.
End fl_match_loop_cases.

#[global] Arguments Fl.match_loop : simpl never.
#[global] Arguments Fl._matchIncoming : simpl never.

Section rounded_calls.
Context (fl : num → num).
Hypothesis fl_0 : fl 0 = 0.

Lemma fl_matchIncoming_total now o b : is_Some (Fl._matchIncoming fl now o b).
Proof. apply fl_match_loop_total; [done|]. left. lia. Qed.

Lemma fl_placeLimit_total now u s p q b : is_Some (Fl.placeLimit fl now u s p q b).
Proof.
  unfold Fl.placeLimit.
  destruct (Fl._checkPosLimit fl u s q b) as [[] b1]; cbn; [|by eexists].
  match goal with |- is_Some (Fl._matchIncoming fl now ?o ?b2 ≫= _) =>
    destruct (fl_matchIncoming_total now o b2) as [[[o' b3] ts] ->] end.
  by eexists.
Qed.

Lemma fl_takeAtPrice_total now u s p mq b : is_Some (Fl.takeAtPrice fl now u s p mq b).
Proof.
  unfold Fl.takeAtPrice.
  destruct (makerMap s b !! _) as [q|]; [|by eexists].
  case_bool_decide; [by eexists|].
  match goal with |- is_Some (Fl.take_loop fl ?f now u s ?px ?r q b ≫= _) =>
    destruct (fl_take_loop_total fl fl_0 f now u s px r q b) as [[[[r' q'] b'] ts] ->];
      [left; lia|] end.
  by eexists.
Qed.

Lemma fl_call_total c b : is_Some (Fl.call fl c b).
Proof.
  destruct c as [now u s p q | now u s p q | u s p | u]; cbn.
  - destruct (fl_placeLimit_total now u s p q b) as [[[r b'] ts] ->]. by eexists.
  - destruct (fl_takeAtPrice_total now u s p q b) as [[[r b'] ts] ->]. by eexists.
  - by eexists.
  - by eexists.
Qed.

Lemma fl_run_total cs b : is_Some (Fl.run fl cs b).
Proof.
  revert b. induction cs as [|c cs IH]; intros b; cbn; [by eexists|].
  destruct (fl_call_total c b) as [[b1 ts1] ->]. cbn.
  destruct (IH b1) as [[b2 ts2] ->]. by eexists.
Qed.
End rounded_calls.
(** ** The ledger books the fills *)

Section ledger_after.
Context (fl : num → num).

Lemma ledger_after_refl b : ledger_after fl b [] b.
Proof. split; [done|]. split; [done | constructor]. Qed.

Lemma booked_app u p ts1 ts2 :
  booked fl u p (ts1 ++ ts2) = booked fl u (booked fl u p ts1) ts2.
Proof. unfold booked. apply foldl_app. Qed.

Lemma ledger_after_trans b1 ts1 b2 ts2 b3 :
  ledger_after fl b1 ts1 b2 → ledger_after fl b2 ts2 b3 →
  ledger_after fl b1 (ts1 ++ ts2) b3.
Proof.
  intros (Hp1 & Hd1 & Ht1) (Hp2 & Hd2 & Ht2). split; [|split].
  - intros u. by rewrite booked_app, Hp2, Hp1.
  - intros u Hu. by apply Hd2, Hd1.
  - apply Forall_app. split; [|done].
    eapply Forall_impl; [exact Ht1|]. intros t [??]. split; by apply Hd2.
Qed.

Lemma ledger_after_pre b b1 ts b2 :
  ledger_after fl b [] b1 → ledger_after fl b1 ts b2 → ledger_after fl b ts b2.
Proof. apply (ledger_after_trans b [] b1 ts b2). Qed.

Lemma ledger_after_post b ts b1 b2 :
  ledger_after fl b ts b1 → ledger_after fl b1 [] b2 → ledger_after fl b ts b2.
Proof.
  intros H1 H2. rewrite <- (app_nil_r ts). by eapply ledger_after_trans.
Qed.

Lemma ledger_after_cons b t b1 ts b2 :
  ledger_after fl b [t] b1 → ledger_after fl b1 ts b2 → ledger_after fl b (t :: ts) b2.
Proof. apply (ledger_after_trans b [t] b1 ts b2). Qed.

Lemma ledger_after_frame b b' :
  positions b' = positions b → ledger_after fl b [] b'.
Proof. intros H. split; [|split]; [| |constructor]; intros u; by rewrite H. Qed.

Lemma ledger_after_touch u b :
  ledger_after fl b [] (set_positions (touch u (positions b)) b).
Proof.
  split; [|split]; [| |constructor].
  - intros v. cbn. by rewrite pos_of_touch.
  - intros v Hv. cbn. unfold touch. case_bool_decide; [done|].
    rewrite lookup_insert. by case_decide.
Qed.

Lemma positions_fl_settle_fill now s u maker px tq b :
  let buyer := if is_buy s then u else Order.userId maker in
  let seller := if is_sell s then u else Order.userId maker in
  let c := fl (tq * px) in
  positions (Fl.settle_fill fl now s u maker px tq b).2
  = positions
      (upd_pos seller (Fl.add_cash fl c)
         (upd_pos seller (Fl.sub_qty fl tq)
            (upd_pos buyer (Fl.sub_cash fl c)
               (upd_pos buyer (Fl.add_qty fl tq) b)))).
Proof. done. Qed.

Lemma upd_pos_keeps u g b v :
  is_Some (positions b !! v) ∨ u = v → is_Some (positions (upd_pos u g b) !! v).
Proof.
  rewrite positions_upd_pos, lookup_insert. case_decide; [done|].
  intros [Hv | Hv]; [|done]. unfold touch. case_bool_decide; [done|].
  rewrite lookup_insert. by case_decide.
Qed.

Lemma ledger_after_fill now s u maker px tq b :
  ledger_after fl b [(Fl.settle_fill fl now s u maker px tq b).1]
    (Fl.settle_fill fl now s u maker px tq b).2.
Proof.
  rewrite fl_settle_fill_trade. unfold ledger_after.
  rewrite positions_fl_settle_fill. cbv zeta.
  set (buyer := if is_buy s then u else Order.userId maker).
  set (seller := if is_sell s then u else Order.userId maker).
  split; [|split].
  - intros v. rewrite !pos_of_upd_pos. unfold booked, Fl.book_fill. cbn.
    repeat case_decide; congruence.
  - intros v Hv. do 4 (apply upd_pos_keeps; left). done.
  - constructor; [|constructor]. cbn [Trade.buyer Trade.seller]. split.
    + do 3 (apply upd_pos_keeps; left). apply upd_pos_keeps. by right.
    + apply upd_pos_keeps. by right.
Qed.

Lemma fl_match_level_ledger fuel now px o q b o' q' b' ts :
  Fl.match_level fl fuel now px o q b = Some (o', q', b', ts) →
  ledger_after fl b ts b'.
Proof.
  apply (fl_match_level_cases fl now px (λ _ _ b _ _ b' ts, ledger_after fl b ts b')); clear.
  - intros. apply ledger_after_refl.
  - intros o maker rest b b1 _ Hchk. rewrite fl_checkPosLimit_eq in Hchk.
    injection Hchk as _ <-. apply ledger_after_touch.
  - intros o maker rest b b1 trade b2 o' q' b' ts tq maker1 _ Hchk Hfill IH.
    rewrite fl_checkPosLimit_eq in Hchk. injection Hchk as _ <-.
    pose proof (ledger_after_fill now (Order.side o) (Order.userId o) maker px tq
      (set_positions (touch (Order.userId o) (positions b)) b)) as Hf.
    rewrite Hfill in Hf. cbn [fst snd] in Hf.
    eapply ledger_after_pre; [apply ledger_after_touch|].
    eapply ledger_after_cons; [exact Hf | exact IH].
Qed.

Lemma fl_take_loop_ledger fuel now u s px r q b r' q' b' ts :
  Fl.take_loop fl fuel now u s px r q b = Some (r', q', b', ts) →
  ledger_after fl b ts b'.
Proof.
  apply (fl_take_loop_cases fl now u s px (λ _ _ b _ _ b' ts, ledger_after fl b ts b')); clear.
  - intros. apply ledger_after_refl.
  - intros r maker rest b b1 _ Hchk. rewrite fl_checkPosLimit_eq in Hchk.
    injection Hchk as _ <-. apply ledger_after_touch.
  - intros r maker rest b b1 trade b2 r' q' b' ts tq maker1 _ Hchk Hfill IH.
    rewrite fl_checkPosLimit_eq in Hchk. injection Hchk as _ <-.
    pose proof (ledger_after_fill now s u maker px tq
      (set_positions (touch u (positions b)) b)) as Hf.
    rewrite Hfill in Hf. cbn [fst snd] in Hf.
    eapply ledger_after_pre; [apply ledger_after_touch|].
    eapply ledger_after_cons; [exact Hf | exact IH].
Qed.

Lemma fl_match_loop_ledger fuel now o b o' b' ts :
  Fl.match_loop fl fuel now o b = Some (o', b', ts) → ledger_after fl b ts b'.
Proof.
  apply (fl_match_loop_cases fl now (λ _ b _ b' ts, ledger_after fl b ts b')); clear.
  - intros. apply ledger_after_refl.
  - intros o b px q o1 q1 b1 ts1 o' b' ts2 side m _ _ _ _ Hlvl IH.
    apply fl_match_level_ledger in Hlvl.
    eapply ledger_after_trans; [|exact IH].
    eapply ledger_after_post; [exact Hlvl|].
    apply ledger_after_frame, positions_set_makerMap.
Qed.

Lemma fl_placeLimit_ledger now u s p q b r b' ts :
  Fl.placeLimit fl now u s p q b = Some (r, b', ts) → ledger_after fl b ts b'.
Proof.
  unfold Fl.placeLimit. rewrite fl_checkPosLimit_eq.
  case_bool_decide; cbn.
  - destruct (Fl._matchIncoming _ _ _ _) as [[[o' b3] ts3]|] eqn:Hm; cbn; [|done].
    intros [= _ <- <-]. apply fl_match_loop_ledger in Hm.
    eapply ledger_after_pre; [apply (ledger_after_touch u)|].
    eapply ledger_after_post.
    + eapply ledger_after_pre; [|exact Hm]. by apply ledger_after_frame.
    + apply ledger_after_frame. case_bool_decide; [apply positions_set_ownMap | done].
  - intros [= _ <- <-]. apply ledger_after_touch.
Qed.

Lemma fl_takeAtPrice_ledger now u s p mq b r b' ts :
  Fl.takeAtPrice fl now u s p mq b = Some (r, b', ts) → ledger_after fl b ts b'.
Proof.
  unfold Fl.takeAtPrice.
  destruct (makerMap s b !! _) as [q|]; [|intros [= _ <- <-]; apply ledger_after_refl].
  case_bool_decide; [intros [= _ <- <-]; apply ledger_after_refl|].
  destruct (Fl.take_loop _ _ _ _ _ _ _ _ _) as [[[[r1 q1] b1] ts1]|] eqn:Hl; cbn; [|done].
  intros [= _ <- <-]. apply fl_take_loop_ledger in Hl.
  eapply ledger_after_post; [exact Hl|].
  apply ledger_after_frame, positions_set_makerMap.
Qed.

Lemma fl_cancelAtPrice_positions u s p b :
  positions (Fl.cancelAtPrice fl u s p b).2 = positions b.
Proof.
  unfold Fl.cancelAtPrice. destruct (ownMap s b !! _); [|done].
  cbn. apply positions_set_ownMap.
Qed.

Lemma fl_call_ledger c b b' ts :
  Fl.call fl c b = Some (b', ts) → ledger_after fl b ts b'.
Proof.
  destruct c as [now u s p q | now u s p q | u s p | u]; cbn.
  - destruct (Fl.placeLimit _ _ _ _ _ _ _) as [[[r b1] ts1]|] eqn:H; cbn; [|done].
    intros [= <- <-]. by eapply fl_placeLimit_ledger.
  - destruct (Fl.takeAtPrice _ _ _ _ _ _ _) as [[[r b1] ts1]|] eqn:H; cbn; [|done].
    intros [= <- <-]. by eapply fl_takeAtPrice_ledger.
  - intros [= <- <-]. apply ledger_after_frame, fl_cancelAtPrice_positions.
  - intros [= <- <-]. apply ledger_after_touch.
Qed.

Lemma fl_run_ledger cs b b' ts :
  Fl.run fl cs b = Some (b', ts) → ledger_after fl b ts b'.
Proof.
  revert b b' ts. induction cs as [|c cs IH]; intros b b' ts; cbn.
  - intros [= <- <-]. apply ledger_after_refl.
  - destruct (Fl.call fl c b) as [[b1 ts1]|] eqn:Hc; cbn; [|done].
    destruct (Fl.run fl cs b1) as [[b2 ts2]|] eqn:Hr; cbn; [|done].
    intros [= <- <-]. eapply ledger_after_trans; [by eapply fl_call_ledger | by apply IH].
Qed.
End ledger_after.
(** ** The ledger totals in the arithmetic of the code *)

Section sum_keys.
Implicit Types (ps : gmap string Pos.t) (g h k : string → Qc).

Lemma sum_keys_empty g : sum_keys g ∅ = 0.
Proof. unfold sum_keys. by rewrite map_fold_empty. Qed.

Lemma sum_keys_insert_fresh g ps u p :
  ps !! u = None → sum_keys g (<[u := p]> ps) = g u + sum_keys g ps.
Proof.
  intros Hu. unfold sum_keys.
  rewrite map_fold_insert_L; [done | | done].
  intros. ring.
Qed.

Lemma sum_keys_ext g h ps :
  (∀ u, is_Some (ps !! u) → g u = h u) → sum_keys g ps = sum_keys h ps.
Proof.
  induction ps as [|u p ps Hu _ IH] using map_first_key_ind; intros Hgh.
  - by rewrite !sum_keys_empty.
  - rewrite !sum_keys_insert_fresh by done. rewrite IH, (Hgh u); [done | |].
    + rewrite lookup_insert_eq. by eexists.
    + intros v Hv. apply Hgh. rewrite lookup_insert_ne; [done|].
      intros ->. rewrite Hu in Hv. by destruct Hv.
Qed.

Lemma sum_of_keys (f : Pos.t → Qc) g ps :
  (∀ u p, ps !! u = Some p → f p = g u) → sum_of f ps = sum_keys g ps.
Proof.
  induction ps as [|u p ps Hu _ IH] using map_first_key_ind; intros Hfg.
  - by rewrite sum_of_empty, sum_keys_empty.
  - rewrite sum_of_insert_fresh, sum_keys_insert_fresh by done.
    rewrite IH, (Hfg u p); [done | by rewrite lookup_insert_eq |].
    intros v pv Hv. apply Hfg. rewrite lookup_insert_ne; [done|].
    intros ->. by rewrite Hu in Hv.
Qed.

Lemma sum_keys_zero ps : sum_keys (λ _, 0) ps = 0.
Proof.
  induction ps as [|u p ps Hu _ IH] using map_first_key_ind.
  - apply sum_keys_empty.
  - rewrite sum_keys_insert_fresh by done. rewrite IH. ring.
Qed.

Lemma sum_keys_lin g h k ps :
  sum_keys (λ u, g u - h u + k u) ps = sum_keys g ps - sum_keys h ps + sum_keys k ps.
Proof.
  induction ps as [|u p ps Hu _ IH] using map_first_key_ind.
  - rewrite !sum_keys_empty. ring.
  - rewrite !sum_keys_insert_fresh by done. rewrite IH. ring.
Qed.

(** A number booked to one user of the ledger is counted once. *)
Lemma sum_keys_one (v : string) (c : Qc) ps :
  is_Some (ps !! v) → sum_keys (λ u, if decide (v = u) then c else 0) ps = c.
Proof.
  induction ps as [|u p ps Hu _ IH] using map_first_key_ind; intros Hv.
  - rewrite lookup_empty in Hv. by destruct Hv.
  - rewrite sum_keys_insert_fresh by done. case_decide as Huv.
    + subst u. rewrite (sum_keys_ext _ (λ _, 0)), sum_keys_zero; [ring|].
      intros w Hw. rewrite decide_False; [done|].
      intros ->. rewrite Hu in Hw. by destruct Hw.
    + rewrite IH; [ring|]. rewrite lookup_insert_ne in Hv; [done|]. by intros ->.
Qed.
End sum_keys.

(** Before the running totals are rounded, what is owed to the users of
    a ledger that holds the parties of the fills adds up to zero: each
    fill gives the buyer the quantity it takes from the seller, and the
    seller the amount it takes from the buyer. *)
Lemma owed_sums_to_zero fl (ts : list Trade.t) (ps : gmap string Pos.t) :
  Forall (λ t, is_Some (ps !! Trade.buyer t) ∧ is_Some (ps !! Trade.seller t)) ts →
  sum_keys (λ u, Pos.qty (owed fl u ts)) ps = 0 ∧
  sum_keys (λ u, Pos.cash (owed fl u ts)) ps = 0.
Proof.
  induction 1 as [|t ts [Hb Hs] _ [IHq IHc]].
  - split; apply sum_keys_zero.
  - split.
    + rewrite (sum_keys_ext _ (λ u,
        (if decide (Trade.buyer t = u) then Trade.qty t else 0)
        - (if decide (Trade.seller t = u) then Trade.qty t else 0)
        + Pos.qty (owed fl u ts))) by done.
      rewrite sum_keys_lin, !sum_keys_one by done. rewrite IHq. ring.
    + rewrite (sum_keys_ext _ (λ u,
        (if decide (Trade.seller t = u) then fl (Trade.qty t * Trade.price t) else 0)
        - (if decide (Trade.buyer t = u) then fl (Trade.qty t * Trade.price t) else 0)
        + Pos.cash (owed fl u ts))) by done.
      rewrite sum_keys_lin, !sum_keys_one by done. rewrite IHc. ring.
Qed.



(** At prices that are whole numbers nothing is rounded and the totals
    are zero: A is booked +10, B +20 and U -30. *)
Example whole_prices_sum_to_zero :
  (λ '(b, _), (paid b "A", paid b "B", paid b "U", sum_qty b, sum_cash b))
    <$> Fl.run b64 whole_calls (new_OrderBook "A" (dbl (1 # 10)) (num_of_Z 100))
  = Some (num_of_Z 10, num_of_Z 20, num_of_Z (-30), 0, 0).
Proof. by_eval. Qed.

(** In that run no running total is rounded: every position booked is
    the exact sum of what its fills gave and took. *)
Example whole_prices_exact (u : string) :
  ∃ b ts,
    Fl.run b64 whole_calls (new_OrderBook "A" (dbl (1 # 10)) (num_of_Z 100)) = Some (b, ts) ∧
    booked b64 u Pos.zero ts = owed b64 u ts.
Proof.
  assert (snd <$> Fl.run b64 whole_calls (new_OrderBook "A" (dbl (1 # 10)) (num_of_Z 100))
          = Some [ Trade.mk 2 "A" (num_of_Z 10) (num_of_Z 1) "U" "A";
                   Trade.mk 4 "A" (num_of_Z 20) (num_of_Z 1) "U" "B" ]) as H by by_eval.
  destruct (Fl.run b64 whole_calls _) as [[b ts]|]; [|done].
  cbn in H. injection H as ->. eexists b, _. split; [done|].
  unfold booked, owed, Fl.book_fill. cbn [foldl foldr Trade.buyer Trade.seller Trade.qty Trade.price].
  repeat case_decide; simplify_eq; by_eval.
Qed.

(** At tick 0.1 the cash of U is rounded when the second payment is
    booked: 0.1 and 0.2 against -0.30000000000000004. *)
Lemma rounding_run :
  (λ '(b, _), (paid b "A", paid b "B", paid b "U", sum_qty b, sum_cash b,
               b64 (b64 (paid b "U" + paid b "A") + paid b "B")))
    <$> Fl.run b64 rounding_calls (new_OrderBook "A" (dbl (1 # 10)) (num_of_Z 100))
  = Some (dbl (1 # 10), dbl (2 # 10), - dbl (30000000000000004 # 100000000000000000),
          0, Q2Qc (-1 # 36028797018963968), Q2Qc (-1 # 36028797018963968)).
Proof. by_eval. Qed.

(** ** Self-matching in the arithmetic of the code *)

Lemma fl_match_level_cons fl fuel now px o maker rest b :
  Fl.match_level fl (S fuel) now px o (maker :: rest) b
  = if bool_decide (0 < Order.leaves o) then
      let tradeQty := Math_min (Order.leaves o) (Order.leaves maker) in
      let '(ok, b1) := Fl._checkPosLimit fl (Order.userId o) (Order.side o) tradeQty b in
      if negb ok then Some (Order.set_leaves 0 o, maker :: rest, b1, [])
      else
        let order1 := Order.set_leaves (fl (Order.leaves o - tradeQty)) o in
        let maker1 := Order.set_leaves (fl (Order.leaves maker - tradeQty)) maker in
        let '(trade, b2) :=
          Fl.settle_fill fl now (Order.side o) (Order.userId o) maker px tradeQty b1 in
        let q1 := if bool_decide (Order.leaves maker1 = 0) then rest else maker1 :: rest in
        '(o', q', b', ts) ← Fl.match_level fl fuel now px order1 q1 b2;
        Some (o', q', b', trade :: ts)
    else Some (o, maker :: rest, b, []).
Proof. reflexivity. Qed.

Lemma fl_match_level_done fl fuel now px o q b :
  ¬ 0 < Order.leaves o → Fl.match_level fl fuel now px o q b = Some (o, q, b, []).
Proof.
  intros Hl. destruct q as [|maker rest]; [by destruct fuel|].
  destruct fuel; [|by rewrite fl_match_level_cons, bool_decide_eq_false_2].
  change (Fl.match_level fl 0 now px o (maker :: rest) b)
    with (if bool_decide (0 < Order.leaves o)
          then None else Some (o, maker :: rest, b, @nil Trade.t)).
  by rewrite bool_decide_eq_false_2.
Qed.

Lemma fl_match_loop_S fl fuel now o b :
  Fl.match_loop fl (S fuel) now o b
  = let side := Order.side o in
    let m := makerMap side b in
    if bool_decide (0 < Order.leaves o) && bool_decide (0 < size m)%nat then
      match best side m with
      | None => Some (o, b, [])
      | Some px =>
        if negb (crosses side (Order.price o) px) then Some (o, b, [])
        else
          q ← m !! px;
          '(order1, q1, b1, ts1) ← Fl.match_level fl (S (length q)) now px o q b;
          let b2 := set_makerMap side (close_level px q1 m) b1 in
          '(o', b', ts2) ← Fl.match_loop fl fuel now order1 b2;
          Some (o', b', ts1 ++ ts2)
      end
    else Some (o, b, []).
Proof. reflexivity. Qed.

Lemma fl_match_loop_done fl fuel now o b :
  ¬ 0 < Order.leaves o → Fl.match_loop fl fuel now o b = Some (o, b, []).
Proof.
  intros Hl. destruct fuel.
  - change (Fl.match_loop fl 0 now o b)
      with (if bool_decide (0 < Order.leaves o)
               && bool_decide (0 < size (makerMap (Order.side o) b))%nat
            then None else Some (o, b, @nil Trade.t)).
    by rewrite bool_decide_eq_false_2.
  - rewrite fl_match_loop_S. cbn zeta. by rewrite bool_decide_eq_false_2.
Qed.

Lemma fl_last_settle_fill fl now s u maker px tq b :
  last (trades (Fl.settle_fill fl now s u maker px tq b).2)
  = Some (Fl.settle_fill fl now s u maker px tq b).1.
Proof. unfold Fl.settle_fill. cbv zeta. cbn [fst snd]. apply last_recordTrade. Qed.

(** A fill in which the taker is also the maker books that user twice:
    as the buyer and then as the seller. *)
Lemma fl_settle_fill_self fl now s u maker px tq b :
  Order.userId maker = u →
  (Fl.settle_fill fl now s u maker px tq b).1 = Trade.mk now (symbol b) px tq u u ∧
  pos_of (positions (Fl.settle_fill fl now s u maker px tq b).2) u
  = Pos.mk (fl (fl (Pos.qty (pos_of (positions b) u) + tq) - tq))
           (fl (fl (Pos.cash (pos_of (positions b) u) - fl (tq * px)) + fl (tq * px))).
Proof.
  intros Hu.
  assert ((Fl.settle_fill fl now s u maker px tq b).1 = Trade.mk now (symbol b) px tq u u) as Ht.
  { rewrite fl_settle_fill_trade, Hu. by do 2 destruct (_ : bool). }
  split; [done|].
  destruct (ledger_after_fill fl now s u maker px tq b) as (Hpos & _).
  rewrite (Hpos u), Ht. unfold booked, Fl.book_fill. cbn.
  by rewrite !decide_True.
Qed.

(** C10. As it holds of the code: matching does not exclude the taker's
    own orders: when the head of the best opposite level belongs to the
    user who places a crossing order (of a quantity the head can fill,
    within the position limit), the order is accepted and fills against
    it; the one trade emitted names that user as buyer and as seller and
    is the last entry of the tape. The user is booked as the buyer and
    then as the seller, each update rounding the running total: the
    quantity q becomes fl (fl (qty + q) - q) and the cash
    fl (fl (cash - fl (q * px)) + fl (q * px)). These are the old values
    when the first update of each is exact on a value that rounding
    leaves as it is, and not in general. *)
Theorem C10_self_match_booked (fl : Qc → Qc) (now : Z) (u s : string) (p q : Qc)
    (b : OrderBook) (px : Qc) (maker : Order.t) (rest : list Order.t) :
  fl 0 = 0 →
  best s (makerMap s b) = Some px →
  makerMap s b !! px = Some (maker :: rest) →
  Order.userId maker = u →
  crosses s (Fl.snapToTick fl p (tickSize b)) px = true →
  0 < q → q ≤ Order.leaves maker →
  Math_abs (Fl.projected fl b u s q) ≤ posLimit b →
  ∃ b',
    Fl.placeLimit fl now u s p q b
    = Some (Accepted (orderIdSeq b), b', [Trade.mk now (symbol b) px q u u]) ∧
    last (trades b') = Some (Trade.mk now (symbol b) px q u u) ∧
    let old := pos_of (positions b) u in
    let paid := fl (q * px) in
    pos_of (positions b') u
    = Pos.mk (fl (fl (Pos.qty old + q) - q)) (fl (fl (Pos.cash old - paid) + paid)) ∧
    (fl (Pos.qty old + q) = Pos.qty old + q → fl (Pos.qty old) = Pos.qty old →
     Pos.qty (pos_of (positions b') u) = Pos.qty old) ∧
    (fl (Pos.cash old - paid) = Pos.cash old - paid → fl (Pos.cash old) = Pos.cash old →
     Pos.cash (pos_of (positions b') u) = Pos.cash old).
Proof.
  intros Hfl Hbest Hlvl Hu Hcross Hq Hle Hlim.
  unfold Fl.placeLimit. rewrite fl_checkPosLimit_eq, bool_decide_eq_true_2 by done.
  cbn [negb]. cbv zeta.
  set (b1 := set_positions (touch u (positions b)) b).
  set (b2 := set_orderIdSeq (orderIdSeq b1 + 1) b1).
  set (o := Order.new (orderIdSeq b1) u s (Fl.snapToTick fl p (tickSize b2)) q now).
  assert (makerMap s b2 = makerMap s b) as Hm by (unfold makerMap; by destruct (is_buy s)).
  unfold Fl._matchIncoming. rewrite fl_match_loop_S. cbv zeta.
  change (Order.side o) with s. change (Order.leaves o) with q.
  change (Order.price o) with (Fl.snapToTick fl p (tickSize b)).
  rewrite Hm, Hbest, Hcross, Hlvl.
  rewrite (bool_decide_eq_true_2 (0 < q)) by done.
  rewrite (bool_decide_eq_true_2 (0 < size _)%nat).
  2:{ destruct (decide (size (makerMap s b) = 0%nat)) as [Hz|]; [|lia].
      apply map_size_empty_iff in Hz. rewrite Hz in Hlvl. by rewrite lookup_empty in Hlvl. }
  cbn [andb negb mbind option_bind].
  rewrite fl_match_level_cons.
  change (Order.side o) with s. change (Order.leaves o) with q.
  change (Order.userId o) with u.
  rewrite (bool_decide_eq_true_2 (0 < q)) by done. cbv zeta.
  rewrite Math_min_l by done.
  rewrite fl_checkPosLimit_eq.
  rewrite bool_decide_eq_true_2.
  2:{ unfold b2. change (posLimit _) with (posLimit b).
      replace (Fl.projected fl _ u s q) with (Fl.projected fl b u s q); [done|].
      unfold Fl.projected. cbn. by rewrite pos_of_touch. }
  cbn [negb].
  destruct (Fl.settle_fill fl now s u maker px q _) as [trade b3] eqn:Hfill.
  rewrite fl_match_level_done.
  2:{ cbn. rewrite Qc_sub_diag, Hfl. apply Qc_lt_irrefl. }
  cbn [mbind option_bind].
  rewrite fl_match_loop_done.
  2:{ cbn. rewrite Qc_sub_diag, Hfl. apply Qc_lt_irrefl. }
  cbn [mbind option_bind].
  rewrite bool_decide_eq_false_2.
  2:{ cbn. rewrite Qc_sub_diag, Hfl. apply Qc_lt_irrefl. }
  pose proof (fl_settle_fill_self fl now s u maker px q
    (set_positions (touch u (positions b2)) b2) Hu) as [Htr Hpos].
  pose proof (fl_last_settle_fill fl now s u maker px q
    (set_positions (touch u (positions b2)) b2)) as Hlast.
  rewrite Hfill in Hpos, Htr, Hlast. cbn [fst snd] in Hpos, Htr, Hlast.
  change (symbol _) with (symbol b) in Htr. subst trade.
  eexists. split; [reflexivity|].
  rewrite positions_set_makerMap, trades_set_makerMap. split; [done|].
  cbv zeta. rewrite Hpos. cbn [positions set_positions set_orderIdSeq b2 b1].
  rewrite !pos_of_touch. split; [done|]. cbn [Pos.qty Pos.cash].
  split.
  - intros -> Hold.
    replace (Pos.qty (pos_of (positions b) u) + q - q)
      with (Pos.qty (pos_of (positions b) u)) by ring. exact Hold.
  - intros -> Hold.
    replace (Pos.cash (pos_of (positions b) u) - fl (q * px) + fl (q * px))
      with (Pos.cash (pos_of (positions b) u)) by ring. exact Hold.
Qed.

Lemma book_self_rounded_reached :
  fst <$> Fl.run b64 self_calls (new_OrderBook "A" (dbl (1 # 10)) (num_of_Z 100))
  = Some book_self_rounded.
Proof. by_eval. Qed.

Lemma C10_self_match_booked_witness :
  ∃ b',
    Fl.placeLimit b64 4 "U1" "buy" (dbl (4 # 10)) (num_of_Z 1) book_self_rounded
    = Some (Accepted 4, b', [Trade.mk 4 "A" (dbl (4 # 10)) (num_of_Z 1) "U1" "U1"]) ∧
    last (trades b') = Some (Trade.mk 4 "A" (dbl (4 # 10)) (num_of_Z 1) "U1" "U1") ∧
    let old := pos_of (positions book_self_rounded) "U1" in
    let paid := b64 (num_of_Z 1 * dbl (4 # 10)) in
    pos_of (positions b') "U1"
    = Pos.mk (b64 (b64 (Pos.qty old + num_of_Z 1) - num_of_Z 1))
             (b64 (b64 (Pos.cash old - paid) + paid)) ∧
    (b64 (Pos.qty old + num_of_Z 1) = Pos.qty old + num_of_Z 1 →
     b64 (Pos.qty old) = Pos.qty old →
     Pos.qty (pos_of (positions b') "U1") = Pos.qty old) ∧
    (b64 (Pos.cash old - paid) = Pos.cash old - paid →
     b64 (Pos.cash old) = Pos.cash old →
     Pos.cash (pos_of (positions b') "U1") = Pos.cash old).
Proof.
  apply (C10_self_match_booked b64 4 "U1" "buy" (dbl (4 # 10)) (num_of_Z 1)
    book_self_rounded (dbl (4 # 10))
    (Order.mk 3 "U1" "sell" (dbl (4 # 10)) (num_of_Z 1) (num_of_Z 1) 3) []).
  - by_eval.
  - by_eval.
  - by_eval.
  - reflexivity.
  - by vm_compute.
  - by vm_compute.
  - by vm_compute.
  - by vm_compute.
Defined.

(** U1, holding 0.1 in cash, buys its own resting sell of 1 @ 0.4. *)
Lemma self_trade_rounds :
  (λ '(r, b', ts), (r, ts, last (trades b'), pos_of (positions b') "U1"))
    <$> Fl.placeLimit b64 4 "U1" "buy" (dbl (4 # 10)) (num_of_Z 1) book_self_rounded
  = Some (Accepted 4,
          [Trade.mk 4 "A" (dbl (4 # 10)) (num_of_Z 1) "U1" "U1"],
          Some (Trade.mk 4 "A" (dbl (4 # 10)) (num_of_Z 1) "U1" "U1"),
          Pos.mk (num_of_Z (-1)) (dbl (9999999999999998 # 100000000000000000))).
Proof. by_eval. Qed.

(** C10 fails of the code as the claim states it. U1 holds -1 and 0.1 in
    cash and rests a sell of 1 @ 0.4; its buy of 1 @ 0.4 fills against
    that order, the trade names U1 as buyer and seller and is recorded,
    and the cash of U1 is booked 0.1 - 0.4 = -0.30000000000000004 and then
    + 0.4 = 0.09999999999999998: the position has changed. *)
Lemma C10_counterexample :
  ∃ b',
    Fl.placeLimit b64 4 "U1" "buy" (dbl (4 # 10)) (num_of_Z 1) book_self_rounded
    = Some (Accepted 4, b', [Trade.mk 4 "A" (dbl (4 # 10)) (num_of_Z 1) "U1" "U1"]) ∧
    last (trades b') = Some (Trade.mk 4 "A" (dbl (4 # 10)) (num_of_Z 1) "U1" "U1") ∧
    pos_of (positions book_self_rounded) "U1" = Pos.mk (num_of_Z (-1)) (dbl (1 # 10)) ∧
    pos_of (positions b') "U1"
    = Pos.mk (num_of_Z (-1)) (dbl (9999999999999998 # 100000000000000000)) ∧
    pos_of (positions b') "U1" ≠ pos_of (positions book_self_rounded) "U1".
Proof.
  pose proof self_trade_rounds as H.
  destruct (Fl.placeLimit b64 4 "U1" "buy" _ _ _) as [[[r b'] ts]|]; [|done].
  cbn in H. injection H as -> -> Hlast Hpos.
  exists b'. split; [done|]. split; [done|]. split; [by_eval|]. split; [done|].
  rewrite Hpos. by_eval.
Qed.

(** ** Exact numbers are the case of no rounding

    With the identity for [fl] the operations of [Fl] are the operations
    of the first part. *)

Lemma fl_exact_snapToTick px tick : Fl.snapToTick id px tick = snapToTick px tick.
Proof. reflexivity. Qed.

Lemma fl_exact_checkPosLimit u s q b : Fl._checkPosLimit id u s q b = _checkPosLimit u s q b.
Proof. reflexivity. Qed.

Lemma fl_exact_settle_fill now s u maker px tq b :
  Fl.settle_fill id now s u maker px tq b = settle_fill now s u maker px tq b.
Proof. reflexivity. Qed.

Lemma fl_exact_match_level fuel now px o q b :
  Fl.match_level id fuel now px o q b = match_level fuel now px o q b.
Proof.
  revert o q b. induction fuel as [|fuel IH]; intros o q b.
  - by destruct q.
  - destruct q as [|maker rest]; [done|].
    rewrite fl_match_level_cons, match_level_cons.
    case_bool_decide; [|done]. cbv zeta.
    rewrite fl_exact_checkPosLimit.
    destruct (_checkPosLimit _ _ _ b) as [[] b1]; [|done]. cbn [negb].
    rewrite fl_exact_settle_fill.
    destruct (settle_fill _ _ _ _ _ _ b1) as [trade b2].
    by rewrite IH.
Qed.

Lemma fl_exact_match_loop fuel now o b :
  Fl.match_loop id fuel now o b = match_loop fuel now o b.
Proof.
  revert o b. induction fuel as [|fuel IH]; intros o b; [done|].
  rewrite fl_match_loop_S, match_loop_S. cbv zeta.
  destruct (_ && _); [|done].
  destruct (best _ _) as [px|]; [|done].
  destruct (negb _); [done|].
  destruct (makerMap _ _ !! px) as [q|]; [|done]. cbn [mbind option_bind].
  rewrite fl_exact_match_level.
  destruct (match_level _ _ _ _ _ _) as [[[[o1 q1] b1] ts1]|]; [|done].
  cbn [mbind option_bind]. by rewrite IH.
Qed.

Lemma fl_exact_placeLimit now u s p q b :
  Fl.placeLimit id now u s p q b = placeLimit now u s p q b.
Proof.
  unfold Fl.placeLimit, placeLimit, Fl._matchIncoming, _matchIncoming.
  rewrite fl_exact_checkPosLimit.
  destruct (_checkPosLimit u s q b) as [[] b1]; [|done]. cbn [negb]. cbv zeta.
  by rewrite fl_exact_match_loop, fl_exact_snapToTick.
Qed.

Lemma fl_exact_take_loop fuel now u s px r q b :
  Fl.take_loop id fuel now u s px r q b = take_loop fuel now u s px r q b.
Proof.
  revert r q b. induction fuel as [|fuel IH]; intros r q b.
  - by destruct q.
  - destruct q as [|maker rest]; [done|].
    change (Fl.take_loop id (S fuel) now u s px r (maker :: rest) b)
      with (if bool_decide (0 < r) then
              let tradeQty := Math_min r (Order.leaves maker) in
              let '(ok, b1) := Fl._checkPosLimit id u s tradeQty b in
              if negb ok then Some (r, maker :: rest, b1, [])
              else
                let maker1 := Order.set_leaves (Order.leaves maker - tradeQty) maker in
                let '(trade, b2) := Fl.settle_fill id now s u maker px tradeQty b1 in
                let q1 := if bool_decide (Order.leaves maker1 = 0) then rest else maker1 :: rest in
                '(r', q', b', ts) ← Fl.take_loop id fuel now u s px (r - tradeQty) q1 b2;
                Some (r', q', b', trade :: ts)
            else Some (r, maker :: rest, b, [])).
    change (take_loop (S fuel) now u s px r (maker :: rest) b)
      with (if bool_decide (0 < r) then
              let tradeQty := Math_min r (Order.leaves maker) in
              let '(ok, b1) := _checkPosLimit u s tradeQty b in
              if negb ok then Some (r, maker :: rest, b1, [])
              else
                let maker1 := Order.set_leaves (Order.leaves maker - tradeQty) maker in
                let '(trade, b2) := settle_fill now s u maker px tradeQty b1 in
                let q1 := if bool_decide (Order.leaves maker1 = 0) then rest else maker1 :: rest in
                '(r', q', b', ts) ← take_loop fuel now u s px (r - tradeQty) q1 b2;
                Some (r', q', b', trade :: ts)
            else Some (r, maker :: rest, b, [])).
    case_bool_decide; [|done]. cbv zeta.
    rewrite fl_exact_checkPosLimit.
    destruct (_checkPosLimit _ _ _ b) as [[] b1]; [|done]. cbn [negb].
    rewrite fl_exact_settle_fill.
    destruct (settle_fill _ _ _ _ _ _ b1) as [trade b2].
    by rewrite IH.
Qed.

Lemma fl_exact_takeAtPrice now u s p mq b :
  Fl.takeAtPrice id now u s p mq b = takeAtPrice now u s p mq b.
Proof.
  unfold Fl.takeAtPrice, takeAtPrice. cbv zeta. rewrite fl_exact_snapToTick.
  destruct (makerMap s b !! _) as [q|]; [|done].
  case_bool_decide; [done|]. by rewrite fl_exact_take_loop.
Qed.

Lemma fl_exact_call c b : fst <$> Fl.call id c b = call c b.
Proof.
  destruct c as [now u s p q | now u s p q | u s p | u]; cbn.
  - rewrite fl_exact_placeLimit. by destruct (placeLimit _ _ _ _ _ _) as [[[??]?]|].
  - rewrite fl_exact_takeAtPrice. by destruct (takeAtPrice _ _ _ _ _ _) as [[[??]?]|].
  - done.
  - done.
Qed.

(** A run of the first part is the run without rounding. *)
Lemma fl_exact_run cs b : fst <$> Fl.run id cs b = run cs b.
Proof.
  revert b. induction cs as [|c cs IH]; intros b; cbn; [done|].
  rewrite <- fl_exact_call.
  destruct (Fl.call id c b) as [[b1 ts1]|]; cbn; [|done].
  rewrite <- IH. by destruct (Fl.run id cs b1) as [[b2 ts2]|].
Qed.
